(** * CRC demonstration (week9/crc.py): model and verification

    The Python program computes a CRC by binary long division on strings of
    the characters '0' and '1', prints every division step, and checks the
    received frame by dividing again.  This file embeds the functions of
    [crc.py] and proves the properties of the sender/receiver protocol.

    Conventions of the embedding:
    - a Python [str] is a [string]; [list(s)] is [chars s], [''.join(l)] is
      [join l];
    - a Python [int] is a [Z]; lengths are converted with [len];
    - [print] appends one chunk of text to the standard output, which is
      threaded through every function together with the raised exception,
      if any (type [io]). *)

From stdpp Require Import base list strings pretty.
From Stdlib Require Import ZArith Ascii Lia.

Local Open Scope Z_scope.

(** ** Python values and primitives *)

Module Py.

Inductive exn : Type :=
| ValueError (msg : string)
| IndexError (msg : string).

Inductive outcome (A : Type) : Type :=
| Ok (a : A)
| Raise (e : exn).
Global Arguments Ok {A} a.
Global Arguments Raise {A} e.

(** Standard output: the chunks written so far, oldest first. *)
Definition stdout : Type := list string.

(** A computation that may print and may raise. *)
Definition io (A : Type) : Type := stdout → outcome A * stdout.

Definition run {A} (m : io A) (out : stdout) : outcome A * stdout := m out.
Definition result {A} (m : io A) : outcome A := fst (run m []).

Global Instance io_ret : MRet io := λ A a out, (Ok a, out).
Global Instance io_bind : MBind io := λ A B f m out,
  match m out with
  | (Ok a, out') => f a out'
  | (Raise e, out') => (Raise e, out')
  end.
Global Instance io_throw : MThrow exn io := λ A e out, (Raise e, out).

Definition newline : string := String "010"%char "".

(** A computation without output: its value or the exception it raises. *)
Definition eval {A} (o : outcome A) : io A := λ out, (o, out).

(** [print(s)] and [print(s, end='')]. *)
Definition print (s : string) : io unit := λ out, (Ok tt, out ++ [s +:+ newline]).
Definition print_noend (s : string) : io unit := λ out, (Ok tt, out ++ [s]).

(** [if c: body] for a body executed for its effects only. *)
Definition when (c : bool) (body : io unit) : io unit :=
  if c then body else mret tt.

(** [try: body  except: handler] with a bare [except]. *)
Definition try_except {A} (body : io A) (handler : io A) : io A := λ out,
  match body out with
  | (Ok a, out') => (Ok a, out')
  | (Raise _, out') => handler out'
  end.

(** [for x in xs: s = body(x, s)], the loop state being threaded. *)
Fixpoint for_each {X S} (xs : list X) (body : X → S → io S) (s : S) : io S :=
  match xs with
  | [] => mret s
  | x :: xs' => s' ← body x s; for_each xs' body s'
  end.

(** [range(k)]: empty when [k <= 0]. *)
Definition range (k : Z) : list Z := Z.of_nat <$> seq 0 (Z.to_nat k).

Definition chars (s : string) : list ascii := String.list_ascii_of_string s.
Definition join (l : list ascii) : string := String.string_of_list_ascii l.
Definition len (s : string) : Z := Z.of_nat (String.length s).

(** [s * k] for a string [s]: empty when [k <= 0]. *)
Definition str_mul (s : string) (k : Z) : string :=
  join (mjoin (replicate (Z.to_nat k) (chars s))).

(** [c in s] for a one-character string [c]. *)
Definition char_in (c : ascii) (s : string) : bool := bool_decide (c ∈ chars s).

(** Slice bounds are clamped to the sequence, negative ones count from
    the end. *)
Definition clamp (size : nat) (i : Z) : nat :=
  if decide (i < 0) then Z.to_nat (Z.max 0 (Z.of_nat size + i))
  else Z.to_nat (Z.min i (Z.of_nat size)).

Section Seq.
Context {A : Type}.

(** [l[lo:hi]] *)
Definition slice (l : list A) (lo hi : Z) : list A :=
  let a := clamp (length l) lo in
  let b := clamp (length l) hi in
  take (b - a)%nat (drop a l).

(** [l[lo:]] *)
Definition slice_from (l : list A) (lo : Z) : list A :=
  drop (clamp (length l) lo) l.

(** [l[:hi]] *)
Definition slice_to (l : list A) (hi : Z) : list A :=
  take (clamp (length l) hi) l.

(** [l[lo:hi] = new] *)
Definition slice_assign (l : list A) (lo hi : Z) (new : list A) : list A :=
  let a := clamp (length l) lo in
  let b := Nat.max (clamp (length l) hi) a in
  take a l ++ new ++ drop b l.

(** The position an index designates, if any: negative indices count
    from the end. *)
Definition index (size : nat) (i : Z) : option nat :=
  let j := if decide (i < 0) then Z.of_nat size + i else i in
  if decide (0 ≤ j < Z.of_nat size) then Some (Z.to_nat j) else None.

(** [l[i]] *)
Definition getitem (l : list A) (i : Z) : io A :=
  match index (length l) i ≫= (l !!.) with
  | Some x => mret x
  | None => mthrow (IndexError "index out of range")
  end.

(** [l[i] = x] *)
Definition setitem (l : list A) (i : Z) (x : A) : io (list A) :=
  match index (length l) i with
  | Some j => mret (<[j:=x]> l)
  | None => mthrow (IndexError "assignment index out of range")
  end.
End Seq.

(** [all(f(c) for c in s)] and [any(f(c) for c in s)] *)
Definition all_chars (f : ascii → bool) (s : string) : bool := forallb f (chars s).
Definition any_char (f : ascii → bool) (s : string) : bool := existsb f (chars s).

(** [str(z)] and the format specification [02d]. *)
Definition str (z : Z) : string := pretty z.
Definition fmt_02d (z : Z) : string :=
  let s := pretty z in
  if decide (String.length s < 2)%nat then "0" +:+ s else s.

End Py.

Import Py.

(** ** The program: [week9/crc.py] *)

Definition validate_binary_str (s name : string) : io string :=
  if decide (s = "") then
    mthrow (ValueError (name +:+ " cannot be empty."))
  else if any_char (λ c, negb (char_in c "01")) s then
    mthrow (ValueError (name +:+ " must contain only '0' and '1' characters."))
  else mret s.

(** One character of [xor]: ['0' if x == y else '1']. *)
Definition xor_char (x y : ascii) : ascii :=
  if decide (x = y) then "0"%char else "1"%char.

Definition xor (a b : string) : string :=
  join (zip_with xor_char (chars a) (chars b)).

(** The body of the division loop: one window position [i], acting on the
    working buffer. *)
Definition division_step (divisor : string) (show_steps : bool)
    (i : Z) (work : list ascii) : io (list ascii) :=
  let n := len divisor in
  let window := join (slice work i (i + n)) in
  when show_steps
    (print_noend ("Step " +:+ fmt_02d (i + 1) +:+ ": position " +:+ fmt_02d i
                  +:+ ", window = " +:+ window));;
  w0 ← getitem (chars window) 0;
  if decide (w0 = "1"%char) then
    let new_bits := xor window divisor in
    when show_steps (print (" -> XOR with divisor -> " +:+ new_bits));;
    mret (slice_assign work i (i + n) (chars new_bits))
  else
    when show_steps (print " -> leading bit 0 -> skip (would XOR with zeros)");;
    mret work.

Definition long_division_show (dividend divisor : string) (show_steps : bool)
    : io string :=
  let n := len divisor in
  let work := chars dividend in
  when show_steps
    (print (newline +:+ "Long division steps (divisor length = " +:+ str n +:+ "):");;
     print ("Divisor: " +:+ divisor);;
     print (str_mul "-" 60));;
  work ← for_each (range (len dividend - n + 1)) (division_step divisor show_steps) work;
  let remainder :=
    if decide (n > 1) then join (slice_from work (- (n - 1))) else "0" in
  when show_steps
    (print (str_mul "-" 60);;
     print ("Remainder (last " +:+ str (n - 1) +:+ " bits): " +:+ remainder +:+ newline));;
  mret remainder.

Definition generator_error : exn :=
  ValueError "Generator polynomial must start with '1' (highest-order bit).".

Definition compute_crc_sender (data_bits generator_bits : string) (show_steps : bool)
    : io (string * string) :=
  validate_binary_str data_bits "Data bits";;
  validate_binary_str generator_bits "Generator bits";;
  g0 ← getitem (chars generator_bits) 0;
  (if decide (g0 ≠ "1"%char) then mthrow generator_error else mret tt);;
  let k := len generator_bits - 1 in
  let augmented := data_bits +:+ str_mul "0" k in
  when show_steps
    (print "SENDER SIDE";;
     print ("Original data bits   : " +:+ data_bits);;
     print ("Generator polynomial : " +:+ generator_bits);;
     print ("Augmented (data+0s)  : " +:+ augmented));;
  remainder ← long_division_show augmented generator_bits show_steps;
  let transmitted := data_bits +:+ remainder in
  when show_steps
    (print ("Computed CRC (remainder) : " +:+ remainder);;
     print ("Transmitted bits         : " +:+ transmitted +:+ newline));;
  mret (remainder, transmitted).

Definition check_crc_receiver (received_bits generator_bits : string) (show_steps : bool)
    : io (bool * string) :=
  validate_binary_str received_bits "Received bits";;
  validate_binary_str generator_bits "Generator bits";;
  g0 ← getitem (chars generator_bits) 0;
  (if decide (g0 ≠ "1"%char) then mthrow generator_error else mret tt);;
  when show_steps
    (print "RECEIVER SIDE";;
     print ("Received bits         : " +:+ received_bits);;
     print ("Generator polynomial  : " +:+ generator_bits));;
  remainder ← long_division_show received_bits generator_bits show_steps;
  let ok := all_chars (λ ch, bool_decide (ch = "0"%char)) remainder in
  when show_steps
    (if ok then print "Receiver remainder is all zeros -> No error detected."
     else print "Receiver remainder is NOT all zeros -> Error detected!");;
  mret (ok, remainder).

(** *** The error simulation of [demo_interactive]

    [demo_interactive] reads its inputs from the terminal; the two branches
    that corrupt the transmitted frame are embedded as functions of the text
    that was read.  [int] stands for Python's built-in conversion of a
    string to an integer, which raises [ValueError] on text that is not an
    integer literal.  [int_decimal] reads the plain decimal literals (an
    optional minus sign followed by digits), on which it agrees with that
    conversion; it serves in the examples. *)

Fixpoint decimal_value (acc : Z) (l : list ascii) : option Z :=
  match l with
  | [] => Some acc
  | c :: l' =>
      match Ascii.is_nat c with
      | Some d => decimal_value (10 * acc + Z.of_nat d) l'
      | None => None
      end
  end.

Definition int_decimal (s : string) : outcome Z :=
  let invalid := Raise (ValueError ("invalid literal for int() with base 10: '"
                                    +:+ s +:+ "'")) in
  match chars s with
  | [] => invalid
  | "-"%char :: [] => invalid
  | "-"%char :: l => from_option (λ z, Ok (- z)) invalid (decimal_value 0 l)
  | l => from_option Ok invalid (decimal_value 0 l)
  end.

(** ['1' if c == '0' else '0'] *)
Definition toggle (c : ascii) : ascii :=
  if decide (c = "0"%char) then "1"%char else "0"%char.

Section ErrorSimulation.
Variable int : string → outcome Z.

(** Choice 2: flip one bit. *)
Definition flip_one_bit (transmitted pos : string) : io string :=
  let received := transmitted in
  try_except
    (p ← eval (int pos);
     (if negb (bool_decide (0 ≤ p < len transmitted))
      then mthrow (ValueError "") else mret tt);;
     t_p ← getitem (chars transmitted) p;
     let b := toggle t_p in
     let received :=
       join (slice_to (chars transmitted) p) +:+ String b ""
       +:+ join (slice_from (chars transmitted) (p + 1)) in
     print ("Flipped bit at position " +:+ str p +:+ ". Received bits: " +:+ received);;
     mret received)
    (print "Invalid position; no flip performed.";;
     mret received).

(** Choice 3: flip the bits at several positions. *)
Definition flip_bits_step (transmitted : string) (pos : string)
    (changed : list ascii) : io (list ascii) :=
  try_except
    (p ← eval (int pos);
     if bool_decide (0 ≤ p < len transmitted) then
       c_p ← getitem changed p;
       setitem changed p (toggle c_p)
     else mret changed)
    (mret changed).

Definition flip_bits (transmitted : string) (pos_list : list string) : io string :=
  let changed := chars transmitted in
  changed ← for_each pos_list (flip_bits_step transmitted) changed;
  let received := join changed in
  print ("Received bits after flips: " +:+ received);;
  mret received.

End ErrorSimulation.

(** *** [demo_interactive]

    The terminal is a supply of typed lines: [typed k] is the text the
    [k]-th call of [input] returns.  [input] writes its prompt on the
    standard output.  The end of the input, at which Python's [input] raises
    [EOFError], has no counterpart here: what is proved of
    [demo_interactive] is about the runs in which each of its five calls of
    [input] returns a line.  [strip] and [split] stand for the string
    methods of Python, as [int] does for the conversion. *)

Definition input (prompt line : string) : io string :=
  print_noend prompt;; mret line.

(** [try: body  except ValueError as e: handler(e)], where the handler is
    given the text of the exception. *)
Definition try_except_ValueError {A} (body : io A) (handler : string → io A)
    : io A := λ out,
  match body out with
  | (Raise (ValueError msg), out') => handler msg out'
  | r => r
  end.

Definition default_generator : string := "10001000000100001".

Section Demo.
Variable int : string → outcome Z.
Variable strip : string → string.
Variable split : string → list string.
Variable typed : nat → string.

(** The part of [demo_interactive] after the sender has succeeded. *)
Definition demo_channel (generator_bits transmitted : string) : io unit :=
  print (newline +:+ "Do you want to simulate transmission errors?");;
  print "  1) No (send as-is)";;
  print "  2) Flip one bit";;
  print "  3) Flip multiple bits (specify positions)";;
  line ← input "Choice [1/2/3]: " (typed 2%nat);
  let choice := if decide (strip line = "") then "1" else strip line in
  received ←
    (if decide (choice = "2") then
       line ← input ("Enter bit position to flip (0.." +:+ str (len transmitted - 1)
                     +:+ "), 0 is leftmost: ") (typed 3%nat);
       let pos := strip line in
       flip_one_bit int transmitted pos
     else if decide (choice = "3") then
       line ← input ("Enter space-separated positions to flip (0.."
                     +:+ str (len transmitted - 1) +:+ "): ") (typed 3%nat);
       let pos_list := split (strip line) in
       flip_bits int transmitted pos_list
     else
       print "Sending without errors.";;
       mret transmitted);
  '(ok, rem) ← check_crc_receiver received generator_bits true;
  if ok : bool then print (newline +:+ "FINAL RESULT: No error detected by CRC.")
  else print (newline +:+ "FINAL RESULT: Error detected by CRC.").

Definition demo_interactive : io unit :=
  print "=== CRC-CCITT (16-bit) Demo ===";;
  print "Enter data bits (binary), e.g. 11010011101100";;
  line ← input "Data bits: " (typed 0%nat);
  let data_bits := strip line in
  print (newline +:+ "Press Enter to use default CRC-CCITT generator:");;
  print ("  default (CRC-CCITT) = " +:+ default_generator);;
  line ← input "Generator bits (binary) [default]: " (typed 1%nat);
  let gen_in := strip line in
  let generator_bits := if decide (gen_in = "") then default_generator else gen_in in
  sent ← try_except_ValueError
           (r ← compute_crc_sender data_bits generator_bits true; mret (Some r))
           (λ e, print ("Input error: " +:+ e);; mret None);
  match sent with
  | None => mret tt
  | Some (crc, transmitted) => demo_channel generator_bits transmitted
  end.

End Demo.

(** ** The program: [week9/leakyBucket.py]

    [leaky_bucket] prints a table and returns nothing.  Its second loop is
    a [while] that need not end, so the embedding takes a bound [fuel] on
    the number of iterations of that loop and says how the call ends:
    [Done], [OutOfFuel] when the loop is still running after [fuel]
    iterations, or [UnboundLocalError] when [time] is read before the [for]
    loop has assigned it. *)

Inductive ending : Type :=
| Done
| OutOfFuel
| UnboundLocalError (name : string).

(** [format(s, '<w')]: [s] followed by spaces up to the width [w]. *)
Definition ljust (s : string) (w : Z) : string := s +:+ str_mul " " (w - len s).

(** [enumerate(l, start)] *)
Fixpoint enumerate {A} (start : Z) (l : list A) : list (Z * A) :=
  match l with
  | [] => []
  | x :: l' => (start, x) :: enumerate (start + 1) l'
  end.

Definition table_header : string :=
  ljust "Time (s)" 12 +:+ ljust "Incoming Packets" 18
  +:+ ljust "Bucket State (Before Leak)" 24 +:+ ljust "Dropped Packets" 15
  +:+ ljust "Transmitted Packets" 20 +:+ "Packets Left in Bucket".

(** The body of the [for] loop; the variables kept from one iteration to
    the next are [time] (unassigned at first) and [stored]. *)
Definition arrival (bucket_capacity output_rate : Z) (item : Z * Z)
    (vars : option Z * Z) : io (option Z * Z) :=
  let '(time, packets) := item in
  let stored := vars.2 in
  let '(dropped, stored) :=
    if decide (packets + stored > bucket_capacity)
    then ((packets + stored) - bucket_capacity, bucket_capacity)
    else (0, stored + packets) in
  let transmitted := Z.min stored output_rate in
  let stored := stored - transmitted in
  print (ljust (str time) 12 +:+ ljust (str packets) 18
         +:+ ljust (str (stored + transmitted)) 24 +:+ ljust (str dropped) 15
         +:+ ljust (str transmitted) 20 +:+ str stored);;
  mret (Some time, stored).

(** The [while stored > 0] loop. *)
Fixpoint drain (fuel : nat) (output_rate : Z) (time : option Z) (stored : Z)
    : io ending :=
  if decide (stored > 0) then
    match fuel with
    | O => mret OutOfFuel
    | S fuel' =>
        match time with
        | None => mret (UnboundLocalError "time")
        | Some time =>
            let time := time + 1 in
            let transmitted := Z.min stored output_rate in
            let stored := stored - transmitted in
            print (ljust (str time) 12 +:+ ljust "--" 18
                   +:+ ljust (str (stored + transmitted)) 24 +:+ ljust "--" 15
                   +:+ ljust (str transmitted) 20 +:+ str stored);;
            drain fuel' output_rate (Some time) stored
        end
    end
  else mret Done.

Definition leaky_bucket (fuel : nat) (bucket_capacity output_rate : Z)
    (incoming_packets : list Z) : io ending :=
  let stored := 0 in
  print table_header;;
  print (str_mul "=" 90);;
  vars ← for_each (enumerate 1 incoming_packets)
                  (arrival bucket_capacity output_rate) (None, stored);
  e ← drain fuel output_rate vars.1 vars.2;
  match e with
  | Done => print (newline +:+ "All packets transmitted successfully.");; mret Done
  | _ => mret e
  end.

(** ** Reasoning about computations *)

(** [returns m a]: from every state of the standard output, [m] terminates
    normally with value [a]. *)
Definition returns {A} (m : io A) (a : A) : Prop :=
  ∀ out, ∃ out', run m out = (Ok a, out').

(** [same_value m1 m2]: both computations produce the same value or raise
    the same exception, whatever was printed before. *)
Definition same_value {A} (m1 m2 : io A) : Prop :=
  ∀ out1 out2, (run m1 out1).1 = (run m2 out2).1.

(** Well-formed inputs of the protocol: non-empty text over '0' and '1'. *)
Definition is_bit (c : ascii) : bool := char_in c "01".
Definition is_bitstring (s : string) : bool :=
  negb (bool_decide (s = "")) && all_chars is_bit s.

(** The leading character of a string and the number of its '1's. *)
Definition leading (s : string) : option ascii := head (chars s).
Definition ones (s : string) : nat :=
  length (filter (λ c, c = "1"%char) (chars s)).

(** ** Functional description of the division loop

    [sweep g w c] is the effect of [c] successive window positions on the
    part [w] of the working buffer that starts at the current position: the
    element in front is final after its step, the rest is swept on. *)

Section Sweep.
Context {A : Type} (one : A → bool) (add : A → A → A).

Definition sub_front (w g : list A) : list A :=
  zip_with add (take (length g) w) g ++ drop (length g) w.

Fixpoint sweep (g w : list A) (c : nat) : list A :=
  match c, w with
  | S c', b :: _ =>
      match (if one b then sub_front w g else w) with
      | x :: w' => x :: sweep g w' c'
      | [] => []
      end
  | _, _ => w
  end.

End Sweep.

(** The division loop on characters and its image on bits. *)
Definition is_one (c : ascii) : bool := bool_decide (c = "1"%char).
Definition sweep_chars : list ascii → list ascii → nat → list ascii :=
  sweep is_one xor_char.
Definition sweep_bits : list bool → list bool → nat → list bool :=
  sweep id xorb.

Definition digit (b : bool) : ascii := if b then "1"%char else "0"%char.
Definition digits (l : list bool) : list ascii := digit <$> l.
Definition bits (s : string) : list bool := is_one <$> chars s.

(** Bitwise sum of two bit vectors, and the vector of size [size] whose
    only 1 is at position [p]. *)
Definition xorl (a b : list bool) : list bool := zip_with xorb a b.
Definition zeros (k : nat) : list bool := replicate k false.
Definition unit_vector (p size : nat) : list bool :=
  zeros p ++ true :: zeros (size - p - 1).

(** The value [long_division_show] returns for a non-empty divisor, in
    terms of [sweep_chars]. *)
Definition window_count (dividend divisor : string) : nat :=
  (String.length dividend + 1 - String.length divisor)%nat.
Definition remainder_of (dividend divisor : string) : string :=
  let work := sweep_chars (chars divisor) (chars dividend)
                          (window_count dividend divisor) in
  if decide (1 < String.length divisor)%nat
  then join (drop (String.length dividend - (String.length divisor - 1)) work)
  else "0".

(** The values the sender and the receiver compute on well-formed inputs. *)
Definition augmented_of (data generator : string) : string :=
  data +:+ str_mul "0" (len generator - 1).
Definition crc_of (data generator : string) : string :=
  remainder_of (augmented_of data generator) generator.
Definition frame_of (data generator : string) : string :=
  data +:+ crc_of data generator.
Definition all_zero (s : string) : bool :=
  all_chars (λ ch, bool_decide (ch = "0"%char)) s.

(** The checksum bits of a data block under the generator [true :: gt]. *)
Definition crc_bits (gt d : list bool) : list bool :=
  drop (length d) (sweep_bits (true :: gt) (d ++ zeros (length gt)) (length d)).

(** The frame with the character at position [i] toggled. *)
Definition flip_at (s : string) (i : nat) : string :=
  join (alter toggle i (chars s)).

(** The exception [validate_binary_str] raises on an ill-formed text. *)
Definition validation_error (s name : string) : exn :=
  ValueError (name +:+ (if decide (s = "") then " cannot be empty."
                        else " must contain only '0' and '1' characters.")).

(** The positions requested in the multiple-flip branch: the integers that
    the entries of [pos_list] stand for, in order (entries that are not
    integers are left out); [times p l] is the number of times [p] occurs
    in [l]. *)
Definition requested (int : string → outcome Z) (pos_list : list string) : list Z :=
  omap (λ pos, match int pos with Ok p => Some p | Raise _ => None end) pos_list.
Definition times (p : Z) (l : list Z) : nat := length (filter (λ q, q = p) l).

(** The error vector of a set of positions on a frame of [size] bits. *)
Definition error_vector (offsets : list Z) (size : nat) : list bool :=
  (λ j : nat, bool_decide (Z.of_nat j ∈ offsets)) <$> seq 0 size.

(** [finishes m a chunk]: [m] returns [a] and the last chunk it prints is
    [chunk]. *)
Definition finishes {A} (m : io A) (a : A) (chunk : string) : Prop :=
  ∀ out, ∃ out', run m out = (Ok a, out' ++ [chunk]).

(** The text carried by an exception. *)
Definition exn_text (e : exn) : string :=
  match e with ValueError msg | IndexError msg => msg end.

(** *** The table of [leaky_bucket]

    A row of the table: the time, the incoming packets and the dropped
    packets (absent, printed "--", in the rows of the [while] loop), the
    bucket state before the leak, the transmitted packets and the packets
    left. *)
Record row : Type := {
  row_time : Z;
  row_packets : option Z;
  row_before : Z;
  row_dropped : option Z;
  row_transmitted : Z;
  row_left : Z;
}.

Definition render_row (r : row) : string :=
  (ljust (str (row_time r)) 12 +:+ ljust (from_option str "--" (row_packets r)) 18
   +:+ ljust (str (row_before r)) 24
   +:+ ljust (from_option str "--" (row_dropped r)) 15
   +:+ ljust (str (row_transmitted r)) 20 +:+ str (row_left r)) +:+ newline.

(** The rows of the [for] loop from time [time] on, with the packets stored
    at the end. *)
Fixpoint arrival_rows (bucket_capacity output_rate time stored : Z)
    (incoming_packets : list Z) : list row * Z :=
  match incoming_packets with
  | [] => ([], stored)
  | packets :: rest =>
      let dropped :=
        if decide (packets + stored > bucket_capacity)
        then (packets + stored) - bucket_capacity else 0 in
      let filled :=
        if decide (packets + stored > bucket_capacity)
        then bucket_capacity else stored + packets in
      let transmitted := Z.min filled output_rate in
      let left := filled - transmitted in
      let '(rows, final) :=
        arrival_rows bucket_capacity output_rate (time + 1) left rest in
      ({| row_time := time; row_packets := Some packets;
          row_before := left + transmitted; row_dropped := Some dropped;
          row_transmitted := transmitted; row_left := left |} :: rows, final)
  end.

(** The rows of at most [fuel] iterations of the [while] loop, the first at
    time [time + 1]. *)
Fixpoint drain_rows (fuel : nat) (output_rate time stored : Z) : list row :=
  match fuel with
  | O => []
  | S fuel' =>
      if decide (stored > 0) then
        let transmitted := Z.min stored output_rate in
        let left := stored - transmitted in
        {| row_time := time + 1; row_packets := None;
           row_before := left + transmitted; row_dropped := None;
           row_transmitted := transmitted; row_left := left |}
        :: drain_rows fuel' output_rate (time + 1) left
      else []
  end.

Definition table_rows (fuel : nat) (bucket_capacity output_rate : Z)
    (incoming_packets : list Z) : list row :=
  let '(rows, stored) := arrival_rows bucket_capacity output_rate 1 0 incoming_packets in
  rows ++ drain_rows fuel output_rate (Z.of_nat (length incoming_packets)) stored.

(** The chunks printed by a call that ends with [Done]. *)
Definition table (rows : list row) : stdout :=
  [table_header +:+ newline; str_mul "=" 90 +:+ newline]
  ++ (render_row <$> rows)
  ++ [(newline +:+ "All packets transmitted successfully.") +:+ newline].

Definition total (l : list Z) : Z := foldr Z.add 0 l.

(** What holds of every row when the capacity and the packets are not
    negative and the rate is positive. *)
Definition row_within (bucket_capacity output_rate : Z) (r : row) : Prop :=
  0 ≤ row_left r ≤ bucket_capacity
  ∧ 0 ≤ row_transmitted r ≤ output_rate
  ∧ row_before r = row_left r + row_transmitted r
  ∧ row_before r ≤ bucket_capacity
  ∧ (∀ d, row_dropped r = Some d → 0 ≤ d).

(** ** Facts about the functional description *)

Section SweepFacts.
Context {A : Type} (one : A → bool) (add : A → A → A).
Local Abbreviation sub_front := (sub_front add).
Local Abbreviation sweep := (sweep one add).

Lemma sub_front_nil_r w : sub_front w [] = w.
Proof. unfold sub_front. by rewrite drop_0. Qed.

Lemma sub_front_nil_l g : sub_front [] g = [].
Proof. unfold sub_front. by rewrite take_nil, drop_nil. Qed.

Lemma sub_front_cons x w y g :
  sub_front (x :: w) (y :: g) = add x y :: sub_front w g.
Proof. reflexivity. Qed.

Lemma length_sub_front w g : length (sub_front w g) = length w.
Proof.
  revert g. induction w as [|x w IH]; intros [|y g].
  - done.
  - by rewrite sub_front_nil_l.
  - by rewrite sub_front_nil_r.
  - rewrite sub_front_cons. simpl. by rewrite IH.
Qed.

Lemma length_sweep g w c : length (sweep g w c) = length w.
Proof.
  revert w. induction c as [|c IH]; intros [|b w]; simpl; try done.
  destruct (one b).
  - destruct (sub_front (b :: w) g) as [|x w'] eqn:E.
    + apply (f_equal length) in E. rewrite length_sub_front in E. done.
    + apply (f_equal length) in E. rewrite length_sub_front in E.
      simpl in *. rewrite IH. lia.
  - simpl. by rewrite IH.
Qed.

End SweepFacts.

(** ** Facts about computations *)

Section Computations.
Context {A B : Type}.

Lemma run_bind (m : io A) (f : A → io B) out :
  run (m ≫= f) out =
  match run m out with
  | (Ok a, out') => run (f a) out'
  | (Raise e, out') => (Raise e, out')
  end.
Proof. reflexivity. Qed.

Lemma returns_ret (a : A) : returns (mret a) a.
Proof. intros out. by exists out. Qed.

Lemma returns_bind (m : io A) (f : A → io B) a b :
  returns m a → returns (f a) b → returns (m ≫= f) b.
Proof.
  intros Hm Hf out. destruct (Hm out) as [out1 H1].
  destruct (Hf out1) as [out2 H2]. exists out2.
  by rewrite run_bind, H1.
Qed.

Lemma returns_result (m : io A) a : returns m a → result m = Ok a.
Proof. intros H. destruct (H []) as [o E]. unfold result. by rewrite E. Qed.

Lemma same_value_bind (m1 m2 : io A) (f1 f2 : A → io B) :
  same_value m1 m2 → (∀ a, same_value (f1 a) (f2 a)) →
  same_value (m1 ≫= f1) (m2 ≫= f2).
Proof.
  intros Hm Hf out1 out2. rewrite !run_bind. specialize (Hm out1 out2).
  destruct (run m1 out1) as [[a1|e1] o1], (run m2 out2) as [[a2|e2] o2];
    simplify_eq/=; try done.
  apply Hf.
Qed.

End Computations.

Lemma returns_print s : returns (print s) tt.
Proof. intros out. by eexists. Qed.

Lemma returns_print_noend s : returns (print_noend s) tt.
Proof. intros out. by eexists. Qed.

Lemma returns_when c body : returns body tt → returns (when c body) tt.
Proof. destruct c; [done|]. intros _. apply returns_ret. Qed.

Lemma returns_seq {B} (m : io unit) (k : io B) b :
  returns m tt → returns k b → returns (m;; k) b.
Proof. intros. by eapply returns_bind. Qed.

Lemma same_value_unit (m1 m2 : io unit) :
  returns m1 tt → returns m2 tt → same_value m1 m2.
Proof.
  intros H1 H2 o1 o2. destruct (H1 o1) as [? ->], (H2 o2) as [? ->]. done.
Qed.

Lemma same_value_for_each {X S} (xs : list X) (body1 body2 : X → S → io S) s :
  (∀ x s, same_value (body1 x s) (body2 x s)) →
  same_value (for_each xs body1 s) (for_each xs body2 s).
Proof.
  intros Hb. revert s. induction xs as [|x xs IH]; intros s; simpl.
  - done.
  - apply same_value_bind; [apply Hb | done].
Qed.

(** Printing commands return normally; [io_prints] discharges such goals. *)
Ltac io_prints :=
  repeat first
    [ apply returns_when
    | apply returns_print
    | apply returns_print_noend
    | apply returns_ret
    | apply returns_seq
    | match goal with |- returns (if ?c then _ else _) _ => destruct c end ].

(** ** Facts about the Python primitives *)

Lemma chars_join l : chars (join l) = l.
Proof. apply String.list_ascii_of_string_of_list_ascii. Qed.

Lemma join_chars s : join (chars s) = s.
Proof. apply String.string_of_list_ascii_of_string. Qed.

Lemma chars_inj s1 s2 : chars s1 = chars s2 → s1 = s2.
Proof. intros H. by rewrite <-(join_chars s1), <-(join_chars s2), H. Qed.

Lemma chars_app s1 s2 : chars (s1 +:+ s2) = chars s1 ++ chars s2.
Proof. induction s1 as [|c s1 IH]; simpl; [done|]. unfold chars in *. simpl. by f_equal. Qed.

Lemma length_chars s : length (chars s) = String.length s.
Proof. induction s as [|c s IH]; simpl; [done|]. unfold chars in *. simpl. by f_equal. Qed.

Lemma len_chars s : len s = Z.of_nat (length (chars s)).
Proof. unfold len. by rewrite length_chars. Qed.

Lemma chars_nil s : chars s = [] ↔ s = "".
Proof. split; [|by intros ->]. by destruct s. Qed.

Lemma chars_str_mul c k :
  chars (str_mul (String c "") (Z.of_nat k)) = replicate k c.
Proof.
  unfold str_mul. rewrite chars_join, Nat2Z.id.
  induction k as [|k IH]; simpl; [done|]. by f_equal.
Qed.

Lemma clamp_of_nat size i : clamp size (Z.of_nat i) = (i `min` size)%nat.
Proof.
  unfold clamp. rewrite decide_False by lia.
  by rewrite <-Nat2Z.inj_min, Nat2Z.id.
Qed.

Lemma clamp_neg size k :
  (0 < k)%nat → clamp size (- Z.of_nat k) = (size - k)%nat.
Proof.
  intros. unfold clamp. rewrite decide_True by lia.
  destruct (Z.max_spec 0 (Z.of_nat size + - Z.of_nat k)) as [[? ->]|[? ->]]; lia.
Qed.

Section SeqFacts.
Context {A : Type}.
Implicit Types l : list A.

Lemma slice_window l (i n : nat) :
  (i + n ≤ length l)%nat →
  slice l (Z.of_nat i) (Z.of_nat i + Z.of_nat n) = take n (drop i l).
Proof.
  intros. unfold slice. rewrite <-Nat2Z.inj_add, !clamp_of_nat.
  f_equal; [lia|f_equal; lia].
Qed.

Lemma slice_assign_window l (i n : nat) new :
  (i + n ≤ length l)%nat →
  slice_assign l (Z.of_nat i) (Z.of_nat i + Z.of_nat n) new
  = take i l ++ new ++ drop n (drop i l).
Proof.
  intros. unfold slice_assign. rewrite <-Nat2Z.inj_add, !clamp_of_nat.
  rewrite drop_drop. repeat f_equal; lia.
Qed.

Lemma slice_from_last l (k : nat) :
  (0 < k)%nat → slice_from l (- Z.of_nat k) = drop (length l - k) l.
Proof. intros. unfold slice_from. by rewrite clamp_neg. Qed.

Lemma slice_to_of_nat l (i : nat) :
  (i ≤ length l)%nat → slice_to l (Z.of_nat i) = take i l.
Proof. intros. unfold slice_to. rewrite clamp_of_nat. f_equal. lia. Qed.

Lemma slice_from_of_nat l (i : nat) :
  (i ≤ length l)%nat → slice_from l (Z.of_nat i) = drop i l.
Proof. intros. unfold slice_from. rewrite clamp_of_nat. f_equal. lia. Qed.

Lemma index_of_nat size (i : nat) :
  (i < size)%nat → index size (Z.of_nat i) = Some i.
Proof.
  intros. unfold index. cbv zeta.
  destruct (decide (Z.of_nat i < 0)); [lia|].
  rewrite decide_True by lia. by rewrite Nat2Z.id.
Qed.

Lemma getitem_lookup l (i : nat) x out :
  l !! i = Some x → run (getitem l (Z.of_nat i)) out = (Ok x, out).
Proof.
  intros H. unfold getitem. rewrite index_of_nat by (by eapply lookup_lt_Some).
  simpl. by rewrite H.
Qed.

Lemma setitem_lookup l (i : nat) x out :
  (i < length l)%nat → run (setitem l (Z.of_nat i) x) out = (Ok (<[i:=x]> l), out).
Proof. intros H. unfold setitem. by rewrite index_of_nat. Qed.

End SeqFacts.

Lemma returns_ret_eq {A} (a a' : A) : a = a' → returns (mret a) a'.
Proof. intros ->. apply returns_ret. Qed.

Lemma returns_getitem {A} (l : list A) (i : nat) x :
  l !! i = Some x → returns (getitem l (Z.of_nat i)) x.
Proof. intros H out. exists out. by apply getitem_lookup. Qed.

(** ** The division loop computes [sweep_chars] *)

Section SweepSteps.
Context {A : Type} (one : A → bool) (add : A → A → A).
Local Abbreviation sub_front := (sub_front add).
Local Abbreviation sweep := (sweep one add).

Lemma sweep_0 g w : sweep g w 0 = w.
Proof. by destruct w. Qed.

Lemma sweep_nil g c : sweep g [] c = [].
Proof. by destruct c. Qed.

Lemma sweep_1 g x w :
  sweep g (x :: w) 1 = if one x then sub_front (x :: w) g else x :: w.
Proof.
  simpl. destruct (one x); [|done].
  by destruct (sub_front (x :: w) g).
Qed.

Lemma sweep_S g w c :
  sweep g w (S c) = take 1 (sweep g w 1) ++ sweep g (drop 1 (sweep g w 1)) c.
Proof.
  destruct w as [|x w]; [by rewrite !sweep_nil|].
  simpl. destruct (if one x then _ else _) as [|y w']; simpl.
  - by rewrite sweep_nil.
  - by rewrite drop_0.
Qed.

End SweepSteps.

Section DivisionLoop.
Variable divisor : string.
Variable show_steps : bool.
Hypothesis divisor_nonempty : chars divisor ≠ [].

Local Abbreviation g := (chars divisor).

Lemma division_step_returns (i : nat) work :
  (i + length g ≤ length work)%nat →
  returns (division_step divisor show_steps (Z.of_nat i) work)
          (take i work ++ sweep_chars g (drop i work) 1).
Proof.
  intros Hfit. unfold division_step. cbv zeta.
  rewrite len_chars, slice_window, slice_assign_window, chars_join by done.
  assert (∃ x rest, drop i work = x :: rest) as (x & rest & Hd).
  { destruct (drop i work) as [|x rest] eqn:E; [|by eauto].
    apply (f_equal length) in E. rewrite length_drop in E.
    destruct g; simpl in *; [done|lia]. }
  assert (take (length g) (drop i work) !! 0%nat = Some x) as Hx.
  { rewrite Hd. destruct g; [done|]. done. }
  apply returns_seq; [io_prints|].
  eapply returns_bind; [apply (returns_getitem _ 0), Hx|].
  unfold sweep_chars. rewrite Hd, sweep_1. unfold is_one.
  case_decide as Hone.
  - rewrite bool_decide_eq_true_2 by done.
    apply returns_seq; [io_prints|]. apply returns_ret_eq.
    unfold xor. by rewrite !chars_join.
  - rewrite bool_decide_eq_false_2 by done.
    apply returns_seq; [io_prints|]. apply returns_ret_eq.
    by rewrite <-Hd, take_drop.
Qed.

Lemma division_loop_returns (c i : nat) work :
  (c = 0 ∨ i + c + length g ≤ length work + 1)%nat →
  returns (for_each (Z.of_nat <$> seq i c) (division_step divisor show_steps) work)
          (take i work ++ sweep_chars g (drop i work) c).
Proof.
  revert i work. induction c as [|c IH]; intros i work Hfit.
  - simpl. apply returns_ret_eq. by rewrite take_drop.
  - change (seq i (S c)) with (i :: seq (S i) c).
    rewrite fmap_cons. cbn [for_each].
    assert (i + length g ≤ length work)%nat as Hi by lia.
    eapply returns_bind; [by apply division_step_returns|].
    set (s1 := sweep_chars g (drop i work) 1).
    assert (length s1 = length work - i)%nat as Hs1.
    { unfold s1, sweep_chars. by rewrite length_sweep, length_drop. }
    assert (g ≠ [] → 0 < length g)%nat as Hg by (destruct g; simpl; [done|lia]).
    specialize (Hg divisor_nonempty).
    assert (length (take i work) = i) as Hti by (rewrite length_take; lia).
    specialize (IH (S i) (take i work ++ s1)).
    replace (take (S i) (take i work ++ s1)) with (take i work ++ take 1 s1) in IH.
    2:{ rewrite take_app. rewrite Hti. rewrite take_take.
        replace (S i `min` i)%nat with i by lia.
        by replace (S i - i)%nat with 1%nat by lia. }
    replace (drop (S i) (take i work ++ s1)) with (drop 1 s1) in IH.
    2:{ rewrite drop_app. rewrite Hti.
        rewrite (drop_ge (take i work)) by lia.
        by replace (S i - i)%nat with 1%nat by lia. }
    unfold sweep_chars. rewrite sweep_S. fold sweep_chars. fold s1.
    rewrite <-(assoc_L (++)) in IH. apply IH.
    rewrite length_app, Hti, Hs1. lia.
Qed.

End DivisionLoop.

Lemma range_window_count dividend divisor :
  range (len dividend - len divisor + 1)
  = Z.of_nat <$> seq 0 (window_count dividend divisor).
Proof. unfold range, window_count, len. do 2 f_equal. lia. Qed.

Lemma long_division_show_returns dividend divisor show_steps :
  divisor ≠ "" →
  returns (long_division_show dividend divisor show_steps)
          (remainder_of dividend divisor).
Proof.
  intros Hne. assert (chars divisor ≠ []) as Hg by (by rewrite chars_nil).
  assert (0 < String.length divisor)%nat as Hn by (destruct divisor; simpl; [done|lia]).
  unfold long_division_show. cbv zeta.
  apply returns_seq; [io_prints|].
  rewrite range_window_count.
  eapply returns_bind.
  { apply (division_loop_returns divisor show_steps Hg _ 0%nat).
    unfold window_count. rewrite !length_chars. lia. }
  rewrite take_0, drop_0, app_nil_l.
  set (work := sweep_chars _ _ _).
  assert (length work = String.length dividend) as Hw.
  { unfold work, sweep_chars. by rewrite length_sweep, length_chars. }
  apply returns_seq; [io_prints|]. apply returns_ret_eq.
  unfold remainder_of. fold work. unfold len.
  destruct (decide (Z.of_nat (String.length divisor) > 1)),
           (decide (1 < String.length divisor)%nat); try lia; [|done].
  replace (Z.of_nat (String.length divisor) - 1) with
    (Z.of_nat (String.length divisor - 1)) by lia.
  rewrite slice_from_last by lia. by rewrite Hw.
Qed.

(** ** From characters to bits *)

Section SweepMap.
Context {A B : Type} (f : A → B).
Context (oneA : A → bool) (addA : A → A → A).
Context (oneB : B → bool) (addB : B → B → B).
Hypothesis one_f : ∀ x, oneB (f x) = oneA x.
Hypothesis add_f : ∀ x y, addB (f x) (f y) = f (addA x y).

Lemma sub_front_fmap w g :
  sub_front addB (f <$> w) (f <$> g) = f <$> sub_front addA w g.
Proof.
  revert g. induction w as [|x w IH]; intros [|y g].
  - done.
  - by rewrite fmap_nil, !sub_front_nil_l.
  - by rewrite fmap_nil, !sub_front_nil_r.
  - rewrite !fmap_cons, !sub_front_cons, fmap_cons, add_f. by rewrite IH.
Qed.

Lemma sweep_fmap g w c :
  sweep oneB addB (f <$> g) (f <$> w) c = f <$> sweep oneA addA g w c.
Proof.
  revert w. induction c as [|c IH]; intros [|x w]; try done.
  rewrite fmap_cons. cbn [sweep]. rewrite one_f, <-fmap_cons.
  destruct (oneA x).
  - rewrite sub_front_fmap. destruct (sub_front addA (x :: w) g); [done|].
    rewrite !fmap_cons. by rewrite IH.
  - rewrite !fmap_cons. by rewrite IH.
Qed.

End SweepMap.

Lemma is_one_digit b : is_one (digit b) = b.
Proof. by destruct b. Qed.

Lemma xor_char_digit a b : xor_char (digit a) (digit b) = digit (xorb a b).
Proof. by destruct a, b. Qed.

Lemma sweep_chars_digits g w c :
  sweep_chars (digits g) (digits w) c = digits (sweep_bits g w c).
Proof.
  unfold sweep_chars, sweep_bits, digits.
  apply (sweep_fmap digit id xorb); [apply is_one_digit|apply xor_char_digit].
Qed.

Lemma is_bit_spec c : is_bit c = true ↔ c = "0"%char ∨ c = "1"%char.
Proof.
  unfold is_bit, char_in. rewrite bool_decide_eq_true.
  change (chars "01") with ["0"%char; "1"%char].
  rewrite !elem_of_cons, elem_of_nil. tauto.
Qed.

Lemma is_bit_digit c : is_bit c = true → digit (is_one c) = c.
Proof. by intros [-> | ->]%is_bit_spec. Qed.

Lemma is_bitstring_spec s :
  is_bitstring s = true ↔ s ≠ "" ∧ ∀ c, c ∈ chars s → c = "0"%char ∨ c = "1"%char.
Proof.
  unfold is_bitstring, all_chars.
  rewrite andb_true_iff, negb_true_iff, bool_decide_eq_false, forallb_forall.
  apply and_iff_compat_l. split; intros H c Hc.
  - by apply is_bit_spec, H, list_elem_of_In.
  - by apply is_bit_spec, H, list_elem_of_In.
Qed.

Lemma digits_bits s : is_bitstring s = true → digits (bits s) = chars s.
Proof.
  unfold is_bitstring, all_chars. rewrite andb_true_iff, forallb_forall.
  intros [_ H]. unfold digits, bits. rewrite <-list_fmap_compose.
  rewrite <-(list_fmap_id (chars s)) at 2. apply list_fmap_ext.
  intros i c Hc. simpl. apply is_bit_digit, H.
  apply list_elem_of_In. by eapply list_elem_of_lookup_2.
Qed.

Lemma bits_join_digits l : bits (join (digits l)) = l.
Proof.
  unfold bits, digits. rewrite chars_join, <-list_fmap_compose.
  rewrite <-(list_fmap_id l) at 2. apply list_fmap_ext.
  intros i b _. apply is_one_digit.
Qed.

Lemma length_bits s : length (bits s) = String.length s.
Proof. unfold bits. by rewrite length_fmap, length_chars. Qed.

Lemma is_bitstring_join_digits l :
  l ≠ [] → is_bitstring (join (digits l)) = true.
Proof.
  intros Hl. apply is_bitstring_spec. split.
  - intros E. apply chars_nil in E. rewrite chars_join in E.
    destruct l; [done|discriminate].
  - intros c. rewrite chars_join. unfold digits.
    intros (b & -> & _)%list_elem_of_fmap. destruct b; auto.
Qed.

(** ** Algebra of the division on bit vectors *)

Lemma xorl_nil_r a : xorl a [] = [].
Proof. by destruct a. Qed.

Lemma length_xorl a b : length a = length b → length (xorl a b) = length a.
Proof. intros H. unfold xorl. rewrite length_zip_with. lia. Qed.

Lemma xorl_zeros_r a : xorl a (zeros (length a)) = a.
Proof.
  induction a as [|x a IH]; [done|].
  destruct x; cbn [length]; unfold zeros, xorl in *; cbn [replicate zip_with xorb];
    f_equal; apply IH.
Qed.

Lemma xorl_zeros_l a : xorl (zeros (length a)) a = a.
Proof.
  induction a as [|x a IH]; [done|].
  destruct x; cbn [length]; unfold zeros, xorl in *; cbn [replicate zip_with xorb];
    f_equal; apply IH.
Qed.

Lemma xorl_diag a : xorl a a = zeros (length a).
Proof.
  induction a as [|x a IH]; [done|].
  destruct x; cbn [length]; unfold zeros, xorl in *; cbn [replicate zip_with xorb];
    f_equal; apply IH.
Qed.

Lemma xorl_app a a' b b' :
  length a = length a' → xorl (a ++ b) (a' ++ b') = xorl a a' ++ xorl b b'.
Proof. intros. unfold xorl. by apply zip_with_app. Qed.

Lemma zeros_app p q : zeros (p + q) = zeros p ++ zeros q.
Proof. unfold zeros. by rewrite replicate_add. Qed.

Lemma length_zeros k : length (zeros k) = k.
Proof. apply length_replicate. Qed.

Lemma sub_front_xorl_l a b gt :
  sub_front xorb (xorl a b) gt = xorl (sub_front xorb a gt) b.
Proof.
  revert b gt. induction a as [|x a IH]; intros [|y b] [|z gt];
    rewrite ?sub_front_nil_r, ?sub_front_nil_l, ?xorl_nil_r, ?sub_front_nil_l;
    try done.
  cbn [xorl zip_with]. rewrite !sub_front_cons. cbn [xorl zip_with].
  f_equal; [by destruct x, y, z|apply IH].
Qed.

Lemma sub_front_xorl_r a b gt :
  sub_front xorb (xorl a b) gt = xorl a (sub_front xorb b gt).
Proof.
  revert b gt. induction a as [|x a IH]; intros [|y b] [|z gt];
    rewrite ?sub_front_nil_r, ?sub_front_nil_l, ?xorl_nil_r, ?sub_front_nil_l;
    try done.
  cbn [xorl zip_with]. rewrite !sub_front_cons. cbn [xorl zip_with].
  f_equal; [by destruct x, y, z|apply IH].
Qed.

Lemma xorl_sub_front_both a b gt :
  xorl (sub_front xorb a gt) (sub_front xorb b gt) = xorl a b.
Proof.
  revert b gt. induction a as [|x a IH]; intros [|y b] [|z gt];
    rewrite ?sub_front_nil_r, ?sub_front_nil_l, ?xorl_nil_r;
    try done.
  rewrite !sub_front_cons. cbn [xorl zip_with].
  f_equal; [by destruct x, y, z|apply IH].
Qed.

Section Generator.
(** The generator is [true :: gt]: its leading bit is 1. *)
Variable gt : list bool.
Local Abbreviation g := (true :: gt).

Lemma sweep_bits_true w c :
  sweep_bits g (true :: w) (S c) = false :: sweep_bits g (sub_front xorb w gt) c.
Proof. reflexivity. Qed.

Lemma sweep_bits_false w c :
  sweep_bits g (false :: w) (S c) = false :: sweep_bits g w c.
Proof. reflexivity. Qed.

Lemma length_sweep_bits w c : length (sweep_bits g w c) = length w.
Proof. apply length_sweep. Qed.

(** The division is linear. *)
Lemma sweep_bits_xorl a b c :
  sweep_bits g (xorl a b) c = xorl (sweep_bits g a c) (sweep_bits g b c).
Proof.
  revert a b. induction c as [|c IH]; intros a b.
  { unfold sweep_bits. by rewrite !sweep_0. }
  destruct a as [|x a]; [done|].
  destruct b as [|y b].
  { unfold sweep_bits at 3. by rewrite sweep_nil, !xorl_nil_r. }
  destruct x, y; cbn [xorl zip_with xorb];
    rewrite ?sweep_bits_true, ?sweep_bits_false; cbn [xorl zip_with xorb];
    f_equal; fold (xorl a b); rewrite <-IH; f_equal.
  - by rewrite xorl_sub_front_both.
  - by rewrite sub_front_xorl_l.
  - by rewrite sub_front_xorl_r.
Qed.

(** Leading zeros are skipped. *)
Lemma sweep_bits_zeros_app p w c :
  sweep_bits g (zeros p ++ w) (p + c) = zeros p ++ sweep_bits g w c.
Proof.
  induction p as [|p IH]; [done|].
  cbn [zeros replicate app Nat.add]. fold (zeros p).
  by rewrite sweep_bits_false, IH.
Qed.

Lemma sweep_bits_zeros_fixed c w :
  sweep_bits g (zeros c ++ w) c = zeros c ++ w.
Proof.
  rewrite <-(Nat.add_0_r c) at 2. rewrite sweep_bits_zeros_app.
  unfold sweep_bits. by rewrite sweep_0.
Qed.

(** After [c] steps, the first [c] bits are zero. *)
Lemma sweep_bits_leading w c :
  (c ≤ length w)%nat →
  sweep_bits g w c = zeros c ++ drop c (sweep_bits g w c).
Proof.
  revert w. induction c as [|c IH]; intros w Hc; [done|].
  destruct w as [|[] w]; simpl in Hc; [lia|..].
  - rewrite sweep_bits_true. cbn [zeros replicate app drop]. f_equal.
    apply IH. rewrite length_sub_front. lia.
  - rewrite sweep_bits_false. cbn [zeros replicate app drop]. f_equal.
    apply IH. lia.
Qed.

(** The frame made of the data and the remainder of the augmented data
    divides exactly. *)
Lemma sweep_bits_frame d :
  let m := length d in
  let r := drop m (sweep_bits g (d ++ zeros (length gt)) m) in
  length r = length gt ∧
  sweep_bits g (d ++ r) m = zeros (m + length gt).
Proof.
  intros m r. set (aug := d ++ zeros (length gt)).
  assert (length aug = (m + length gt)%nat) as Haug.
  { unfold aug. by rewrite length_app, length_zeros. }
  assert (sweep_bits g aug m = zeros m ++ r) as Hs.
  { apply sweep_bits_leading. lia. }
  assert (length r = length gt) as Hr.
  { unfold r. rewrite length_drop, length_sweep_bits.
    rewrite length_app, length_zeros. lia. }
  split; [done|].
  assert (d ++ r = xorl aug (sweep_bits g aug m)) as ->.
  { rewrite Hs. unfold aug. rewrite xorl_app by (by rewrite length_zeros).
    fold m. rewrite xorl_zeros_r. rewrite <-Hr. by rewrite xorl_zeros_l. }
  rewrite sweep_bits_xorl, Hs, sweep_bits_zeros_fixed, xorl_diag.
  by rewrite length_app, length_zeros, Hr.
Qed.

End Generator.

(** ** The validator, the sender and the receiver on well-formed inputs *)

Lemma any_char_not_bit s :
  any_char (λ c, negb (char_in c "01")) s = negb (all_chars is_bit s).
Proof.
  unfold any_char, all_chars, is_bit.
  induction (chars s) as [|c l IH]; simpl; [done|].
  rewrite IH. by destruct (char_in c "01").
Qed.

Lemma validate_binary_str_run s name out :
  run (validate_binary_str s name) out =
  (if is_bitstring s then Ok s
   else if decide (s = "") then Raise (ValueError (name +:+ " cannot be empty."))
   else Raise (ValueError (name +:+ " must contain only '0' and '1' characters.")),
   out).
Proof.
  unfold validate_binary_str, is_bitstring. rewrite any_char_not_bit.
  destruct (decide (s = "")) as [->|Hs]; [done|].
  rewrite bool_decide_eq_false_2 by done. simpl.
  by destruct (all_chars is_bit s).
Qed.

Lemma validate_binary_str_returns s name :
  is_bitstring s = true → returns (validate_binary_str s name) s.
Proof.
  intros H out. exists out. by rewrite validate_binary_str_run, H.
Qed.

Lemma is_bitstring_nonempty s : is_bitstring s = true → s ≠ "".
Proof. by intros [? _]%is_bitstring_spec. Qed.

Lemma leading_lookup s c : leading s = Some c → chars s !! 0%nat = Some c.
Proof. unfold leading. by destruct (chars s). Qed.

Section WellFormed.
Variable generator_bits : string.
Hypothesis generator_valid : is_bitstring generator_bits = true.
Hypothesis generator_leading : leading generator_bits = Some "1"%char.

Lemma generator_check_returns {B} (k : io B) b :
  returns k b →
  returns (validate_binary_str generator_bits "Generator bits";;
           g0 ← getitem (chars generator_bits) 0;
           (if decide (g0 ≠ "1"%char) then mthrow generator_error else mret tt);;
           k) b.
Proof.
  intros Hk. eapply returns_bind; [by apply validate_binary_str_returns|].
  eapply returns_bind;
    [apply (returns_getitem _ 0), leading_lookup, generator_leading|].
  rewrite decide_False by (by intros []).
  eapply returns_bind; [apply returns_ret|done].
Qed.

Lemma compute_crc_sender_returns data_bits show_steps :
  is_bitstring data_bits = true →
  returns (compute_crc_sender data_bits generator_bits show_steps)
          (crc_of data_bits generator_bits, frame_of data_bits generator_bits).
Proof.
  intros Hd. unfold compute_crc_sender.
  eapply returns_bind; [by apply validate_binary_str_returns|].
  apply generator_check_returns. cbv zeta.
  apply returns_seq; [io_prints|].
  eapply returns_bind.
  { apply long_division_show_returns. by apply is_bitstring_nonempty. }
  apply returns_seq; [io_prints|]. apply returns_ret.
Qed.

Lemma check_crc_receiver_returns received_bits show_steps :
  is_bitstring received_bits = true →
  returns (check_crc_receiver received_bits generator_bits show_steps)
          (all_zero (remainder_of received_bits generator_bits),
           remainder_of received_bits generator_bits).
Proof.
  intros Hd. unfold check_crc_receiver.
  eapply returns_bind; [by apply validate_binary_str_returns|].
  apply generator_check_returns. cbv zeta.
  apply returns_seq; [io_prints|].
  eapply returns_bind.
  { apply long_division_show_returns. by apply is_bitstring_nonempty. }
  apply returns_seq; [io_prints|]. apply returns_ret.
Qed.

End WellFormed.

(** ** The protocol on bit vectors *)

Lemma bits_app s1 s2 : bits (s1 +:+ s2) = bits s1 ++ bits s2.
Proof. unfold bits. by rewrite chars_app, fmap_app. Qed.

Lemma digits_app a b : digits (a ++ b) = digits a ++ digits b.
Proof. unfold digits. by rewrite fmap_app. Qed.

Lemma digits_zeros k : digits (zeros k) = replicate k "0"%char.
Proof. unfold digits, zeros. by rewrite fmap_replicate. Qed.

Lemma is_bitstring_digits s l : l ≠ [] → chars s = digits l → is_bitstring s = true.
Proof.
  intros Hl Hs. rewrite <-(join_chars s), Hs. by apply is_bitstring_join_digits.
Qed.

Lemma bits_generator gen :
  is_bitstring gen = true → leading gen = Some "1"%char →
  ∃ gt, bits gen = true :: gt ∧ String.length gen = S (length gt).
Proof.
  intros _ Hl. unfold leading in Hl. unfold bits.
  rewrite <-length_chars. destruct (chars gen) as [|c rest]; simplify_eq/=.
  exists (is_one <$> rest). by rewrite length_fmap.
Qed.

Lemma all_zero_digits_zeros k : all_zero (join (digits (zeros k))) = true.
Proof.
  unfold all_zero, all_chars. rewrite chars_join, digits_zeros.
  by induction k.
Qed.

Lemma all_zero_false l : true ∈ l → all_zero (join (digits l)) = false.
Proof.
  unfold all_zero, all_chars. rewrite chars_join.
  induction l as [|b l IH]; [by intros ?%elem_of_nil|].
  intros [<-|H]%elem_of_cons; [done|].
  simpl. rewrite IH by done. apply andb_false_r.
Qed.

Section Protocol.
Variable generator_bits : string.
Variable gt : list bool.
Hypothesis generator_valid : is_bitstring generator_bits = true.
Hypothesis generator_bits_eq : bits generator_bits = true :: gt.

Lemma generator_length : String.length generator_bits = S (length gt).
Proof. by rewrite <-length_bits, generator_bits_eq. Qed.

Lemma generator_chars : chars generator_bits = digits (true :: gt).
Proof. by rewrite <-generator_bits_eq, digits_bits. Qed.

(** Degenerate generator: the remainder is the single bit 0. *)
Lemma remainder_of_degree_0 dividend :
  gt = [] → remainder_of dividend generator_bits = "0".
Proof.
  intros Hgt. unfold remainder_of. rewrite generator_length, Hgt.
  by rewrite decide_False by (simpl; lia).
Qed.

Lemma remainder_of_bits dividend :
  gt ≠ [] → is_bitstring dividend = true →
  remainder_of dividend generator_bits
  = join (digits (drop (String.length dividend - length gt)
                       (sweep_bits (true :: gt) (bits dividend)
                                   (String.length dividend - length gt)))).
Proof.
  intros Hgt Hd. unfold remainder_of, window_count.
  rewrite generator_length.
  rewrite decide_True by (destruct gt; simpl; [done|lia]).
  rewrite generator_chars, <-(digits_bits dividend), sweep_chars_digits by done.
  unfold digits at 1. rewrite <-fmap_drop. fold (digits).
  replace (String.length dividend - (S (length gt) - 1))%nat
    with (String.length dividend - length gt)%nat by lia.
  by replace (String.length dividend + 1 - S (length gt))%nat
    with (String.length dividend - length gt)%nat by lia.
Qed.

Lemma augmented_of_bits data_bits :
  bits (augmented_of data_bits generator_bits) = bits data_bits ++ zeros (length gt).
Proof.
  unfold augmented_of. rewrite bits_app. f_equal.
  unfold len. rewrite generator_length.
  replace (Z.of_nat (S (length gt)) - 1) with (Z.of_nat (length gt)) by lia.
  unfold bits. rewrite (chars_str_mul "0"%char). unfold zeros.
  by rewrite fmap_replicate.
Qed.

Lemma augmented_of_length data_bits :
  String.length (augmented_of data_bits generator_bits)
  = (String.length data_bits + length gt)%nat.
Proof.
  by rewrite <-!length_bits, augmented_of_bits, length_app, length_zeros.
Qed.

Lemma augmented_of_valid data_bits :
  is_bitstring data_bits = true →
  is_bitstring (augmented_of data_bits generator_bits) = true.
Proof.
  intros Hd. apply (is_bitstring_digits _ (bits data_bits ++ zeros (length gt))).
  - apply is_bitstring_nonempty in Hd. unfold bits.
    destruct data_bits; [done|]. discriminate.
  - unfold augmented_of. rewrite chars_app, digits_app, digits_bits by done.
    f_equal. unfold len. rewrite generator_length.
    replace (Z.of_nat (S (length gt)) - 1) with (Z.of_nat (length gt)) by lia.
    by rewrite (chars_str_mul "0"%char), digits_zeros.
Qed.

Lemma crc_of_bits data_bits :
  gt ≠ [] → is_bitstring data_bits = true →
  crc_of data_bits generator_bits = join (digits (crc_bits gt (bits data_bits))).
Proof.
  intros Hgt Hd. unfold crc_of.
  rewrite remainder_of_bits by (done || by apply augmented_of_valid).
  rewrite augmented_of_length, augmented_of_bits. unfold crc_bits.
  rewrite length_bits.
  by replace (String.length data_bits + length gt - length gt)%nat
    with (String.length data_bits) by lia.
Qed.

Lemma length_crc_bits d : length (crc_bits gt d) = length gt.
Proof. apply (sweep_bits_frame gt d). Qed.

Lemma frame_of_chars data_bits :
  gt ≠ [] → is_bitstring data_bits = true →
  chars (frame_of data_bits generator_bits)
  = digits (bits data_bits ++ crc_bits gt (bits data_bits)).
Proof.
  intros Hgt Hd. unfold frame_of.
  by rewrite chars_app, crc_of_bits, chars_join, digits_app, digits_bits.
Qed.

Lemma frame_of_bits data_bits :
  gt ≠ [] → is_bitstring data_bits = true →
  bits (frame_of data_bits generator_bits)
  = bits data_bits ++ crc_bits gt (bits data_bits).
Proof.
  intros Hgt Hd. rewrite <-(join_chars (frame_of _ _)), frame_of_chars by done.
  apply bits_join_digits.
Qed.

Lemma frame_of_valid data_bits :
  is_bitstring data_bits = true →
  is_bitstring (frame_of data_bits generator_bits) = true.
Proof.
  intros Hd. destruct (decide (gt = [])) as [Hgt|Hgt].
  - unfold frame_of, crc_of. rewrite remainder_of_degree_0 by done.
    apply (is_bitstring_digits _ (bits data_bits ++ [false])).
    + by destruct (bits data_bits).
    + by rewrite chars_app, digits_app, digits_bits.
  - eapply is_bitstring_digits; [|by apply frame_of_chars].
    apply is_bitstring_nonempty in Hd. unfold bits.
    destruct data_bits; [done|]. discriminate.
Qed.

Lemma frame_of_length data_bits :
  gt ≠ [] → is_bitstring data_bits = true →
  String.length (frame_of data_bits generator_bits)
  = (String.length data_bits + length gt)%nat.
Proof.
  intros Hgt Hd.
  by rewrite <-length_bits, frame_of_bits, length_app, length_crc_bits, length_bits.
Qed.

(** Dividing the transmitted frame leaves the zero remainder. *)
Lemma remainder_of_frame data_bits :
  gt ≠ [] → is_bitstring data_bits = true →
  remainder_of (frame_of data_bits generator_bits) generator_bits
  = join (digits (zeros (length gt))).
Proof.
  intros Hgt Hd.
  rewrite remainder_of_bits by (done || by apply frame_of_valid).
  rewrite frame_of_length, frame_of_bits by done.
  replace (String.length data_bits + length gt - length gt)%nat
    with (length (bits data_bits)) by (rewrite length_bits; lia).
  unfold crc_bits.
  destruct (sweep_bits_frame gt (bits data_bits)) as [_ ->].
  rewrite zeros_app, drop_app_length'; [done|by rewrite length_zeros].
Qed.

End Protocol.

(** ** Tracing does not change the computed values *)

Lemma same_value_seq {B} (m1 m2 : io unit) (k1 k2 : io B) :
  returns m1 tt → returns m2 tt → same_value k1 k2 → same_value (m1;; k1) (m2;; k2).
Proof.
  intros H1 H2 Hk. apply same_value_bind; [by apply same_value_unit|].
  by intros [].
Qed.

Lemma same_value_refl_getitem {A} (l : list A) i :
  same_value (getitem l i) (getitem l i).
Proof. intros o1 o2. unfold getitem, run. by destruct (_ ≫= _). Qed.

Lemma division_step_same_value divisor b1 b2 i work :
  same_value (division_step divisor b1 i work) (division_step divisor b2 i work).
Proof.
  unfold division_step. cbv zeta.
  apply same_value_seq; [io_prints..|].
  apply same_value_bind; [apply same_value_refl_getitem|]. intros w0.
  case_decide; (apply same_value_seq; [io_prints..|done]).
Qed.

Lemma long_division_show_same_value dividend divisor b1 b2 :
  same_value (long_division_show dividend divisor b1)
             (long_division_show dividend divisor b2).
Proof.
  unfold long_division_show. cbv zeta.
  apply same_value_seq; [io_prints..|].
  apply same_value_bind.
  { apply same_value_for_each. intros. apply division_step_same_value. }
  intros work. apply same_value_seq; [io_prints..|done].
Qed.

(** ** Lengths *)

Lemma len_app s1 s2 : len (s1 +:+ s2) = len s1 + len s2.
Proof. rewrite !len_chars, chars_app, length_app. lia. Qed.

Lemma all_zero_spec s :
  all_zero s = true ↔ ∀ c, c ∈ chars s → c = "0"%char.
Proof.
  unfold all_zero, all_chars. rewrite forallb_forall. split; intros H c Hc.
  - eapply bool_decide_eq_true_1, H. by apply list_elem_of_In.
  - apply bool_decide_eq_true_2, H. by apply list_elem_of_In.
Qed.

Lemma leading_not_one_nonempty generator :
  is_bitstring generator = true → leading generator ≠ Some "1"%char →
  ∃ g0, chars generator !! 0%nat = Some g0 ∧ g0 ≠ "1"%char.
Proof.
  intros Hv%is_bitstring_nonempty Hl. unfold leading in Hl.
  destruct generator as [|c rest]; [done|]. exists c. split; [done|].
  intros ->. by apply Hl.
Qed.

(** ** Single-bit errors *)

Lemma lookup_sub_front w gt j :
  sub_front xorb w gt !! j
  = match w !! j, gt !! j with
    | Some x, Some y => Some (xorb x y)
    | Some x, None => Some x
    | None, _ => None
    end.
Proof.
  revert gt j. induction w as [|x w IH]; intros [|y gt] j;
    rewrite ?sub_front_nil_l, ?sub_front_nil_r; try done.
  - by destruct ((x :: w) !! j).
  - rewrite sub_front_cons. destruct j as [|j]; [done|]. simpl. apply IH.
Qed.

Lemma last_one_decomposition (l : list bool) :
  true ∈ l → ∃ pre z, l = pre ++ true :: zeros z.
Proof.
  induction l as [|b l IH]; [by intros ?%elem_of_nil|].
  intros Hin. destruct (decide (true ∈ l)) as [Hl|Hl].
  - destruct (IH Hl) as (pre & z & ->). by exists (b :: pre), z.
  - apply elem_of_cons in Hin as [<-|?]; [|done].
    exists [], (length l). simpl. f_equal.
    clear IH. induction l as [|[] l IH]; [done|..].
    + destruct Hl. apply elem_of_cons. by left.
    + cbn [length zeros replicate]. f_equal. apply IH.
      intros ?. apply Hl. apply elem_of_cons. by right.
Qed.

Lemma lookup_zeros k j b : zeros k !! j = Some b → b = false.
Proof. unfold zeros. by intros [-> _]%lookup_replicate. Qed.

Lemma elem_of_zeros k : true ∉ zeros k.
Proof. unfold zeros. by intros [? _]%elem_of_replicate. Qed.

Section LastOne.
(** The generator is [true :: pre ++ true :: zeros z]: besides the leading
    bit, its last 1 is at position [S (length pre)]. *)
Variables (pre : list bool) (z : nat).
Local Abbreviation gt := (pre ++ true :: zeros z).
Local Abbreviation g := (true :: gt).

Lemma lookup_gt_last : gt !! length pre = Some true.
Proof. by rewrite lookup_app_r, Nat.sub_diag by lia. Qed.

Lemma lookup_gt_after j b : (length pre < j)%nat → gt !! j = Some b → b = false.
Proof.
  intros Hj. rewrite lookup_app_r by lia.
  destruct (j - length pre)%nat as [|i] eqn:E; [lia|]. simpl.
  apply lookup_zeros.
Qed.

Lemma lookup_sub_front_last w x :
  w !! length pre = Some x →
  sub_front xorb w gt !! length pre = Some (negb x).
Proof.
  intros Hx. rewrite lookup_sub_front, Hx, lookup_gt_last. by destruct x.
Qed.

Lemma lookup_sub_front_after w j :
  (length pre < j)%nat → sub_front xorb w gt !! j = w !! j.
Proof.
  intros Hj. rewrite lookup_sub_front.
  destruct (w !! j) as [x|]; [|done].
  destruct (gt !! j) as [b|] eqn:E; [|done].
  apply lookup_gt_after in E as ->; [|done]. by destruct x.
Qed.

(** A division either leaves the buffer as it is or changes it at or after
    the position of the generator's last 1. *)
Lemma sweep_bits_changes_late c v :
  (c + length gt ≤ length v)%nat →
  sweep_bits g v c = v
  ∨ ∃ j, (length pre < j)%nat ∧ sweep_bits g v c !! j ≠ v !! j.
Proof.
  revert v. induction c as [|c IH]; intros v Hfit.
  { left. unfold sweep_bits. by rewrite sweep_0. }
  destruct v as [|x w]; [by left; destruct c|].
  assert (length gt = S (length pre + z)) as Hgt.
  { rewrite length_app. simpl. rewrite length_zeros. lia. }
  simpl in Hfit. destruct x.
  - rewrite sweep_bits_true.
    destruct (IH (sub_front xorb w gt)) as [E|(j & Hj & Hne)].
    { rewrite length_sub_front. lia. }
    + right. exists (S (length pre)). split; [lia|]. rewrite E. simpl.
      destruct (lookup_lt_is_Some_2 w (length pre)) as [x Hx]; [lia|].
      rewrite (lookup_sub_front_last w x), Hx by done. by destruct x.
    + right. exists (S j). split; [lia|]. simpl.
      by rewrite <-(lookup_sub_front_after w j).
  - rewrite sweep_bits_false.
    destruct (IH w) as [E|(j & Hj & Hne)]; [lia|..].
    + left. by rewrite E.
    + right. exists (S j). split; [lia|done].
Qed.

(** Dividing a vector with a single 1 never gives the zero vector. *)
Lemma sweep_bits_unit_vector p m :
  (p < m + length gt)%nat →
  true ∈ sweep_bits g (unit_vector p (m + length gt)) m.
Proof.
  intros Hp. unfold unit_vector.
  assert (length gt = S (length pre + z)) as Hgt.
  { rewrite length_app. simpl. rewrite length_zeros. lia. }
  destruct (decide (m ≤ p)%nat) as [Hmp|Hmp].
  - replace p with (m + (p - m))%nat at 1 by lia.
    rewrite zeros_app, <-(assoc_L (++)), sweep_bits_zeros_fixed.
    rewrite !elem_of_app, elem_of_cons. auto.
  - replace m with (p + S (m - p - 1))%nat at 2 by lia.
    rewrite sweep_bits_zeros_app, sweep_bits_true.
    apply elem_of_app. right. apply elem_of_cons. right.
    set (q := (m + length gt - p - 1)%nat). set (c := (m - p - 1)%nat).
    set (v := sub_front xorb (zeros q) gt).
    assert (length v = q) as Hv by (unfold v; by rewrite length_sub_front, length_zeros).
    assert (c + length gt ≤ length v)%nat as Hfit by (unfold c, q in *; lia).
    assert (v !! length pre = Some true) as Hlast.
    { unfold v. apply (lookup_sub_front_last (zeros q) false).
      unfold zeros. apply lookup_replicate. split; [done|unfold q; lia]. }
    assert (∀ j b, (length pre < j)%nat → v !! j = Some b → b = false) as Hafter.
    { intros j b Hj. unfold v. rewrite lookup_sub_front_after by done.
      apply lookup_zeros. }
    destruct (sweep_bits_changes_late c v Hfit) as [E|(j & Hj & Hne)].
    + rewrite E. by eapply list_elem_of_lookup_2.
    + destruct (sweep_bits g v c !! j) as [b|] eqn:Eb.
      * destruct b; [by eapply list_elem_of_lookup_2|].
        apply lookup_lt_Some in Eb as Hlt. rewrite length_sweep_bits in Hlt.
        destruct (lookup_lt_is_Some_2 v j Hlt) as [b Hb].
        rewrite Hb in Hne. apply Hafter in Hb as ->; done.
      * apply lookup_ge_None in Eb. rewrite length_sweep_bits in Eb.
        apply lookup_ge_None in Eb. by rewrite Eb in Hne.
Qed.

End LastOne.

(** ** The error simulation *)

Lemma returns_eval {A} (o : outcome A) a : o = Ok a → returns (eval o) a.
Proof. intros -> out. by exists out. Qed.

Lemma returns_try_except {A} (body handler : io A) a :
  returns body a → returns (try_except body handler) a.
Proof.
  intros H out. destruct (H out) as [out' E]. exists out'.
  unfold try_except, run in *. by rewrite E.
Qed.

Lemma insert_toggle_alter (l : list ascii) i c :
  l !! i = Some c → <[i:=toggle c]> l = alter toggle i l.
Proof.
  intros Hc. apply list_eq. intros j.
  destruct (decide (i = j)) as [<-|Hne].
  - rewrite list_lookup_alter_eq, Hc.
    apply list_lookup_insert_eq. by eapply lookup_lt_Some.
  - by rewrite list_lookup_insert_ne, list_lookup_alter_ne.
Qed.

Section ErrorSimulationFacts.
Variable int : string → outcome Z.

Lemma flip_one_bit_returns transmitted pos (i : nat) :
  int pos = Ok (Z.of_nat i) → (i < String.length transmitted)%nat →
  returns (flip_one_bit int transmitted pos) (flip_at transmitted i).
Proof.
  intros Hp Hi. unfold flip_one_bit. cbv zeta. apply returns_try_except.
  eapply returns_bind; [by apply returns_eval|].
  rewrite bool_decide_eq_true_2 by (unfold len; lia).
  apply returns_seq; [apply returns_ret|].
  destruct (lookup_lt_is_Some_2 (chars transmitted) i) as [c Hc];
    [by rewrite length_chars|].
  eapply returns_bind; [by apply returns_getitem|]. cbv zeta.
  apply returns_seq; [io_prints|]. apply returns_ret_eq.
  apply chars_inj. unfold flip_at.
  rewrite !chars_app, !chars_join.
  replace (Z.of_nat i + 1) with (Z.of_nat (S i)) by lia.
  rewrite slice_to_of_nat, slice_from_of_nat by (rewrite length_chars; lia).
  rewrite <-(insert_toggle_alter _ _ c) by done.
  rewrite insert_take_drop by (rewrite length_chars; lia). done.
Qed.

Lemma flip_bits_step_returns transmitted pos p changed :
  int pos = Ok p → length changed = String.length transmitted →
  returns (flip_bits_step int transmitted pos changed)
          (if decide (0 ≤ p < len transmitted)
           then alter toggle (Z.to_nat p) changed else changed).
Proof.
  intros Hp Hlen. unfold flip_bits_step. apply returns_try_except.
  eapply returns_bind; [by apply returns_eval|].
  case_decide as Hr.
  - rewrite bool_decide_eq_true_2 by done. unfold len in Hr.
    destruct (Z_of_nat_complete p) as [i ->]; [lia|]. rewrite Nat2Z.id.
    destruct (lookup_lt_is_Some_2 changed i) as [c Hc]; [lia|].
    eapply returns_bind; [by apply returns_getitem|].
    intros out. exists out. rewrite setitem_lookup by lia.
    by rewrite insert_toggle_alter.
  - rewrite bool_decide_eq_false_2 by done. apply returns_ret.
Qed.

Lemma flip_bits_loop_returns transmitted pos_list offsets changed :
  Forall2 (λ s z, int s = Ok z) pos_list offsets → NoDup offsets →
  length changed = String.length transmitted →
  ∃ changed',
    returns (for_each pos_list (flip_bits_step int transmitted) changed) changed'
    ∧ length changed' = length changed
    ∧ ∀ j : nat,
        changed' !! j
        = (if decide (Z.of_nat j ∈ offsets) then toggle else id) <$> changed !! j.
Proof.
  intros Hparse. revert changed.
  induction Hparse as [|s z ss zs Hs Hss IH]; intros changed Hnd Hlen.
  - exists changed. split; [apply returns_ret|]. split; [done|].
    intros j. rewrite decide_False by apply not_elem_of_nil.
    by destruct (changed !! j).
  - apply NoDup_cons in Hnd as [Hz Hnd].
    set (changed1 := if decide (0 ≤ z < len transmitted)
                     then alter toggle (Z.to_nat z) changed else changed).
    assert (length changed1 = length changed) as Hlen1.
    { unfold changed1. case_decide; [apply length_alter|done]. }
    destruct (IH changed1 Hnd) as (changed' & Hret & Hlen' & Hlook); [congruence|].
    exists changed'. split; [|split; [congruence|]].
    { cbn [for_each]. eapply returns_bind; [|exact Hret].
      by apply flip_bits_step_returns. }
    intros j. rewrite Hlook.
    destruct (decide (Z.of_nat j = z)) as [<-|Hne].
    + rewrite decide_False by done.
      rewrite decide_True by (apply elem_of_cons; by left).
      unfold changed1, len. rewrite Nat2Z.id. case_decide as Hr.
      * rewrite list_lookup_alter_eq. by destruct (changed !! j).
      * rewrite lookup_ge_None_2 by lia. done.
    + assert (changed1 !! j = changed !! j) as ->.
      { unfold changed1. case_decide; [|done].
        apply list_lookup_alter_ne. lia. }
      destruct (decide (Z.of_nat j ∈ zs)) as [Hin|Hin].
      * by rewrite decide_True by (apply elem_of_cons; by right).
      * rewrite decide_False; [done|].
        intros [?|?]%elem_of_cons; done.
Qed.

End ErrorSimulationFacts.

Lemma alter_negb_xorl b i :
  (i < length b)%nat → alter negb i b = xorl b (unit_vector i (length b)).
Proof.
  revert i. induction b as [|x b IH]; intros i Hi; simpl in Hi; [lia|].
  destruct i as [|i].
  - unfold unit_vector. cbn [zeros replicate app length alter list_alter].
    replace (S (length b) - 0 - 1)%nat with (length b) by lia.
    cbn [xorl zip_with]. fold (xorl b (zeros (length b))).
    rewrite xorl_zeros_r. by destruct x.
  - cbn [alter list_alter]. fold (alter negb i b). rewrite IH by lia.
    unfold unit_vector. cbn [zeros replicate app length xorl zip_with].
    by destruct x.
Qed.

Lemma toggle_digit b : toggle (digit b) = digit (negb b).
Proof. by destruct b. Qed.

Lemma flip_at_chars s i :
  is_bitstring s = true → (i < String.length s)%nat →
  chars (flip_at s i) = digits (xorl (bits s) (unit_vector i (String.length s))).
Proof.
  intros Hs Hi. unfold flip_at. rewrite chars_join.
  rewrite <-(digits_bits s) at 1 by done.
  rewrite <-(length_bits s), <-alter_negb_xorl by (by rewrite length_bits).
  unfold digits. symmetry. apply list_fmap_alter.
  apply Forall_forall. intros b _. by rewrite toggle_digit.
Qed.

Lemma ones_generator gen gt :
  bits gen = true :: gt → (2 ≤ ones gen)%nat → true ∈ gt.
Proof.
  unfold bits, ones. destruct (chars gen) as [|c rest]; [done|].
  rewrite fmap_cons. intros [= Hc <-] Hones.
  apply bool_decide_eq_true in Hc as ->.
  rewrite filter_cons_True in Hones by done. simpl in Hones.
  destruct (filter _ rest) as [|c l] eqn:E; simpl in Hones; [lia|].
  assert (c ∈ filter (λ c, c = "1"%char) rest) as Hin
    by (rewrite E; apply elem_of_cons; by left).
  apply list_elem_of_filter in Hin as [-> Hin].
  apply list_elem_of_fmap. by exists "1"%char.
Qed.

Lemma length_unit_vector p size :
  (p < size)%nat → length (unit_vector p size) = size.
Proof.
  intros. unfold unit_vector. rewrite length_app. simpl.
  rewrite !length_zeros. lia.
Qed.

(** The remainder of a frame with one flipped bit has a 1. *)
Lemma remainder_of_flipped_frame data_bits generator_bits gt i :
  is_bitstring data_bits = true →
  is_bitstring generator_bits = true →
  bits generator_bits = true :: gt →
  true ∈ gt →
  (i < String.length (frame_of data_bits generator_bits))%nat →
  is_bitstring (flip_at (frame_of data_bits generator_bits) i) = true
  ∧ all_zero (remainder_of (flip_at (frame_of data_bits generator_bits) i)
                           generator_bits) = false.
Proof.
  intros Hd Hg Hgt Hin Hi.
  assert (gt ≠ []) as Hne by (intros ->; by apply elem_of_nil in Hin).
  destruct (last_one_decomposition gt Hin) as (pre & z & Hdec).
  pose proof (frame_of_valid generator_bits gt Hg Hgt data_bits Hd) as Hf.
  pose proof (frame_of_length generator_bits gt Hg Hgt data_bits Hne Hd) as Hlen.
  pose proof (frame_of_bits generator_bits gt Hg Hgt data_bits Hne Hd) as Hbits.
  set (frame := frame_of data_bits generator_bits) in *.
  set (m := String.length data_bits) in *.
  pose proof (flip_at_chars frame i Hf Hi) as Hchars.
  set (e := unit_vector i (String.length frame)) in *.
  assert (length e = (m + length gt)%nat) as He.
  { unfold e. rewrite length_unit_vector by done. done. }
  assert (length (bits frame) = (m + length gt)%nat) as Hbl
    by (by rewrite length_bits).
  assert (is_bitstring (flip_at frame i) = true) as Hvalid.
  { eapply is_bitstring_digits; [|exact Hchars].
    intros E. apply (f_equal length) in E.
    rewrite length_xorl in E by congruence. simpl in E.
    rewrite Hbl in E. destruct gt; [done|simpl in E; lia]. }
  split; [done|].
  rewrite (remainder_of_bits generator_bits gt) by done.
  assert (bits (flip_at frame i) = xorl (bits frame) e) as ->.
  { rewrite <-(join_chars (flip_at frame i)), Hchars. apply bits_join_digits. }
  assert (String.length (flip_at frame i) = (m + length gt)%nat) as ->.
  { rewrite <-length_chars, Hchars. unfold digits.
    rewrite length_fmap, length_xorl by congruence. done. }
  replace (m + length gt - length gt)%nat with m by lia.
  rewrite sweep_bits_xorl.
  assert (sweep_bits (true :: gt) (bits frame) m = zeros (m + length gt)) as ->.
  { rewrite Hbits. unfold m. rewrite <-(length_bits data_bits).
    apply (sweep_bits_frame gt (bits data_bits)). }
  set (X := sweep_bits (true :: gt) e m).
  assert (length X = (m + length gt)%nat) as HX
    by (unfold X; by rewrite length_sweep_bits).
  rewrite <-HX, xorl_zeros_l.
  apply all_zero_false.
  assert (true ∈ X) as HinX.
  { unfold X, e. rewrite Hlen, Hdec. apply sweep_bits_unit_vector.
    rewrite <-Hdec. by rewrite <-Hlen. }
  unfold X in *. rewrite sweep_bits_leading in HinX by lia.
  apply elem_of_app in HinX as [Hz|?]; [|done].
  by apply elem_of_zeros in Hz.
Qed.

(** ** The program on small inputs *)

Example sender_1101_1011 :
  run (compute_crc_sender "1101" "1011" false) [] = (Ok ("001", "1101001"), []).
Proof. reflexivity. Qed.

Example receiver_1101001_1011 :
  run (check_crc_receiver "1101001" "1011" false) [] = (Ok (true, "000"), []).
Proof. reflexivity. Qed.

Example receiver_0101001_1011 :
  run (check_crc_receiver "0101001" "1011" false) [] = (Ok (false, "101"), []).
Proof. reflexivity. Qed.

Example division_step_trace :
  run (division_step "1011" true 0 (chars "1101000")) []
  = (Ok (chars "0110000"),
     ["Step 01: position 00, window = 1101";
      " -> XOR with divisor -> 0110" +:+ newline]).
Proof. reflexivity. Qed.

Example empty_divisor_raises :
  run (long_division_show "1101" "" false) []
  = (Raise (IndexError "index out of range"), []).
Proof. reflexivity. Qed.

Example flip_bits_skips :
  run (flip_bits int_decimal "1101001" ["0"; "9"; "x"; "-1"]) []
  = (Ok "0101001", ["Received bits after flips: 0101001" +:+ newline]).
Proof. reflexivity. Qed.

Example flip_one_bit_invalid :
  run (flip_one_bit int_decimal "1101001" "7") []
  = (Ok "1101001", ["Invalid position; no flip performed." +:+ newline]).
Proof. reflexivity. Qed.

(** * Properties of the program *)

(** ** Validation *)

(** C6: [validate_binary_str] raises [ValueError] exactly when the text is
    empty or has a character other than '0' and '1'; otherwise it returns
    the text.  It prints nothing. *)
Theorem validate_binary_str_spec (s name : string) (out : stdout) :
  ((∃ msg, run (validate_binary_str s name) out = (Raise (ValueError msg), out))
   ↔ s = "" ∨ ∃ c, c ∈ chars s ∧ c ≠ "0"%char ∧ c ≠ "1"%char)
  ∧ (run (validate_binary_str s name) out = (Ok s, out)
     ↔ ¬ (s = "" ∨ ∃ c, c ∈ chars s ∧ c ≠ "0"%char ∧ c ≠ "1"%char)).
Proof.
  rewrite validate_binary_str_run.
  assert (is_bitstring s = true
          ↔ ¬ (s = "" ∨ ∃ c, c ∈ chars s ∧ c ≠ "0"%char ∧ c ≠ "1"%char)) as Hv.
  { rewrite is_bitstring_spec. split.
    - intros [Hne Hall] [E|(c & Hc & H0 & H1)]; [done|].
      destruct (Hall c Hc); done.
    - intros Hbad. split; [tauto|].
      intros c Hc. destruct (decide (c = "0"%char)); [tauto|].
      destruct (decide (c = "1"%char)); [tauto|].
      destruct Hbad. right. by exists c. }
  destruct (is_bitstring s) eqn:E.
  - split.
    + split; [by intros [? ?]|]. intros Hbad. by apply Hv in Hbad.
    + split; [intros _; by apply Hv|done].
  - assert (s = "" ∨ ∃ c, c ∈ chars s ∧ c ≠ "0"%char ∧ c ≠ "1"%char) as Hbad.
    { destruct (decide (s = "")) as [|Hne]; [tauto|]. right.
      destruct (decide (Forall (λ c, c = "0"%char ∨ c = "1"%char) (chars s)))
        as [Hall|Hnall].
      - assert (is_bitstring s = true); [|congruence].
        apply is_bitstring_spec. split; [done|]. by apply Forall_forall.
      - apply not_Forall_Exists in Hnall; [|apply _].
        apply Exists_exists in Hnall as (c & Hc & Hn). exists c.
        split; [done|]. split; intros ->; apply Hn; auto. }
    split.
    + split; [done|]. intros _. case_decide; eauto.
    + split; [|tauto]. case_decide; done.
Qed.

(** ** The divider *)

(** C8: the remainder returned by [long_division_show], or the exception it
    raises, is the same with and without the printing of the steps, whatever
    was printed before the call. *)
Theorem long_division_show_trace_irrelevant (dividend divisor : string)
    (out1 out2 : stdout) :
  (run (long_division_show dividend divisor true) out1).1
  = (run (long_division_show dividend divisor false) out2).1.
Proof. apply long_division_show_same_value. Qed.

(** C3: dividing any dividend, in particular every non-empty binary one, by
    the generator "1" returns the one-bit remainder "0". *)
Theorem long_division_show_degenerate (dividend : string) (show_steps : bool) :
  returns (long_division_show dividend "1" show_steps) "0".
Proof.
  replace "0" with (remainder_of dividend "1") at 2 by done.
  by apply long_division_show_returns.
Qed.

(** C10 as stated fails for the empty dividend and a divisor of one
    character: the value returned is "0", not the last
    [min(len(dividend), len(divisor) - 1) = 0] characters of the dividend. *)
Lemma long_division_show_empty_dividend :
  len "" < len "1"
  ∧ run (long_division_show "" "1" false) [] = (Ok "0", [])
  ∧ join (slice_from (chars "") (- Z.min (len "") (len "1" - 1))) = ""
  ∧ "0" ≠ "".
Proof. repeat split; done. Qed.

(** C10, amended: a dividend strictly shorter than the divisor goes through
    the loop without any step: the range of window positions is empty and,
    when the steps are shown, only the header and the footer are printed.
    When the divisor has at least two characters, the value returned is the
    last [min(len(dividend), len(divisor) - 1)] characters of the dividend,
    that is the whole dividend, and when the dividend has fewer than
    [len(divisor) - 1] characters, so has the remainder.  When the divisor
    has one character, the dividend is empty and the value returned is
    "0". *)
Theorem long_division_show_short_dividend (dividend divisor : string)
    (out : stdout) :
  len dividend < len divisor →
  let k := Z.min (len dividend) (len divisor - 1) in
  let remainder :=
    if decide (len divisor > 1)
    then join (slice_from (chars dividend) (- k)) else "0" in
  range (len dividend - len divisor + 1) = []
  ∧ run (long_division_show dividend divisor false) out = (Ok remainder, out)
  ∧ run (long_division_show dividend divisor true) out
    = (Ok remainder,
       out ++ [(newline +:+ "Long division steps (divisor length = "
                  +:+ str (len divisor) +:+ "):") +:+ newline;
               ("Divisor: " +:+ divisor) +:+ newline;
               str_mul "-" 60 +:+ newline;
               str_mul "-" 60 +:+ newline;
               ("Remainder (last " +:+ str (len divisor - 1) +:+ " bits): "
                  +:+ remainder +:+ newline) +:+ newline])
  ∧ (len divisor > 1 →
     remainder = dividend
     ∧ (len dividend < len divisor - 1 → len remainder < len divisor - 1))
  ∧ (len divisor = 1 → dividend = "" ∧ remainder = "0").
Proof.
  intros Hlt k remainder.
  assert (range (len dividend - len divisor + 1) = []) as Hrange.
  { unfold range, len in *. by replace (Z.to_nat _) with 0%nat by lia. }
  assert (len divisor > 1 →
          join (slice_from (chars dividend) (- k)) = dividend) as Hlast.
  { intros Hn. unfold k, len in *. rewrite Z.min_l by lia.
    destruct (decide (String.length dividend = 0)%nat) as [E|E].
    - destruct dividend; [done|discriminate].
    - rewrite slice_from_last by lia.
      by rewrite length_chars, Nat.sub_diag, drop_0, join_chars. }
  assert (len divisor > 1 → remainder = dividend) as Hrem.
  { intros Hn. subst remainder. destruct (decide (len divisor > 1)); [|done].
    by apply Hlast. }
  assert (len divisor > 1 →
          join (slice_from (chars dividend) (- (len divisor - 1))) = dividend)
    as Hwhole.
  { intros Hn. unfold len in *.
    replace (Z.of_nat (String.length divisor) - 1)
      with (Z.of_nat (String.length divisor - 1)) by lia.
    rewrite slice_from_last, length_chars by lia.
    replace (String.length dividend - (String.length divisor - 1))%nat
      with 0%nat by lia.
    by rewrite drop_0, join_chars. }
  assert ((if decide (len divisor > 1)
           then join (slice_from (chars dividend) (- (len divisor - 1)))
           else "0") = remainder) as Hcode.
  { subst remainder. destruct (decide (len divisor > 1)) as [Hn|Hn]; [|done].
    by rewrite Hwhole, Hlast. }
  split; [done|]. split; [|split; [|split]].
  - unfold long_division_show. cbv zeta. rewrite Hrange.
    unfold run, when, mbind, io_bind, mret, io_ret. cbn [for_each].
    unfold mret, io_ret. by rewrite Hcode.
  - unfold long_division_show. cbv zeta. rewrite Hrange.
    unfold run, when, mbind, io_bind, print, mret, io_ret. cbn [for_each].
    unfold mret, io_ret. rewrite Hcode, <-!(assoc_L (++)). done.
  - intros Hn. split; [by apply Hrem|]. by rewrite Hrem.
  - intros Hn. unfold remainder. rewrite decide_False by lia.
    split; [|done]. unfold len in *. destruct dividend; [done|simpl in *; lia].
Qed.

Lemma long_division_show_short_dividend_witness :
  len "10" < len "1011"
  ∧ range (len "10" - len "1011" + 1) = []
  ∧ run (long_division_show "10" "1011" false) [] = (Ok "10", []).
Proof.
  split; [done|].
  destruct (long_division_show_short_dividend "10" "1011" [])
    as (Hr & Hret & _); [done|].
  split; [exact Hr|exact Hret].
Defined.

(** ** The receiver *)

(** C7: on a well-formed frame and generator with leading bit 1, the
    receiver divides the received frame as it is, and reports [True] exactly
    when every character of the remainder is '0'. *)
Theorem check_crc_receiver_spec (received_bits generator_bits : string)
    (show_steps : bool) :
  is_bitstring received_bits = true →
  is_bitstring generator_bits = true →
  leading generator_bits = Some "1"%char →
  ∃ (ok : bool) (remainder : string),
    returns (long_division_show received_bits generator_bits show_steps) remainder
    ∧ returns (check_crc_receiver received_bits generator_bits show_steps)
              (ok, remainder)
    ∧ (ok = true ↔ ∀ c, c ∈ chars remainder → c = "0"%char).
Proof.
  intros Hr Hg Hl.
  exists (all_zero (remainder_of received_bits generator_bits)),
         (remainder_of received_bits generator_bits).
  split; [|split].
  - apply long_division_show_returns. by apply is_bitstring_nonempty.
  - by apply check_crc_receiver_returns.
  - apply all_zero_spec.
Qed.

Lemma check_crc_receiver_spec_witness :
  ∃ (ok : bool) (remainder : string),
    returns (long_division_show "0101001" "1011" false) remainder
    ∧ returns (check_crc_receiver "0101001" "1011" false) (ok, remainder)
    ∧ (ok = true ↔ ∀ c, c ∈ chars remainder → c = "0"%char).
Proof.
  apply (check_crc_receiver_spec "0101001" "1011" false); reflexivity.
Defined.

(** ** The sender and the round trip *)

(** C1: for well-formed data and a well-formed generator with leading bit
    1, the sender returns the remainder of the data followed by
    [len(generator) - 1] zeros and the frame made of the data and that
    remainder; dividing this frame by the generator gives a remainder of
    '0's only, and the receiver reports [True]. *)
Theorem crc_roundtrip (data_bits generator_bits : string)
    (show_sender show_receiver : bool) :
  is_bitstring data_bits = true →
  is_bitstring generator_bits = true →
  leading generator_bits = Some "1"%char →
  ∃ (crc transmitted remainder : string),
    returns (long_division_show (data_bits +:+ str_mul "0" (len generator_bits - 1))
                                generator_bits show_sender) crc
    ∧ transmitted = data_bits +:+ crc
    ∧ returns (compute_crc_sender data_bits generator_bits show_sender)
              (crc, transmitted)
    ∧ returns (long_division_show transmitted generator_bits show_receiver) remainder
    ∧ (∀ c, c ∈ chars remainder → c = "0"%char)
    ∧ returns (check_crc_receiver transmitted generator_bits show_receiver)
              (true, remainder).
Proof.
  intros Hd Hg Hl.
  destruct (bits_generator generator_bits Hg Hl) as (gt & Hgt & Hlen).
  pose proof (is_bitstring_nonempty _ Hg) as Hne.
  pose proof (frame_of_valid generator_bits gt Hg Hgt data_bits Hd) as Hf.
  exists (crc_of data_bits generator_bits), (frame_of data_bits generator_bits),
         (remainder_of (frame_of data_bits generator_bits) generator_bits).
  assert (all_zero (remainder_of (frame_of data_bits generator_bits) generator_bits)
          = true) as Hz.
  { destruct (decide (gt = [])) as [E|E].
    - by rewrite (remainder_of_degree_0 generator_bits gt).
    - rewrite (remainder_of_frame generator_bits gt) by done.
      apply all_zero_digits_zeros. }
  split; [by apply long_division_show_returns|].
  split; [done|].
  split; [by apply compute_crc_sender_returns|].
  split; [by apply long_division_show_returns|].
  split; [by apply all_zero_spec|].
  rewrite <-Hz at 1. by apply check_crc_receiver_returns.
Qed.

Lemma crc_roundtrip_witness :
  ∃ (crc transmitted remainder : string),
    returns (long_division_show ("1101" +:+ str_mul "0" (len "1011" - 1))
                                "1011" true) crc
    ∧ transmitted = "1101" +:+ crc
    ∧ returns (compute_crc_sender "1101" "1011" true) (crc, transmitted)
    ∧ returns (long_division_show transmitted "1011" true) remainder
    ∧ (∀ c, c ∈ chars remainder → c = "0"%char)
    ∧ returns (check_crc_receiver transmitted "1011" true) (true, remainder).
Proof. apply (crc_roundtrip "1101" "1011" true true); reflexivity. Defined.

(** C4 as stated fails for the generator "1": the checksum is then the one
    character "0", and the frame is one character longer than the data. *)
Lemma transmitted_length_degenerate :
  is_bitstring "1" = true ∧ leading "1" = Some "1"%char
  ∧ run (compute_crc_sender "1" "1" false) [] = (Ok ("0", "10"), [])
  ∧ len "10" ≠ len "1" + (len "1" - 1)
  ∧ len "0" ≠ len "1" - 1.
Proof. repeat split; done. Qed.

(** C4, amended: for well-formed data and a well-formed generator with
    leading bit 1, the transmitted frame is the data followed by the
    checksum; when the generator has at least two bits the checksum has
    [len(generator) - 1] bits and the frame [len(data) + len(generator) - 1];
    for the one-bit generator the checksum is "0" and the frame has
    [len(data) + 1] bits. *)
Theorem transmitted_length (data_bits generator_bits : string) (show_steps : bool) :
  is_bitstring data_bits = true →
  is_bitstring generator_bits = true →
  leading generator_bits = Some "1"%char →
  ∃ (crc transmitted : string),
    returns (compute_crc_sender data_bits generator_bits show_steps)
            (crc, transmitted)
    ∧ transmitted = data_bits +:+ crc
    ∧ (1 < len generator_bits →
       len crc = len generator_bits - 1
       ∧ len transmitted = len data_bits + (len generator_bits - 1))
    ∧ (len generator_bits = 1 →
       crc = "0" ∧ len transmitted = len data_bits + 1).
Proof.
  intros Hd Hg Hl.
  destruct (bits_generator generator_bits Hg Hl) as (gt & Hgt & Hlen).
  exists (crc_of data_bits generator_bits), (frame_of data_bits generator_bits).
  split; [by apply compute_crc_sender_returns|]. split; [done|].
  assert (len generator_bits = Z.of_nat (S (length gt))) as Hlen'
    by (unfold len; by rewrite Hlen).
  split.
  - intros Hn. assert (gt ≠ []) as Hne by (intros ->; simpl in *; lia).
    assert (len (crc_of data_bits generator_bits) = len generator_bits - 1) as Hc.
    { rewrite (crc_of_bits generator_bits gt) by done.
      rewrite len_chars, chars_join. unfold digits.
      rewrite length_fmap, (length_crc_bits gt). lia. }
    split; [done|]. unfold frame_of. by rewrite len_app, Hc.
  - intros Hn. assert (gt = []) as -> by (destruct gt; [done|simpl in *; lia]).
    unfold frame_of, crc_of.
    rewrite (remainder_of_degree_0 generator_bits []) by done.
    split; [done|]. by rewrite len_app.
Qed.

Lemma transmitted_length_witness :
  ∃ (crc transmitted : string),
    returns (compute_crc_sender "1101" "1011" false) (crc, transmitted)
    ∧ transmitted = "1101" +:+ crc
    ∧ (1 < len "1011" →
       len crc = len "1011" - 1 ∧ len transmitted = len "1101" + (len "1011" - 1))
    ∧ (len "1011" = 1 → crc = "0" ∧ len transmitted = len "1101" + 1).
Proof. apply (transmitted_length "1101" "1011" false); reflexivity. Defined.

(** ** The check of the generator's leading bit *)

(** C2 as stated fails: [long_division_show] does not look at the leading
    bit of the divisor.  With the divisor "0101" it returns a remainder, and
    the step at position 0 is an XOR step. *)
Lemma long_division_show_accepts_leading_zero :
  leading "0101" = Some "0"%char
  ∧ run (long_division_show "1101000" "0101" false) [] = (Ok "000", [])
  ∧ (run (long_division_show "1101000" "0101" true) []).1 = Ok "000"
  ∧ (" -> XOR with divisor -> 1000" +:+ newline)
    ∈ (run (long_division_show "1101000" "0101" true) []).2.
Proof.
  split; [done|]. split; [done|]. split; [done|].
  apply (bool_decide_unpack _). by vm_compute.
Qed.

(** C2, amended: the leading bit is checked by the sender and by the
    receiver, which raise [ValueError] before anything is printed and before
    the division is called; the division itself returns normally for every
    non-empty divisor. *)
Theorem generator_leading_bit_checked (data_bits generator_bits : string)
    (show_steps : bool) (out : stdout) :
  is_bitstring data_bits = true →
  is_bitstring generator_bits = true →
  leading generator_bits ≠ Some "1"%char →
  run (compute_crc_sender data_bits generator_bits show_steps) out
  = (Raise generator_error, out)
  ∧ run (check_crc_receiver data_bits generator_bits show_steps) out
    = (Raise generator_error, out)
  ∧ ∃ remainder,
      returns (long_division_show data_bits generator_bits show_steps) remainder.
Proof.
  intros Hd Hg Hl.
  destruct (leading_not_one_nonempty _ Hg Hl) as (g0 & Hg0 & Hne).
  split; [|split].
  - unfold compute_crc_sender. rewrite run_bind, validate_binary_str_run, Hd.
    rewrite run_bind, validate_binary_str_run, Hg.
    rewrite run_bind, (getitem_lookup _ 0 g0) by done.
    by rewrite run_bind, decide_True by done.
  - unfold check_crc_receiver. rewrite run_bind, validate_binary_str_run, Hd.
    rewrite run_bind, validate_binary_str_run, Hg.
    rewrite run_bind, (getitem_lookup _ 0 g0) by done.
    by rewrite run_bind, decide_True by done.
  - eexists. apply long_division_show_returns. by apply is_bitstring_nonempty.
Qed.

Lemma generator_leading_bit_checked_witness :
  run (compute_crc_sender "1101" "0101" true) [] = (Raise generator_error, [])
  ∧ run (check_crc_receiver "1101" "0101" true) [] = (Raise generator_error, [])
  ∧ ∃ remainder, returns (long_division_show "1101" "0101" true) remainder.
Proof. apply (generator_leading_bit_checked "1101" "0101" true []); done. Defined.

(** ** Error injection *)

(** C5: let the generator be well formed with leading bit 1, at least two
    bits and at least two 1s, and let the sender have produced the frame
    [transmitted].  Flipping the bit at any position [p] of the frame, as
    the demonstration does, gives a frame on which the receiver reports
    [False]. *)
Theorem single_bit_error_detected (int : string → outcome Z)
    (data_bits generator_bits : string) (show_sender show_receiver : bool)
    (crc transmitted pos : string) (p : Z) :
  is_bitstring data_bits = true →
  is_bitstring generator_bits = true →
  leading generator_bits = Some "1"%char →
  1 ≤ len generator_bits - 1 →
  (2 ≤ ones generator_bits)%nat →
  result (compute_crc_sender data_bits generator_bits show_sender)
  = Ok (crc, transmitted) →
  int pos = Ok p →
  0 ≤ p < len transmitted →
  ∃ (received remainder : string),
    returns (flip_one_bit int transmitted pos) received
    ∧ chars received = alter toggle (Z.to_nat p) (chars transmitted)
    ∧ returns (check_crc_receiver received generator_bits show_receiver)
              (false, remainder).
Proof.
  intros Hd Hg Hl _ Hones Hsend Hint Hp.
  destruct (bits_generator generator_bits Hg Hl) as (gt & Hgt & _).
  pose proof (ones_generator _ _ Hgt Hones) as Hin.
  pose proof (compute_crc_sender_returns generator_bits Hg Hl data_bits
                show_sender Hd) as Hret.
  apply returns_result in Hret. rewrite Hret in Hsend. simplify_eq.
  set (frame := frame_of data_bits generator_bits) in *.
  unfold len in Hp.
  destruct (Z_of_nat_complete p) as [i ->]; [lia|]. rewrite Nat2Z.id.
  assert (i < String.length frame)%nat as Hi by lia.
  destruct (remainder_of_flipped_frame data_bits generator_bits gt i)
    as [Hvalid Hrem]; try done.
  exists (flip_at frame i), (remainder_of (flip_at frame i) generator_bits).
  split; [by apply flip_one_bit_returns|].
  split; [unfold flip_at; by rewrite chars_join|].
  fold frame in Hrem. rewrite <-Hrem at 1.
  by apply check_crc_receiver_returns.
Qed.

Lemma single_bit_error_detected_witness :
  ∃ (received remainder : string),
    returns (flip_one_bit int_decimal "1101001" "0") received
    ∧ chars received = alter toggle (Z.to_nat 0) (chars "1101001")
    ∧ returns (check_crc_receiver received "1011" true) (false, remainder).
Proof.
  apply (single_bit_error_detected int_decimal "1101" "1011" true true
           "001" "1101001" "0" 0); try reflexivity; try done.
  unfold ones. simpl. lia.
Defined.

(** C9: when every requested position is an integer and no position is
    requested twice, the multiple-flip branch returns a frame of the same
    length in which exactly the characters at the requested positions that
    lie in [0, len(frame)) are changed: a '0' becomes '1' and any other
    character, '1' in a bit string, becomes '0'; the characters at the other
    positions are kept.  Positions out of the range are skipped and the call
    does not fail. *)
Theorem flip_bits_spec (int : string → outcome Z) (transmitted : string)
    (pos_list : list string) (offsets : list Z) :
  Forall2 (λ pos p, int pos = Ok p) pos_list offsets →
  NoDup offsets →
  ∃ received : string,
    returns (flip_bits int transmitted pos_list) received
    ∧ len received = len transmitted
    ∧ ∀ (j : nat) (c : ascii),
        chars transmitted !! j = Some c →
        (Z.of_nat j ∈ offsets →
         chars received !! j
         = Some (if decide (c = "0"%char) then "1"%char else "0"%char)
         ∧ chars received !! j ≠ Some c)
        ∧ (Z.of_nat j ∉ offsets → chars received !! j = Some c).
Proof.
  intros Hparse Hnd.
  destruct (flip_bits_loop_returns int transmitted pos_list offsets
              (chars transmitted) Hparse Hnd)
    as (changed & Hret & Hlen & Hlook); [apply length_chars|].
  exists (join changed). split; [|split].
  - unfold flip_bits. cbv zeta. eapply returns_bind; [exact Hret|].
    apply returns_seq; [io_prints|]. apply returns_ret.
  - by rewrite !len_chars, chars_join, Hlen.
  - intros j c Hc. rewrite chars_join, Hlook, Hc. split.
    + intros Hin. rewrite decide_True by done. simpl. unfold toggle.
      split; [done|]. case_decide; congruence.
    + intros Hin. by rewrite decide_False by done.
Qed.

Lemma flip_bits_spec_witness :
  ∃ received : string,
    returns (flip_bits int_decimal "1101001" ["0"; "9"; "-1"; "3"]) received
    ∧ len received = len "1101001"
    ∧ ∀ (j : nat) (c : ascii),
        chars "1101001" !! j = Some c →
        (Z.of_nat j ∈ [0; 9; -1; 3] →
         chars received !! j
         = Some (if decide (c = "0"%char) then "1"%char else "0"%char)
         ∧ chars received !! j ≠ Some c)
        ∧ (Z.of_nat j ∉ [0; 9; -1; 3] → chars received !! j = Some c).
Proof.
  apply (flip_bits_spec int_decimal "1101001" ["0"; "9"; "-1"; "3"] [0; 9; -1; 3]).
  - repeat constructor.
  - by apply (bool_decide_unpack _).
Defined.

(** * Further properties of [crc.py] *)

(** ** [xor] *)

Lemma xor_chars a b : chars (xor a b) = zip_with xor_char (chars a) (chars b).
Proof. unfold xor. apply chars_join. Qed.

Lemma xor_digits a b :
  zip_with xor_char (digits a) (digits b) = digits (xorl a b).
Proof.
  revert b. induction a as [|x a IH]; intros [|y b]; try done.
  cbn [digits fmap list_fmap xorl zip_with]. rewrite xor_char_digit. f_equal.
  apply IH.
Qed.

Lemma xor_bits a b :
  is_bitstring a = true → is_bitstring b = true →
  chars (xor a b) = digits (xorl (bits a) (bits b)).
Proof.
  intros Ha Hb. by rewrite xor_chars, <-xor_digits, !digits_bits.
Qed.

Lemma xorl_xorl_cancel a b : length a = length b → xorl (xorl a b) b = a.
Proof.
  revert b. induction a as [|x a IH]; intros [|y b] Hl; simplify_eq/=; [done|].
  unfold xorl in *. cbn [zip_with]. f_equal; [by destruct x, y|by apply IH].
Qed.

(** [xor] cuts its result to the shorter argument, and every character of
    the result is '0' or '1', whatever the arguments contain. *)
Theorem xor_shape (a b : string) :
  len (xor a b) = Z.min (len a) (len b)
  ∧ ∀ c, c ∈ chars (xor a b) → c = "0"%char ∨ c = "1"%char.
Proof.
  split.
  - rewrite !len_chars, xor_chars, length_zip_with. lia.
  - intros c. rewrite xor_chars. intros (x & y & -> & _)%elem_of_zip_with.
    unfold xor_char. case_decide; auto.
Qed.

(** On bit strings of the same length, [xor] with a fixed string is its own
    inverse, and a string xored with itself gives zeros only. *)
Theorem xor_cancel (a b : string) :
  is_bitstring a = true → is_bitstring b = true →
  String.length a = String.length b →
  xor (xor a b) b = a ∧ xor a a = str_mul "0" (len a).
Proof.
  intros Ha Hb Hlen. split; apply chars_inj.
  - rewrite xor_chars, xor_bits by done.
    rewrite <-(digits_bits b) at 1 by done.
    rewrite xor_digits, xorl_xorl_cancel by (by rewrite !length_bits).
    by apply digits_bits.
  - rewrite xor_bits, xorl_diag by done. unfold len.
    by rewrite (chars_str_mul "0"%char), digits_zeros, length_bits.
Qed.

Lemma xor_cancel_witness :
  xor (xor "1101" "1011") "1011" = "1101" ∧ xor "1101" "1101" = str_mul "0" (len "1101").
Proof. apply (xor_cancel "1101" "1011"); reflexivity. Defined.

(** ** The divider on arbitrary text *)

Lemma division_step_empty_divisor show_steps i work out :
  ∃ msg out',
    run (division_step "" show_steps i work) out = (Raise (IndexError msg), out').
Proof.
  unfold division_step. cbv zeta.
  assert (slice work i (i + len "") = []) as ->.
  { unfold slice, len. simpl. by rewrite Z.add_0_r, Nat.sub_diag. }
  destruct show_steps; do 2 eexists; reflexivity.
Qed.

(** With the empty divisor the first window is empty and reading its first
    character raises [IndexError], whatever the dividend. *)
Theorem long_division_show_empty_divisor (dividend : string) (show_steps : bool)
    (out : stdout) :
  ∃ msg out',
    run (long_division_show dividend "" show_steps) out = (Raise (IndexError msg), out').
Proof.
  unfold long_division_show. cbv zeta.
  assert (range (len dividend - len "" + 1)
          = 0 :: (Z.of_nat <$> seq 1 (String.length dividend))) as ->.
  { unfold range, len. simpl String.length.
    replace (Z.to_nat _) with (S (String.length dividend)) by lia. done. }
  cbn [for_each]. rewrite run_bind.
  destruct (run (when show_steps _) out) as [[[]|e] out1] eqn:E.
  2:{ destruct show_steps; discriminate. }
  rewrite run_bind, run_bind.
  destruct (division_step_empty_divisor show_steps 0 (chars dividend) out1)
    as (msg & out2 & ->).
  by exists msg, out2.
Qed.

(** For a non-empty divisor of [n] characters the division returns
    normally on every dividend; the remainder has
    [min(len(dividend), n - 1)] characters when [n > 1] and one character
    when [n = 1]. *)
Theorem long_division_show_remainder_length (dividend divisor : string)
    (show_steps : bool) :
  divisor ≠ "" →
  ∃ remainder,
    returns (long_division_show dividend divisor show_steps) remainder
    ∧ len remainder
      = if decide (len divisor > 1)
        then Z.min (len dividend) (len divisor - 1) else 1.
Proof.
  intros Hne. exists (remainder_of dividend divisor).
  split; [by apply long_division_show_returns|].
  unfold remainder_of, len.
  destruct (decide (1 < String.length divisor)%nat) as [Hn|Hn].
  - rewrite decide_True by lia.
    rewrite <-length_chars, chars_join, length_drop.
    unfold sweep_chars. rewrite length_sweep, length_chars. lia.
  - by rewrite decide_False by lia.
Qed.

Lemma long_division_show_remainder_length_witness :
  ∃ remainder,
    returns (long_division_show "abc1" "1x" true) remainder
    ∧ len remainder
      = if decide (len "1x" > 1) then Z.min (len "abc1") (len "1x" - 1) else 1.
Proof. by apply (long_division_show_remainder_length "abc1" "1x" true). Defined.

(** ** Ill-formed inputs of the sender and the receiver *)

Lemma validate_binary_str_raises s name out :
  is_bitstring s = false →
  run (validate_binary_str s name) out = (Raise (validation_error s name), out).
Proof.
  intros H. rewrite validate_binary_str_run, H. unfold validation_error.
  by case_decide.
Qed.

Lemma leading_getitem generator out :
  is_bitstring generator = true →
  ∃ g0, leading generator = Some g0
        ∧ run (getitem (chars generator) 0) out = (Ok g0, out).
Proof.
  intros Hg%is_bitstring_nonempty. destruct generator as [|c rest]; [done|].
  by exists c.
Qed.

Lemma sender_receiver_reject_run (bits_in generator_bits : string)
    (show_steps : bool) (out : stdout) :
  ¬ (is_bitstring bits_in = true ∧ is_bitstring generator_bits = true
     ∧ leading generator_bits = Some "1"%char) →
  let rejection name :=
    if is_bitstring bits_in then
      if is_bitstring generator_bits then generator_error
      else validation_error generator_bits "Generator bits"
    else validation_error bits_in name in
  run (compute_crc_sender bits_in generator_bits show_steps) out
  = (Raise (rejection "Data bits"), out)
  ∧ run (check_crc_receiver bits_in generator_bits show_steps) out
    = (Raise (rejection "Received bits"), out).
Proof.
  intros Hbad rejection. unfold rejection, compute_crc_sender, check_crc_receiver.
  destruct (is_bitstring bits_in) eqn:Hd.
  2:{ split; by rewrite run_bind, validate_binary_str_raises. }
  destruct (is_bitstring generator_bits) eqn:Hg.
  2:{ split; rewrite run_bind, validate_binary_str_run, Hd;
        by rewrite run_bind, validate_binary_str_raises. }
  destruct (leading_getitem generator_bits out Hg) as (g0 & Hl & Hget).
  assert (g0 ≠ "1"%char) as Hne by (intros ->; by apply Hbad).
  split; rewrite run_bind, validate_binary_str_run, Hd;
    rewrite run_bind, validate_binary_str_run, Hg;
    rewrite run_bind, Hget;
    by rewrite run_bind, decide_True by done.
Qed.

(** The sender and the receiver check the data (or the received frame)
    first, then the generator, then its leading bit.  On inputs that fail
    one of these checks they raise the [ValueError] of the first failing
    check and print nothing, even when the steps are to be shown. *)
Theorem sender_receiver_reject (bits_in generator_bits : string)
    (show_steps : bool) (out : stdout) :
  ¬ (is_bitstring bits_in = true ∧ is_bitstring generator_bits = true
     ∧ leading generator_bits = Some "1"%char) →
  let rejection name :=
    if is_bitstring bits_in then
      if is_bitstring generator_bits then generator_error
      else validation_error generator_bits "Generator bits"
    else validation_error bits_in name in
  run (compute_crc_sender bits_in generator_bits show_steps) out
  = (Raise (rejection "Data bits"), out)
  ∧ run (check_crc_receiver bits_in generator_bits show_steps) out
    = (Raise (rejection "Received bits"), out).
Proof. apply sender_receiver_reject_run. Qed.

Lemma sender_receiver_reject_witness :
  run (compute_crc_sender "102" "" true) []
  = (Raise (validation_error "102" "Data bits"), [])
  ∧ run (check_crc_receiver "102" "" true) []
    = (Raise (validation_error "102" "Received bits"), []).
Proof.
  apply (sender_receiver_reject "102" "" true []). by intros [? _].
Defined.

(** ** Linearity of the remainder *)

Lemma drop_xorl n a b : drop n (xorl a b) = xorl (drop n a) (drop n b).
Proof. unfold xorl. apply zip_with_drop. Qed.

Lemma xorl_comm a b : xorl a b = xorl b a.
Proof.
  revert b. induction a as [|x a IH]; intros [|y b]; try done.
  unfold xorl in *. cbn [zip_with]. f_equal; [by destruct x, y|apply IH].
Qed.

Lemma length_xor a b :
  String.length a = String.length b → String.length (xor a b) = String.length a.
Proof.
  intros H. rewrite <-!length_chars in *. rewrite xor_chars, length_zip_with. lia.
Qed.

Lemma bits_xor a b :
  is_bitstring a = true → is_bitstring b = true →
  bits (xor a b) = xorl (bits a) (bits b).
Proof.
  intros Ha Hb. rewrite <-(join_chars (xor a b)), xor_bits by done.
  apply bits_join_digits.
Qed.

Lemma is_bitstring_xor a b :
  is_bitstring a = true → is_bitstring b = true →
  String.length a = String.length b → is_bitstring (xor a b) = true.
Proof.
  intros Ha Hb Hlen. eapply is_bitstring_digits; [|by apply xor_bits].
  intros E. apply (f_equal length) in E.
  rewrite length_xorl, length_bits in E by (by rewrite !length_bits).
  apply is_bitstring_nonempty in Ha. by destruct a.
Qed.

Lemma xor_join_digits x y :
  xor (join (digits x)) (join (digits y)) = join (digits (xorl x y)).
Proof. apply chars_inj. by rewrite xor_chars, !chars_join, xor_digits. Qed.

Section Linearity.
Variable generator_bits : string.
Hypothesis generator_valid : is_bitstring generator_bits = true.
Hypothesis generator_leading : leading generator_bits = Some "1"%char.

Lemma remainder_of_xor a b :
  is_bitstring a = true → is_bitstring b = true →
  String.length a = String.length b →
  remainder_of (xor a b) generator_bits
  = xor (remainder_of a generator_bits) (remainder_of b generator_bits).
Proof.
  intros Ha Hb Hlen.
  destruct (bits_generator _ generator_valid generator_leading) as (gt & Hgt & _).
  destruct (decide (gt = [])) as [E|E].
  { by rewrite !(remainder_of_degree_0 generator_bits gt). }
  rewrite !(remainder_of_bits generator_bits gt)
    by (done || by apply is_bitstring_xor).
  rewrite length_xor, bits_xor, sweep_bits_xorl, drop_xorl by done.
  by rewrite xor_join_digits, Hlen.
Qed.

End Linearity.

(** The remainder is linear: for two bit strings of the same length and a
    well-formed generator with leading bit 1, the remainder of [xor(a, b)]
    is the [xor] of the remainders of [a] and of [b]. *)
Theorem long_division_show_linear (a b generator_bits : string)
    (show_steps : bool) :
  is_bitstring a = true → is_bitstring b = true →
  String.length a = String.length b →
  is_bitstring generator_bits = true →
  leading generator_bits = Some "1"%char →
  ∃ ra rb : string,
    returns (long_division_show a generator_bits show_steps) ra
    ∧ returns (long_division_show b generator_bits show_steps) rb
    ∧ returns (long_division_show (xor a b) generator_bits show_steps) (xor ra rb).
Proof.
  intros Ha Hb Hlen Hg Hl. pose proof (is_bitstring_nonempty _ Hg) as Hne.
  exists (remainder_of a generator_bits), (remainder_of b generator_bits).
  split; [by apply long_division_show_returns|].
  split; [by apply long_division_show_returns|].
  rewrite <-remainder_of_xor by done. by apply long_division_show_returns.
Qed.

Lemma long_division_show_linear_witness :
  ∃ ra rb : string,
    returns (long_division_show "1101000" "1011" false) ra
    ∧ returns (long_division_show "0010110" "1011" false) rb
    ∧ returns (long_division_show (xor "1101000" "0010110") "1011" false) (xor ra rb).
Proof.
  apply (long_division_show_linear "1101000" "0010110" "1011" false); reflexivity.
Defined.

(** ** What the receiver detects *)

Section Detection.
Variable generator_bits data_bits : string.
Hypothesis generator_valid : is_bitstring generator_bits = true.
Hypothesis generator_leading : leading generator_bits = Some "1"%char.
Hypothesis data_valid : is_bitstring data_bits = true.

Local Abbreviation frame := (frame_of data_bits generator_bits).

(** The remainder of a corrupted frame is the remainder of the error. *)
Lemma remainder_of_corrupted err :
  is_bitstring err = true → String.length err = String.length frame →
  remainder_of (xor frame err) generator_bits = remainder_of err generator_bits.
Proof.
  intros He Hlen.
  destruct (bits_generator _ generator_valid generator_leading) as (gt & Hgt & Hl).
  pose proof (frame_of_valid generator_bits gt generator_valid Hgt _ data_valid)
    as Hf.
  destruct (decide (gt = [])) as [E|E].
  { by rewrite !(remainder_of_degree_0 generator_bits gt). }
  rewrite remainder_of_xor by done.
  rewrite (remainder_of_frame generator_bits gt) by done.
  rewrite (remainder_of_bits generator_bits gt generator_valid Hgt err) by done.
  rewrite xor_join_digits. do 2 f_equal.
  set (R := drop _ _).
  assert (length R = length gt) as <-; [|apply xorl_zeros_l].
  unfold R. rewrite length_drop, length_sweep_bits, length_bits, Hlen.
  rewrite (frame_of_length generator_bits gt) by done. lia.
Qed.

Lemma sender_result show_steps crc transmitted :
  result (compute_crc_sender data_bits generator_bits show_steps)
  = Ok (crc, transmitted) →
  crc = crc_of data_bits generator_bits ∧ transmitted = frame.
Proof.
  intros H.
  pose proof (compute_crc_sender_returns generator_bits generator_valid
                generator_leading data_bits show_steps data_valid) as Hret.
  apply returns_result in Hret. rewrite Hret in H. by simplify_eq.
Qed.

End Detection.

(** The verdict of the receiver on a corrupted frame depends on the error
    only: when a frame produced by the sender is xored with an error
    pattern of the same length, the receiver returns the same verdict and
    the same remainder as on the error pattern itself. *)
Theorem receiver_syndrome (data_bits generator_bits err crc transmitted : string)
    (show_sender show_1 show_2 : bool) :
  is_bitstring data_bits = true →
  is_bitstring generator_bits = true →
  leading generator_bits = Some "1"%char →
  result (compute_crc_sender data_bits generator_bits show_sender)
  = Ok (crc, transmitted) →
  is_bitstring err = true →
  String.length err = String.length transmitted →
  ∃ (ok : bool) (remainder : string),
    returns (check_crc_receiver (xor transmitted err) generator_bits show_1)
            (ok, remainder)
    ∧ returns (check_crc_receiver err generator_bits show_2) (ok, remainder).
Proof.
  intros Hd Hg Hl Hsend He Hlen.
  apply sender_result in Hsend as [-> ->]; try done.
  destruct (bits_generator _ Hg Hl) as (gt & Hgt & _).
  pose proof (frame_of_valid generator_bits gt Hg Hgt _ Hd) as Hf.
  exists (all_zero (remainder_of err generator_bits)),
         (remainder_of err generator_bits).
  split; [|by apply check_crc_receiver_returns].
  rewrite <-(remainder_of_corrupted generator_bits data_bits) by done.
  apply check_crc_receiver_returns; try done. by apply is_bitstring_xor.
Qed.

Lemma receiver_syndrome_witness :
  ∃ (ok : bool) (remainder : string),
    returns (check_crc_receiver (xor "1101001" "0010110") "1011" true)
            (ok, remainder)
    ∧ returns (check_crc_receiver "0010110" "1011" false) (ok, remainder).
Proof.
  apply (receiver_syndrome "1101" "1011" "0010110" "001" "1101001" false true false);
    reflexivity.
Defined.

Lemma xorl_eq a b : length a = length b → true ∉ xorl a b → a = b.
Proof.
  revert b. induction a as [|x a IH]; intros [|y b] Hl Hn; simplify_eq/=; [done|].
  unfold xorl in *. cbn [zip_with] in Hn.
  rewrite not_elem_of_cons in Hn. destruct Hn as [Hxy Hn].
  f_equal; [by destruct x, y|by apply IH].
Qed.

Lemma all_zero_digits l : all_zero (join (digits l)) = true ↔ true ∉ l.
Proof.
  split.
  - intros H Hin. apply all_zero_false in Hin. congruence.
  - intros Hn. unfold all_zero, all_chars. rewrite chars_join.
    induction l as [|b l IH]; [done|].
    rewrite not_elem_of_cons in Hn. destruct Hn as [Hb Hn].
    destruct b; [done|]. simpl. by apply IH.
Qed.

Lemma is_bitstring_app a b :
  is_bitstring a = true → is_bitstring b = true → is_bitstring (a +:+ b) = true.
Proof.
  intros Ha Hb. apply (is_bitstring_digits _ (bits a ++ bits b)).
  - apply is_bitstring_nonempty in Ha. unfold bits. by destruct a.
  - by rewrite chars_app, digits_app, !digits_bits.
Qed.

Lemma sweep_bits_data_checksum gt D C :
  length C = length gt →
  sweep_bits (true :: gt) (D ++ C) (length D)
  = zeros (length D) ++ xorl C (crc_bits gt D).
Proof.
  intros HC. pose proof (length_crc_bits gt D) as HX.
  set (X := crc_bits gt D) in *.
  assert (D ++ C = xorl (D ++ X) (zeros (length D) ++ xorl C X)) as ->.
  { rewrite xorl_app by (by rewrite length_zeros).
    rewrite xorl_zeros_r, (xorl_comm X), xorl_xorl_cancel by congruence. done. }
  rewrite sweep_bits_xorl, sweep_bits_zeros_fixed.
  unfold X, crc_bits. destruct (sweep_bits_frame gt D) as [_ ->].
  fold (crc_bits gt D). fold X.
  rewrite <-(xorl_zeros_l (zeros (length D) ++ xorl C X)) at 2.
  by rewrite length_app, length_zeros, length_xorl, HC by congruence.
Qed.

(** The receiver recomputes the checksum: for a generator of at least two
    bits, on a frame made of non-empty data and [len(generator) - 1] checksum
    bits, the remainder it returns is the [xor] of the received checksum and
    the checksum the sender computes for the data, and its verdict is [True]
    exactly when the two are equal. *)
Theorem receiver_recomputes_checksum (data_bits checksum generator_bits : string)
    (show_sender show_receiver : bool) :
  is_bitstring data_bits = true →
  all_chars is_bit checksum = true →
  is_bitstring generator_bits = true →
  leading generator_bits = Some "1"%char →
  1 < len generator_bits →
  len checksum = len generator_bits - 1 →
  ∃ (crc transmitted : string) (ok : bool),
    returns (compute_crc_sender data_bits generator_bits show_sender)
            (crc, transmitted)
    ∧ returns (check_crc_receiver (data_bits +:+ checksum) generator_bits
                                  show_receiver)
              (ok, xor checksum crc)
    ∧ (ok = true ↔ checksum = crc).
Proof.
  intros Hd Hcb Hg Hl Htwo Hlen.
  assert (is_bitstring checksum = true) as Hc.
  { unfold is_bitstring. rewrite Hcb, andb_true_r.
    apply negb_true_iff, bool_decide_eq_false. intros ->.
    unfold len in *. simpl in Hlen. lia. }
  destruct (bits_generator _ Hg Hl) as (gt & Hgt & Hgl).
  assert (length (bits checksum) = length gt) as HC.
  { rewrite length_bits. unfold len in Hlen. lia. }
  assert (gt ≠ []) as Hne.
  { intros ->. rewrite length_bits in HC. apply is_bitstring_nonempty in Hc.
    destruct checksum; [done|]. simpl in HC. lia. }
  pose proof (is_bitstring_app _ _ Hd Hc) as Hv.
  assert (join (digits (bits checksum)) = checksum) as Hce
    by (by rewrite digits_bits, join_chars).
  set (X := crc_bits gt (bits data_bits)).
  assert (xor checksum (crc_of data_bits generator_bits)
          = join (digits (xorl (bits checksum) X))) as Hxor.
  { rewrite (crc_of_bits generator_bits gt) by done.
    by rewrite <-xor_join_digits, Hce. }
  assert (remainder_of (data_bits +:+ checksum) generator_bits
          = xor checksum (crc_of data_bits generator_bits)) as Hrem.
  { rewrite Hxor, (remainder_of_bits generator_bits gt) by done.
    do 2 f_equal.
    assert (String.length (data_bits +:+ checksum) - length gt
            = length (bits data_bits))%nat as ->.
    { rewrite <-(length_bits (_ +:+ _)), bits_app, length_app. lia. }
    rewrite bits_app, sweep_bits_data_checksum by done.
    by rewrite drop_app_length' by (by rewrite length_zeros). }
  exists (crc_of data_bits generator_bits), (frame_of data_bits generator_bits),
         (all_zero (xor checksum (crc_of data_bits generator_bits))).
  split; [by apply compute_crc_sender_returns|]. split.
  - rewrite <-Hrem. by apply check_crc_receiver_returns.
  - rewrite Hxor, all_zero_digits.
    rewrite (crc_of_bits generator_bits gt) by done. fold X. split.
    + intros Hn. rewrite <-Hce. do 2 f_equal. apply xorl_eq; [|done].
      unfold X. by rewrite (length_crc_bits gt).
    + intros E%(f_equal bits). rewrite bits_join_digits in E.
      rewrite E, xorl_diag. apply elem_of_zeros.
Qed.

Lemma receiver_recomputes_checksum_witness :
  ∃ (crc transmitted : string) (ok : bool),
    returns (compute_crc_sender "1101" "1011" false) (crc, transmitted)
    ∧ returns (check_crc_receiver ("1101" +:+ "011") "1011" false)
              (ok, xor "011" crc)
    ∧ (ok = true ↔ "011" = crc).
Proof.
  apply (receiver_recomputes_checksum "1101" "011" "1011" false false);
    reflexivity.
Defined.

Lemma bits_str_mul_zero k : bits (str_mul "0" (Z.of_nat k)) = zeros k.
Proof.
  unfold bits. rewrite (chars_str_mul "0"%char). unfold zeros.
  by rewrite fmap_replicate.
Qed.

Lemma append_assoc (a b c : string) : (a +:+ b) +:+ c = a +:+ (b +:+ c).
Proof. apply chars_inj. by rewrite !chars_app, (assoc_L (++)). Qed.

Lemma crc_bits_leading_zeros gt k D :
  crc_bits gt (zeros k ++ D) = crc_bits gt D.
Proof.
  unfold crc_bits. rewrite length_app, length_zeros, <-(assoc_L (++)).
  rewrite sweep_bits_zeros_app, drop_app, length_zeros.
  rewrite drop_ge by (rewrite length_zeros; lia).
  by replace (k + length D - k)%nat with (length D) by lia.
Qed.

Lemma receiver_accepts_frame data_bits generator_bits show_steps :
  is_bitstring data_bits = true →
  is_bitstring generator_bits = true →
  leading generator_bits = Some "1"%char →
  returns (check_crc_receiver (frame_of data_bits generator_bits) generator_bits
                              show_steps)
          (true, remainder_of (frame_of data_bits generator_bits) generator_bits).
Proof.
  intros Hd Hg Hl. destruct (bits_generator _ Hg Hl) as (gt & Hgt & _).
  pose proof (frame_of_valid generator_bits gt Hg Hgt data_bits Hd) as Hf.
  assert (all_zero (remainder_of (frame_of data_bits generator_bits) generator_bits)
          = true) as Hz.
  { destruct (decide (gt = [])) as [E|E].
    - by rewrite (remainder_of_degree_0 generator_bits gt).
    - rewrite (remainder_of_frame generator_bits gt) by done.
      apply all_zero_digits_zeros. }
  rewrite <-Hz at 1. by apply check_crc_receiver_returns.
Qed.

(** Zeros in front of the data do not change the checksum: the frame the
    sender builds for the data with [k] leading zeros is the frame of the
    data with [k] zeros in front, so the receiver accepts a frame that has
    gained leading zeros. *)
Theorem sender_ignores_leading_zeros (data_bits generator_bits : string)
    (k : nat) (show_steps : bool) :
  is_bitstring data_bits = true →
  is_bitstring generator_bits = true →
  leading generator_bits = Some "1"%char →
  let zs := str_mul "0" (Z.of_nat k) in
  ∃ (crc transmitted remainder : string),
    returns (compute_crc_sender data_bits generator_bits show_steps)
            (crc, transmitted)
    ∧ returns (compute_crc_sender (zs +:+ data_bits) generator_bits show_steps)
              (crc, zs +:+ transmitted)
    ∧ returns (check_crc_receiver (zs +:+ transmitted) generator_bits show_steps)
              (true, remainder).
Proof.
  intros Hd Hg Hl zs.
  destruct (bits_generator _ Hg Hl) as (gt & Hgt & _).
  assert (is_bitstring (zs +:+ data_bits) = true) as Hzd.
  { apply (is_bitstring_digits _ (zeros k ++ bits data_bits)).
    - apply is_bitstring_nonempty in Hd. unfold bits.
      destruct data_bits; [done|]. by destruct k.
    - unfold zs.
      by rewrite chars_app, digits_app, digits_bits, (chars_str_mul "0"%char),
        digits_zeros. }
  assert (crc_of (zs +:+ data_bits) generator_bits
          = crc_of data_bits generator_bits) as Hcrc.
  { destruct (decide (gt = [])) as [E|E].
    - unfold crc_of. by rewrite !(remainder_of_degree_0 generator_bits gt).
    - rewrite !(crc_of_bits generator_bits gt) by done.
      unfold zs. by rewrite bits_app, bits_str_mul_zero, crc_bits_leading_zeros. }
  assert (frame_of (zs +:+ data_bits) generator_bits
          = zs +:+ frame_of data_bits generator_bits) as Hframe.
  { unfold frame_of. by rewrite Hcrc, append_assoc. }
  exists (crc_of data_bits generator_bits), (frame_of data_bits generator_bits),
         (remainder_of (frame_of (zs +:+ data_bits) generator_bits) generator_bits).
  split; [by apply compute_crc_sender_returns|].
  rewrite <-Hcrc at 1. rewrite <-Hframe.
  split; [by apply compute_crc_sender_returns|by apply receiver_accepts_frame].
Qed.

Lemma sender_ignores_leading_zeros_witness :
  let zs := str_mul "0" (Z.of_nat 2) in
  ∃ (crc transmitted remainder : string),
    returns (compute_crc_sender "1101" "1011" true) (crc, transmitted)
    ∧ returns (compute_crc_sender (zs +:+ "1101") "1011" true)
              (crc, zs +:+ transmitted)
    ∧ returns (check_crc_receiver (zs +:+ transmitted) "1011" true)
              (true, remainder).
Proof.
  apply (sender_ignores_leading_zeros "1101" "1011" 2 true); reflexivity.
Defined.

Lemma sub_front_self_app gt w :
  sub_front xorb (gt ++ w) gt = zeros (length gt) ++ w.
Proof.
  induction gt as [|x gt IH]; [apply sub_front_nil_r|].
  cbn [app length]. rewrite sub_front_cons, IH. by destruct x.
Qed.

Lemma sweep_bits_generator_shift gt a b :
  sweep_bits (true :: gt) (zeros a ++ (true :: gt) ++ zeros b) (a + S b)
  = zeros (a + S (length gt + b)).
Proof.
  rewrite sweep_bits_zeros_app. cbn [app]. rewrite sweep_bits_true.
  rewrite sub_front_self_app, <-zeros_app, (Nat.add_comm (length gt)).
  rewrite (zeros_app b), sweep_bits_zeros_fixed, <-zeros_app.
  by rewrite (zeros_app a), (Nat.add_comm b).
Qed.

Lemma remainder_of_generator_shift generator_bits a b :
  is_bitstring generator_bits = true →
  leading generator_bits = Some "1"%char →
  let err := str_mul "0" (Z.of_nat a) +:+ generator_bits +:+ str_mul "0" (Z.of_nat b) in
  is_bitstring err = true
  ∧ String.length err = (a + String.length generator_bits + b)%nat
  ∧ all_zero (remainder_of err generator_bits) = true.
Proof.
  intros Hg Hl err. destruct (bits_generator _ Hg Hl) as (gt & Hgt & Hgl).
  assert (bits err = zeros a ++ (true :: gt) ++ zeros b) as Hbits.
  { unfold err. by rewrite !bits_app, !bits_str_mul_zero, Hgt. }
  assert (is_bitstring err = true) as Hv.
  { apply (is_bitstring_digits _ (zeros a ++ (true :: gt) ++ zeros b)).
    - by destruct a.
    - unfold err. rewrite <-Hgt.
      by rewrite !chars_app, !digits_app, digits_bits, !(chars_str_mul "0"%char),
        !digits_zeros. }
  assert (String.length err = (a + String.length generator_bits + b)%nat) as Hlen.
  { rewrite <-length_bits, Hbits, !length_app, !length_zeros, Hgl. simpl. lia. }
  split; [done|]. split; [done|].
  destruct (decide (gt = [])) as [E|E].
  { by rewrite (remainder_of_degree_0 generator_bits gt). }
  rewrite (remainder_of_bits generator_bits gt) by done.
  rewrite Hbits, Hlen, Hgl.
  replace (a + S (length gt) + b - length gt)%nat with (a + S b)%nat by lia.
  rewrite sweep_bits_generator_shift.
  replace (a + S (length gt + b))%nat with ((a + S b) + length gt)%nat by lia.
  rewrite zeros_app, drop_app_length' by (by rewrite length_zeros).
  apply all_zero_digits_zeros.
Qed.

(** An error shaped like the generator is not detected: when the frame of
    the sender is xored with the generator placed at any position (zeros
    elsewhere), the receiver still returns [True]. *)
Theorem generator_shaped_error_undetected
    (data_bits generator_bits crc transmitted : string) (a b : nat)
    (show_sender show_receiver : bool) :
  is_bitstring data_bits = true →
  is_bitstring generator_bits = true →
  leading generator_bits = Some "1"%char →
  result (compute_crc_sender data_bits generator_bits show_sender)
  = Ok (crc, transmitted) →
  (a + String.length generator_bits + b)%nat = String.length transmitted →
  let err := str_mul "0" (Z.of_nat a) +:+ generator_bits
             +:+ str_mul "0" (Z.of_nat b) in
  ∃ remainder : string,
    xor transmitted err ≠ transmitted
    ∧ returns (check_crc_receiver (xor transmitted err) generator_bits
                                  show_receiver)
              (true, remainder).
Proof.
  intros Hd Hg Hl Hsend Hlen err.
  apply sender_result in Hsend as [-> ->]; try done.
  destruct (remainder_of_generator_shift generator_bits a b Hg Hl)
    as (Hv & Hel & Hz). fold err in Hv, Hel, Hz.
  destruct (bits_generator _ Hg Hl) as (gt & Hgt & Hgl).
  pose proof (frame_of_valid generator_bits gt Hg Hgt _ Hd) as Hf.
  exists (remainder_of err generator_bits). split.
  - intros E. apply (f_equal bits) in E. rewrite bits_xor in E by done.
    assert (xorl (xorl (bits (frame_of data_bits generator_bits)) (bits err))
                 (bits (frame_of data_bits generator_bits))
            = zeros (length (bits err))) as Hx.
    { rewrite E, xorl_diag, !length_bits. f_equal. lia. }
    rewrite (xorl_comm (bits (frame_of _ _))), xorl_xorl_cancel in Hx
      by (rewrite !length_bits; lia).
    assert (true ∈ bits err) as Hin.
    { unfold err. rewrite !bits_app, Hgt, !elem_of_app, elem_of_cons. auto. }
    rewrite Hx in Hin. by apply elem_of_zeros in Hin.
  - rewrite <-Hz at 1.
    rewrite <-(remainder_of_corrupted generator_bits data_bits) by (done || lia).
    apply check_crc_receiver_returns; try done.
    apply is_bitstring_xor; try done. lia.
Qed.

Lemma generator_shaped_error_undetected_witness :
  ∃ remainder : string,
    xor "1101001" (str_mul "0" (Z.of_nat 2) +:+ "1011" +:+ str_mul "0" (Z.of_nat 1))
    ≠ "1101001"
    ∧ returns (check_crc_receiver
                 (xor "1101001" (str_mul "0" (Z.of_nat 2) +:+ "1011"
                                 +:+ str_mul "0" (Z.of_nat 1)))
                 "1011" true)
              (true, remainder).
Proof.
  apply (generator_shaped_error_undetected "1101" "1011" "001" "1101001" 2 1
           false true); reflexivity.
Defined.

(** ** The multiple-flip branch in general *)

Lemma toggle_toggle c : c = "0"%char ∨ c = "1"%char → toggle (toggle c) = c.
Proof. by intros [-> | ->]. Qed.

Lemma toggle_is_bit c : toggle c = "0"%char ∨ toggle c = "1"%char.
Proof. unfold toggle. case_decide; auto. Qed.

Lemma iter_toggle_is_bit n c :
  c = "0"%char ∨ c = "1"%char →
  Nat.iter n toggle c = "0"%char ∨ Nat.iter n toggle c = "1"%char.
Proof. intros Hc. destruct n; [done|]. simpl. apply toggle_is_bit. Qed.

Lemma iter_toggle_parity n c :
  c = "0"%char ∨ c = "1"%char →
  Nat.iter n toggle c = if Nat.odd n then toggle c else c.
Proof.
  intros Hc. induction n as [|n IH]; [done|].
  rewrite Nat.odd_succ, <-Nat.negb_odd. simpl. rewrite IH.
  destruct (Nat.odd n); simpl; [by apply toggle_toggle|done].
Qed.

Lemma iter_toggle_shift n c : Nat.iter n toggle (toggle c) = toggle (Nat.iter n toggle c).
Proof. induction n as [|n IH]; [done|]. simpl. by rewrite IH. Qed.

Lemma times_cons p q l :
  times p (q :: l) = if decide (q = p) then S (times p l) else times p l.
Proof.
  unfold times. case_decide.
  - by rewrite filter_cons_True.
  - by rewrite filter_cons_False.
Qed.

Section FlipBitsGeneral.
Variable int : string → outcome Z.
Variable transmitted : string.

Lemma flip_bits_step_skips pos e changed :
  int pos = Raise e →
  returns (flip_bits_step int transmitted pos changed) changed.
Proof.
  intros He out. exists out. unfold flip_bits_step, try_except, run.
  unfold mbind, io_bind, eval. by rewrite He.
Qed.

Lemma flip_bits_loop_general pos_list changed :
  length changed = String.length transmitted →
  ∃ changed',
    returns (for_each pos_list (flip_bits_step int transmitted) changed) changed'
    ∧ length changed' = length changed
    ∧ ∀ j : nat,
        changed' !! j
        = Nat.iter (times (Z.of_nat j) (requested int pos_list)) toggle
            <$> changed !! j.
Proof.
  revert changed. induction pos_list as [|pos ps IH]; intros changed Hlen.
  { exists changed. split; [apply returns_ret|]. split; [done|].
    intros j. by destruct (changed !! j). }
  destruct (int pos) as [p|e] eqn:Hp.
  - set (changed1 := if decide (0 ≤ p < len transmitted)
                     then alter toggle (Z.to_nat p) changed else changed).
    assert (length changed1 = length changed) as Hlen1.
    { unfold changed1. case_decide; [apply length_alter|done]. }
    destruct (IH changed1) as (changed' & Hret & Hlen' & Hlook); [congruence|].
    exists changed'. split; [|split; [congruence|]].
    { cbn [for_each]. eapply returns_bind; [|exact Hret].
      by apply flip_bits_step_returns. }
    intros j. rewrite Hlook. unfold requested. cbn [omap list_omap].
    rewrite Hp. fold (requested int ps). rewrite times_cons.
    destruct (decide (p = Z.of_nat j)) as [->|Hne].
    + unfold changed1, len. rewrite Nat2Z.id. case_decide as Hr.
      * rewrite list_lookup_alter_eq. destruct (changed !! j) as [c|]; [|done].
        simpl. by rewrite iter_toggle_shift.
      * rewrite lookup_ge_None_2 by lia. done.
    + assert (changed1 !! j = changed !! j) as ->; [|done].
      unfold changed1. case_decide; [|done].
      apply list_lookup_alter_ne. lia.
  - destruct (IH changed Hlen) as (changed' & Hret & Hlen' & Hlook).
    exists changed'. split; [|split; [done|]].
    { cbn [for_each]. eapply returns_bind; [|exact Hret].
      by eapply flip_bits_step_skips. }
    intros j. rewrite Hlook. unfold requested. cbn [omap list_omap].
    by rewrite Hp.
Qed.

End FlipBitsGeneral.

Lemma flip_bits_returns_valid (int : string → outcome Z) (transmitted : string)
    (pos_list : list string) :
  is_bitstring transmitted = true →
  ∃ received : string,
    returns (flip_bits int transmitted pos_list) received
    ∧ is_bitstring received = true
    ∧ len received = len transmitted
    ∧ ∀ j : nat,
        chars received !! j
        = (if Nat.odd (times (Z.of_nat j) (requested int pos_list))
           then toggle else id) <$> chars transmitted !! j.
Proof.
  intros Hv. apply is_bitstring_spec in Hv as [Hne Hbits].
  destruct (flip_bits_loop_general int transmitted pos_list (chars transmitted))
    as (changed & Hret & Hlen & Hlook); [apply length_chars|].
  exists (join changed). split; [|split; [|split]].
  - unfold flip_bits. cbv zeta. eapply returns_bind; [exact Hret|].
    apply returns_seq; [io_prints|]. apply returns_ret.
  - apply is_bitstring_spec. split.
    + intros E. apply chars_nil in E. rewrite chars_join in E.
      rewrite E, length_chars in Hlen. by destruct transmitted.
    + intros c. rewrite chars_join. intros (j & Hj)%list_elem_of_lookup_1.
      rewrite Hlook in Hj.
      destruct (chars transmitted !! j) as [c0|] eqn:E0; [|done].
      simplify_eq/=. apply iter_toggle_is_bit, Hbits.
      by eapply list_elem_of_lookup_2.
  - by rewrite !len_chars, chars_join, Hlen.
  - intros j. rewrite chars_join, Hlook.
    destruct (chars transmitted !! j) as [c0|] eqn:E0; [|done]. simpl.
    rewrite iter_toggle_parity by (by eapply Hbits, list_elem_of_lookup_2).
    by destruct (Nat.odd _).
Qed.

(** In the multiple-flip branch, entries that are not integers and
    positions outside the frame are skipped, and a position listed several
    times is flipped each time: on a bit string, the bit at [j] ends up
    flipped ('0' for '1' and '1' for '0', hence different from the bit sent)
    when [j] is requested an odd number of times, and is the bit sent when
    [j] is requested an even number of times. *)
Theorem flip_bits_parity (int : string → outcome Z) (transmitted : string)
    (pos_list : list string) :
  is_bitstring transmitted = true →
  ∃ received : string,
    returns (flip_bits int transmitted pos_list) received
    ∧ is_bitstring received = true
    ∧ len received = len transmitted
    ∧ ∀ (j : nat) (c : ascii),
        chars transmitted !! j = Some c →
        (Nat.odd (times (Z.of_nat j) (requested int pos_list)) = true →
         chars received !! j
         = Some (if decide (c = "0"%char) then "1"%char else "0"%char)
         ∧ (c = "0"%char → chars received !! j = Some "1"%char)
         ∧ (c = "1"%char → chars received !! j = Some "0"%char)
         ∧ chars received !! j ≠ Some c)
        ∧ (Nat.odd (times (Z.of_nat j) (requested int pos_list)) = false →
           chars received !! j = Some c).
Proof.
  intros Hv.
  destruct (flip_bits_returns_valid int transmitted pos_list Hv)
    as (received & Hret & Hbits & Hlen & Hlook).
  exists received. split; [done|]. split; [done|]. split; [done|].
  intros j c Hc. rewrite Hlook, Hc. split.
  - intros ->. simpl. unfold toggle. split; [done|]. split; [|split].
    + intros ->. by rewrite decide_True.
    + intros ->. by rewrite decide_False.
    + case_decide; congruence.
  - by intros ->.
Qed.

Lemma flip_bits_parity_witness :
  ∃ received : string,
    returns (flip_bits int_decimal "1101001" ["0"; "x"; "3"; "0"; "12"]) received
    ∧ is_bitstring received = true
    ∧ len received = len "1101001"
    ∧ ∀ (j : nat) (c : ascii),
        chars "1101001" !! j = Some c →
        (Nat.odd (times (Z.of_nat j)
                    (requested int_decimal ["0"; "x"; "3"; "0"; "12"])) = true →
         chars received !! j
         = Some (if decide (c = "0"%char) then "1"%char else "0"%char)
         ∧ (c = "0"%char → chars received !! j = Some "1"%char)
         ∧ (c = "1"%char → chars received !! j = Some "0"%char)
         ∧ chars received !! j ≠ Some c)
        ∧ (Nat.odd (times (Z.of_nat j)
                      (requested int_decimal ["0"; "x"; "3"; "0"; "12"])) = false →
           chars received !! j = Some c).
Proof. by apply (flip_bits_parity int_decimal "1101001"). Defined.

(** ** Burst errors *)

Lemma all_false_zeros (l : list bool) :
  (∀ j, (j < length l)%nat → l !! j = Some false) → l = zeros (length l).
Proof.
  intros H. apply list_eq. intros j. unfold zeros.
  destruct (decide (j < length l)%nat) as [Hj|Hj].
  - rewrite H by done. symmetry. by apply lookup_replicate.
  - rewrite !lookup_ge_None_2; [done|rewrite length_replicate; lia|lia].
Qed.

Section Burst.
Variables (pre : list bool) (z : nat).
Local Abbreviation gt := (pre ++ true :: zeros z).
Local Abbreviation g := (true :: gt).

(** A vector whose 1s lie in a window that starts with a 1 and is no wider
    than the distance between the first and the last 1 of the generator
    never has the zero remainder. *)
Lemma sweep_bits_burst e a m :
  length e = (m + length gt)%nat →
  e !! a = Some true →
  (∀ j, (j < a)%nat → e !! j = Some false) →
  (∀ j, (a + length pre < j)%nat → e !! j ≠ Some true) →
  true ∈ sweep_bits g e m.
Proof.
  intros Hlen Ha Hbefore Hafter.
  assert (length gt = S (length pre + z)) as Hgt.
  { rewrite length_app. simpl. rewrite length_zeros. lia. }
  pose proof (lookup_lt_Some _ _ _ Ha) as Halt.
  assert (e = zeros a ++ true :: drop (S a) e) as He.
  { rewrite <-(take_drop_middle e a true Ha) at 1. f_equal.
    rewrite (all_false_zeros (take a e)).
    - rewrite length_take. f_equal. lia.
    - intros j Hj. rewrite length_take in Hj. rewrite lookup_take_lt by lia.
      apply Hbefore. lia. }
  set (w := drop (S a) e) in *.
  assert (length w = (m + length gt - a - 1)%nat) as Hw
    by (unfold w; rewrite length_drop; lia).
  rewrite He. destruct (decide (m ≤ a)%nat) as [Hma|Hma].
  - replace a with (m + (a - m))%nat at 1 by lia.
    rewrite zeros_app, <-(assoc_L (++)), sweep_bits_zeros_fixed.
    rewrite !elem_of_app, elem_of_cons. auto.
  - replace m with (a + S (m - a - 1))%nat at 1 by lia.
    rewrite sweep_bits_zeros_app, sweep_bits_true.
    apply elem_of_app. right. apply elem_of_cons. right.
    set (c := (m - a - 1)%nat). set (v := sub_front xorb w gt).
    assert (length v = length w) as Hv by (unfold v; by rewrite length_sub_front).
    assert (c + length gt ≤ length v)%nat as Hfit by (unfold c; lia).
    assert (∀ j b, (length pre < j)%nat → v !! j = Some b → b = false) as Hlate.
    { intros j b Hj. unfold v. rewrite (lookup_sub_front_after pre z) by done.
      unfold w. rewrite lookup_drop. intros Hb. destruct b; [|done].
      by apply Hafter in Hb; [|lia]. }
    assert (v !! length pre = Some true) as Hlast.
    { destruct (lookup_lt_is_Some_2 w (length pre)) as [x Hx]; [lia|].
      unfold v. rewrite (lookup_sub_front_last pre z w x Hx).
      destruct x; [|done]. unfold w in Hx. rewrite lookup_drop in Hx.
      by apply Hafter in Hx; [|lia]. }
    destruct (sweep_bits_changes_late pre z c v Hfit) as [E|(j & Hj & Hne)].
    + rewrite E. by eapply list_elem_of_lookup_2.
    + destruct (sweep_bits g v c !! j) as [b|] eqn:Eb.
      * destruct b; [by eapply list_elem_of_lookup_2|].
        apply lookup_lt_Some in Eb as Hlt. rewrite length_sweep_bits in Hlt.
        destruct (lookup_lt_is_Some_2 v j Hlt) as [b Hb].
        rewrite Hb in Hne. apply Hlate in Hb as ->; done.
      * apply lookup_ge_None in Eb. rewrite length_sweep_bits in Eb.
        apply lookup_ge_None in Eb. by rewrite Eb in Hne.
Qed.

End Burst.

Lemma lookup_error_vector offsets size j :
  error_vector offsets size !! j
  = if decide (j < size)%nat then Some (bool_decide (Z.of_nat j ∈ offsets)) else None.
Proof.
  unfold error_vector. rewrite list_lookup_fmap. case_decide.
  - by rewrite lookup_seq_lt.
  - by rewrite lookup_seq_ge by lia.
Qed.

Lemma length_error_vector offsets size : length (error_vector offsets size) = size.
Proof. unfold error_vector. by rewrite length_fmap, length_seq. Qed.

Lemma bits_flipped transmitted (changed : list ascii) offsets :
  is_bitstring transmitted = true →
  (∀ j : nat,
     changed !! j
     = (if decide (Z.of_nat j ∈ offsets) then toggle else id)
         <$> chars transmitted !! j) →
  changed
  = digits (xorl (bits transmitted)
                 (error_vector offsets (String.length transmitted))).
Proof.
  intros Hv Hlook. apply list_eq. intros j. rewrite Hlook.
  unfold digits, xorl. rewrite list_lookup_fmap, lookup_zip_with.
  rewrite lookup_error_vector, <-(digits_bits transmitted) by done.
  unfold digits. rewrite list_lookup_fmap.
  destruct (bits transmitted !! j) as [b|] eqn:Eb; [|done].
  apply lookup_lt_Some in Eb as Hj. rewrite length_bits in Hj.
  cbn [mbind option_bind fmap option_fmap option_map].
  destruct (decide (j < String.length transmitted)%nat); [|lia].
  cbn [mbind option_bind]. case_decide.
  - rewrite bool_decide_eq_true_2 by done. f_equal. by destruct b.
  - rewrite bool_decide_eq_false_2 by done. f_equal. by destruct b.
Qed.

(** The remainder of a frame of the sender damaged by an error vector that
    does not divide exactly has a 1. *)
Lemma remainder_of_damaged_frame data_bits generator_bits gt received e :
  is_bitstring data_bits = true →
  is_bitstring generator_bits = true →
  bits generator_bits = true :: gt →
  gt ≠ [] →
  length e = String.length (frame_of data_bits generator_bits) →
  chars received = digits (xorl (bits (frame_of data_bits generator_bits)) e) →
  true ∈ sweep_bits (true :: gt) e (String.length data_bits) →
  is_bitstring received = true
  ∧ all_zero (remainder_of received generator_bits) = false.
Proof.
  intros Hd Hg Hgt Hne He Hchars Hin.
  pose proof (frame_of_length generator_bits gt Hg Hgt data_bits Hne Hd) as Hlen.
  pose proof (frame_of_bits generator_bits gt Hg Hgt data_bits Hne Hd) as Hbits.
  set (frame := frame_of data_bits generator_bits) in *.
  set (m := String.length data_bits) in *.
  assert (length (bits frame) = (m + length gt)%nat) as Hbl
    by (by rewrite length_bits).
  assert (is_bitstring received = true) as Hvalid.
  { eapply is_bitstring_digits; [|exact Hchars].
    intros E. apply (f_equal length) in E.
    rewrite length_xorl in E by congruence. simpl in E.
    rewrite Hbl in E. destruct gt; [done|simpl in E; lia]. }
  split; [done|].
  rewrite (remainder_of_bits generator_bits gt) by done.
  assert (bits received = xorl (bits frame) e) as ->.
  { rewrite <-(join_chars received), Hchars. apply bits_join_digits. }
  assert (String.length received = (m + length gt)%nat) as ->.
  { rewrite <-length_chars, Hchars. unfold digits.
    rewrite length_fmap, length_xorl by congruence. done. }
  replace (m + length gt - length gt)%nat with m by lia.
  rewrite sweep_bits_xorl.
  assert (sweep_bits (true :: gt) (bits frame) m = zeros (m + length gt)) as ->.
  { rewrite Hbits. unfold m. rewrite <-(length_bits data_bits).
    apply (sweep_bits_frame gt (bits data_bits)). }
  set (X := sweep_bits (true :: gt) e m) in *.
  assert (length X = (m + length gt)%nat) as HX
    by (unfold X; rewrite length_sweep_bits; congruence).
  rewrite <-HX, xorl_zeros_l.
  apply all_zero_false.
  unfold X in *. rewrite sweep_bits_leading in Hin by lia.
  apply elem_of_app in Hin as [Hz|?]; [|done].
  by apply elem_of_zeros in Hz.
Qed.

Lemma generator_trailing_one generator_bits gt :
  bits generator_bits = true :: gt →
  (1 < String.length generator_bits)%nat →
  last (chars generator_bits) = Some "1"%char →
  ∃ pre, gt = pre ++ [true].
Proof.
  intros Hgt Hn Hlast.
  assert (last (bits generator_bits) = Some true) as Hl.
  { unfold bits. by rewrite fmap_last, Hlast. }
  rewrite Hgt in Hl. destruct gt as [|b gt'].
  { apply (f_equal length) in Hgt. rewrite length_bits in Hgt. simpl in Hgt. lia. }
  rewrite last_cons_cons in Hl. by apply last_Some in Hl.
Qed.

(** Burst errors: let the generator have leading bit 1, last bit 1 and at
    least two bits.  If the positions given in the multiple-flip branch are
    distinct positions of the frame that all lie in a window of
    [len(generator) - 1] consecutive positions starting at a flipped one,
    the receiver reports [False] on the damaged frame. *)
Theorem burst_error_detected (int : string → outcome Z)
    (data_bits generator_bits crc transmitted : string)
    (pos_list : list string) (offsets : list Z) (lo : Z)
    (show_sender show_receiver : bool) :
  is_bitstring data_bits = true →
  is_bitstring generator_bits = true →
  leading generator_bits = Some "1"%char →
  last (chars generator_bits) = Some "1"%char →
  1 < len generator_bits →
  result (compute_crc_sender data_bits generator_bits show_sender)
  = Ok (crc, transmitted) →
  Forall2 (λ pos p, int pos = Ok p) pos_list offsets →
  NoDup offsets →
  lo ∈ offsets →
  (∀ p, p ∈ offsets → lo ≤ p < lo + (len generator_bits - 1)
                      ∧ 0 ≤ p < len transmitted) →
  ∃ (received remainder : string),
    returns (flip_bits int transmitted pos_list) received
    ∧ returns (check_crc_receiver received generator_bits show_receiver)
              (false, remainder).
Proof.
  intros Hd Hg Hl Hlast Hn Hsend Hparse Hnd Hlo Hwin.
  apply sender_result in Hsend as [-> ->]; try done.
  destruct (bits_generator _ Hg Hl) as (gt & Hgt & Hgl).
  unfold len in Hn, Hwin.
  destruct (generator_trailing_one _ _ Hgt) as [pre Hpre]; [lia|done|].
  assert (gt ≠ []) as Hne by (rewrite Hpre; by destruct pre).
  assert (length gt = S (length pre)) as Hgtl
    by (rewrite Hpre, length_app; simpl; lia).
  pose proof (frame_of_valid generator_bits gt Hg Hgt _ Hd) as Hf.
  pose proof (frame_of_length generator_bits gt Hg Hgt _ Hne Hd) as Hfl.
  set (frame := frame_of data_bits generator_bits) in *.
  destruct (flip_bits_loop_returns int frame pos_list offsets (chars frame)
              Hparse Hnd)
    as (changed & Hret & Hlen & Hlook); [apply length_chars|].
  apply (bits_flipped frame changed offsets Hf) in Hlook.
  set (e := error_vector offsets (String.length frame)) in *.
  destruct (Hwin lo Hlo) as [_ Hlo0].
  destruct (Z_of_nat_complete lo) as [a ->]; [lia|].
  destruct (remainder_of_damaged_frame data_bits generator_bits gt
              (join changed) e) as [Hvalid Hrem]; try done.
  { apply length_error_vector. }
  { by rewrite chars_join. }
  { rewrite Hpre. apply (sweep_bits_burst pre 0 e a).
    - unfold e. rewrite length_error_vector, Hfl, Hpre. done.
    - unfold e. rewrite lookup_error_vector, decide_True by lia.
      by rewrite bool_decide_eq_true_2.
    - intros j Hj. unfold e. rewrite lookup_error_vector, decide_True by lia.
      rewrite bool_decide_eq_false_2; [done|].
      intros Hin. apply Hwin in Hin. lia.
    - intros j Hj. unfold e. rewrite lookup_error_vector.
      case_decide; [|done]. intros [= Hin%bool_decide_eq_true].
      apply Hwin in Hin. lia. }
  exists (join changed), (remainder_of (join changed) generator_bits).
  split.
  - unfold flip_bits. cbv zeta. eapply returns_bind; [exact Hret|].
    apply returns_seq; [io_prints|]. apply returns_ret.
  - rewrite <-Hrem at 1. by apply check_crc_receiver_returns.
Qed.

Lemma burst_error_detected_witness :
  ∃ (received remainder : string),
    returns (flip_bits int_decimal "1101001" ["4"; "2"; "3"]) received
    ∧ returns (check_crc_receiver received "1011" true) (false, remainder).
Proof.
  apply (burst_error_detected int_decimal "1101" "1011" "001" "1101001"
           ["4"; "2"; "3"] [4; 2; 3] 2 false true); try reflexivity.
  - repeat constructor.
  - by apply (bool_decide_unpack _).
  - by apply (bool_decide_unpack _).
  - intros p Hp. rewrite !elem_of_cons, elem_of_nil in Hp.
    destruct Hp as [->|[->|[->|[]]]]; done.
Defined.

(** ** The single-flip branch *)

Lemma toggle_ne c : toggle c ≠ c.
Proof. unfold toggle. case_decide; congruence. Qed.

Lemma length_flip_at s i : String.length (flip_at s i) = String.length s.
Proof. unfold flip_at. by rewrite <-!length_chars, chars_join, length_alter. Qed.

Lemma flip_at_ne s i : (i < String.length s)%nat → flip_at s i ≠ s.
Proof.
  intros Hi E. apply (f_equal chars) in E. unfold flip_at in E.
  rewrite chars_join in E.
  destruct (lookup_lt_is_Some_2 (chars s) i) as [c Hc]; [by rewrite length_chars|].
  apply (f_equal (.!! i)) in E. rewrite list_lookup_alter_eq, Hc in E.
  simplify_eq/=. by eapply toggle_ne.
Qed.

Lemma flip_at_flip_at s i : is_bitstring s = true → flip_at (flip_at s i) i = s.
Proof.
  intros [_ Hbits]%is_bitstring_spec. apply chars_inj. unfold flip_at.
  rewrite !chars_join, list_alter_alter_eq.
  rewrite <-(list_alter_id id (chars s) i) at 2 by done.
  apply list_alter_ext; [|done]. intros c Hc. simpl.
  apply toggle_toggle, Hbits. by eapply list_elem_of_lookup_2.
Qed.

Lemma is_bitstring_flip_at s i :
  is_bitstring s = true → is_bitstring (flip_at s i) = true.
Proof.
  intros Hv. pose proof Hv as [Hne Hbits]%is_bitstring_spec.
  apply is_bitstring_spec. split.
  - intros E. apply (f_equal String.length) in E.
    rewrite length_flip_at in E. by destruct s.
  - intros c. unfold flip_at. rewrite chars_join.
    intros (j & Hj)%list_elem_of_lookup_1.
    destruct (decide (i = j)) as [<-|Hij].
    + rewrite list_lookup_alter_eq in Hj.
      destruct (chars s !! i); simplify_eq/=. apply toggle_is_bit.
    + rewrite list_lookup_alter_ne in Hj by done.
      by eapply Hbits, list_elem_of_lookup_2.
Qed.

Lemma flip_one_bit_invalid_run (int : string → outcome Z) (transmitted pos : string)
    (out : stdout) :
  (∀ p, int pos = Ok p → ¬ (0 ≤ p < len transmitted)) →
  run (flip_one_bit int transmitted pos) out
  = (Ok transmitted, out ++ ["Invalid position; no flip performed." +:+ newline]).
Proof.
  intros Hbad. unfold flip_one_bit, try_except, run. cbv zeta.
  unfold mbind, io_bind, eval. destruct (int pos) as [p|e] eqn:Hp; [|done].
  rewrite bool_decide_eq_false_2 by (by apply Hbad). done.
Qed.

(** When the position typed is not an integer or is outside the frame, the
    single-flip branch leaves the frame as it is and says so. *)
Theorem flip_one_bit_rejects_position (int : string → outcome Z) (transmitted pos : string)
    (out : stdout) :
  (∀ p, int pos = Ok p → ¬ (0 ≤ p < len transmitted)) →
  run (flip_one_bit int transmitted pos) out
  = (Ok transmitted, out ++ ["Invalid position; no flip performed." +:+ newline]).
Proof. apply flip_one_bit_invalid_run. Qed.

Lemma flip_one_bit_rejects_position_witness :
  run (flip_one_bit int_decimal "1101001" "7") []
  = (Ok "1101001", [] ++ ["Invalid position; no flip performed." +:+ newline]).
Proof.
  apply (flip_one_bit_rejects_position int_decimal "1101001" "7" []).
  intros p [= <-]. by intros [_ ?].
Defined.

(** Flipping the same valid position of a bit string twice gives the frame
    back; one flip always changes the frame. *)
Theorem flip_one_bit_twice (int : string → outcome Z) (transmitted pos : string)
    (p : Z) :
  is_bitstring transmitted = true →
  int pos = Ok p →
  0 ≤ p < len transmitted →
  ∃ received : string,
    returns (flip_one_bit int transmitted pos) received
    ∧ received ≠ transmitted
    ∧ returns (flip_one_bit int received pos) transmitted.
Proof.
  intros Hv Hp Hr. unfold len in Hr.
  destruct (Z_of_nat_complete p) as [i ->]; [lia|].
  exists (flip_at transmitted i).
  split; [apply flip_one_bit_returns; [done|lia]|].
  split; [apply flip_at_ne; lia|].
  rewrite <-(flip_at_flip_at transmitted i) at 2 by done.
  apply flip_one_bit_returns; [done|]. rewrite length_flip_at. lia.
Qed.

Lemma flip_one_bit_twice_witness :
  ∃ received : string,
    returns (flip_one_bit int_decimal "1101001" "3") received
    ∧ received ≠ "1101001"
    ∧ returns (flip_one_bit int_decimal received "3") "1101001".
Proof. by apply (flip_one_bit_twice int_decimal "1101001" "3" 3). Defined.

(** ** [demo_interactive] *)

Lemma returns_unique {A} (m : io A) a a' : returns m a → returns m a' → a = a'.
Proof.
  intros H H'. destruct (H []) as [o E], (H' []) as [o' E']. congruence.
Qed.

Lemma finishes_returns {A} (m : io A) a chunk : finishes m a chunk → returns m a.
Proof. intros H out. destruct (H out) as [out' E]. eauto. Qed.

Lemma finishes_bind {A B} (m : io A) (f : A → io B) a b chunk :
  returns m a → finishes (f a) b chunk → finishes (m ≫= f) b chunk.
Proof.
  intros Hm Hf out. destruct (Hm out) as [out1 H1].
  destruct (Hf out1) as [out2 H2]. exists out2.
  by rewrite run_bind, H1.
Qed.

Lemma finishes_print s : finishes (print s) tt (s +:+ newline).
Proof. intros out. by exists out. Qed.

Lemma returns_input prompt line : returns (input prompt line) line.
Proof. intros out. by eexists. Qed.

Lemma returns_try_except_ValueError {A} (body : io A) handler a :
  returns body a → returns (try_except_ValueError body handler) a.
Proof.
  intros H out. destruct (H out) as [out' E]. exists out'.
  unfold try_except_ValueError, run in *. by rewrite E.
Qed.

Lemma flip_one_bit_total int transmitted pos :
  is_bitstring transmitted = true →
  ∃ received,
    returns (flip_one_bit int transmitted pos) received
    ∧ is_bitstring received = true.
Proof.
  intros Hv.
  destruct (int pos) as [p|e] eqn:Hp.
  - destruct (decide (0 ≤ p < len transmitted)) as [Hr|Hr].
    + unfold len in Hr. destruct (Z_of_nat_complete p) as [i ->]; [lia|].
      exists (flip_at transmitted i).
      split; [apply flip_one_bit_returns; [done|lia]|].
      by apply is_bitstring_flip_at.
    + exists transmitted. split; [|done]. intros out. eexists.
      apply flip_one_bit_invalid_run. intros p' Hp'. congruence.
  - exists transmitted. split; [|done]. intros out. eexists.
    apply flip_one_bit_invalid_run. intros p' Hp'. congruence.
Qed.

Lemma all_zero_remainder_of_frame data_bits generator_bits :
  is_bitstring data_bits = true →
  is_bitstring generator_bits = true →
  leading generator_bits = Some "1"%char →
  all_zero (remainder_of (frame_of data_bits generator_bits) generator_bits)
  = true.
Proof.
  intros Hd Hg Hl. destruct (bits_generator _ Hg Hl) as (gt & Hgt & _).
  pose proof (frame_of_valid generator_bits gt Hg Hgt data_bits Hd) as Hf.
  pose proof (receiver_accepts_frame data_bits generator_bits true Hd Hg Hl) as H1.
  pose proof (check_crc_receiver_returns generator_bits Hg Hl _ true Hf) as H2.
  by pose proof (returns_unique _ _ _ H1 H2) as [= ->].
Qed.

Section DemoFacts.
Variable int : string → outcome Z.
Variable strip : string → string.
Variable split : string → list string.
Variable typed : nat → string.

Local Abbreviation choice :=
  (if decide (strip (typed 2%nat) = "") then "1" else strip (typed 2%nat)).
Local Abbreviation verdict received generator_bits :=
  (newline +:+ (if all_zero (remainder_of received generator_bits)
                then "FINAL RESULT: No error detected by CRC."
                else "FINAL RESULT: Error detected by CRC.") +:+ newline).

Lemma demo_channel_finishes generator_bits transmitted :
  is_bitstring generator_bits = true →
  leading generator_bits = Some "1"%char →
  is_bitstring transmitted = true →
  ∃ received,
    is_bitstring received = true
    ∧ (choice = "2" →
       returns (flip_one_bit int transmitted (strip (typed 3%nat))) received)
    ∧ (choice ≠ "2" → choice = "3" →
       returns (flip_bits int transmitted (split (strip (typed 3%nat)))) received)
    ∧ (choice ≠ "2" → choice ≠ "3" → received = transmitted)
    ∧ finishes (demo_channel int strip split typed generator_bits transmitted) tt
               (verdict received generator_bits).
Proof.
  intros Hg Hl Ht.
  assert (∀ received m,
            is_bitstring received = true → returns m received →
            finishes (received ← m;
                      '(ok, rem) ← check_crc_receiver received generator_bits true;
                      if ok : bool
                      then print (newline +:+ "FINAL RESULT: No error detected by CRC.")
                      else print (newline +:+ "FINAL RESULT: Error detected by CRC."))
                     tt (verdict received generator_bits)) as Hrest.
  { intros received m Hv Hm. eapply finishes_bind; [exact Hm|].
    eapply finishes_bind; [by apply check_crc_receiver_returns|]. cbv beta iota.
    destruct (all_zero _).
    - rewrite <-append_assoc. apply finishes_print.
    - rewrite <-append_assoc. apply finishes_print. }
  unfold demo_channel. cbv zeta.
  destruct (decide (choice = "2")) as [E2|E2]; [|destruct (decide (choice = "3")) as [E3|E3]].
  - destruct (flip_one_bit_total int transmitted (strip (typed 3%nat)) Ht)
      as (received & Hret & Hv).
    exists received. split; [done|]. split; [done|].
    split; [done|]. split; [done|].
    do 4 (eapply finishes_bind; [apply returns_print|]).
    eapply finishes_bind; [apply returns_input|]. cbv beta.
    rewrite (decide_True _ _ E2).
    apply Hrest; [done|].
    eapply returns_bind; [apply returns_input|exact Hret].
  - destruct (flip_bits_returns_valid int transmitted
                (split (strip (typed 3%nat))) Ht) as (received & Hret & Hv & _).
    exists received. split; [done|]. split; [done|].
    split; [done|]. split; [done|].
    do 4 (eapply finishes_bind; [apply returns_print|]).
    eapply finishes_bind; [apply returns_input|]. cbv beta.
    rewrite (decide_False _ _ E2), (decide_True _ _ E3).
    apply Hrest; [done|].
    eapply returns_bind; [apply returns_input|exact Hret].
  - exists transmitted. split; [done|]. split; [done|].
    split; [done|]. split; [done|].
    do 4 (eapply finishes_bind; [apply returns_print|]).
    eapply finishes_bind; [apply returns_input|]. cbv beta.
    rewrite (decide_False _ _ E2), (decide_False _ _ E3).
    apply Hrest; [done|].
    apply returns_seq; [apply returns_print|apply returns_ret].
Qed.

End DemoFacts.

Lemma run_print_seq {B} s (k : io B) out :
  run (print s;; k) out = run k (out ++ [s +:+ newline]).
Proof. reflexivity. Qed.

Lemma run_input_bind {B} prompt line (k : string → io B) out :
  run (l ← input prompt line; k l) out = run (k line) (out ++ [prompt]).
Proof. reflexivity. Qed.

Lemma run_try_except_ValueError {A} (body : io A) handler msg out out' :
  run body out = (Raise (ValueError msg), out') →
  run (try_except_ValueError body handler) out = run (handler msg) out'.
Proof. intros H. unfold try_except_ValueError, run in *. by rewrite H. Qed.

Section DemoTheorems.
Variable int : string → outcome Z.
Variable strip : string → string.
Variable split : string → list string.
Variable typed : nat → string.

Local Abbreviation data_bits := (strip (typed 0%nat)).
Local Abbreviation generator_bits :=
  (if decide (strip (typed 1%nat) = "") then default_generator
   else strip (typed 1%nat)).
Local Abbreviation demo := (demo_interactive int strip split typed).

Lemma demo_interactive_sent chunk :
  is_bitstring data_bits = true →
  is_bitstring generator_bits = true →
  leading generator_bits = Some "1"%char →
  finishes (demo_channel int strip split typed generator_bits
              (frame_of data_bits generator_bits)) tt chunk →
  finishes demo tt chunk.
Proof.
  intros Hd Hg Hl Hch. unfold demo_interactive. cbv zeta.
  do 2 (eapply finishes_bind; [apply returns_print|]).
  eapply finishes_bind; [apply returns_input|].
  do 2 (eapply finishes_bind; [apply returns_print|]).
  eapply finishes_bind; [apply returns_input|]. cbv beta.
  eapply finishes_bind.
  { apply returns_try_except_ValueError.
    eapply returns_bind; [by apply compute_crc_sender_returns|apply returns_ret]. }
  exact Hch.
Qed.

Lemma demo_interactive_rejected out :
  ¬ (is_bitstring data_bits = true ∧ is_bitstring generator_bits = true
     ∧ leading generator_bits = Some "1"%char) →
  ∃ e,
    run (compute_crc_sender data_bits generator_bits true) [] = (Raise e, [])
    ∧ run demo out
      = (Ok tt,
         out ++ ["=== CRC-CCITT (16-bit) Demo ===" +:+ newline;
                 "Enter data bits (binary), e.g. 11010011101100" +:+ newline;
                 "Data bits: ";
                 (newline +:+ "Press Enter to use default CRC-CCITT generator:")
                   +:+ newline;
                 ("  default (CRC-CCITT) = " +:+ default_generator) +:+ newline;
                 "Generator bits (binary) [default]: ";
                 ("Input error: " +:+ exn_text e) +:+ newline]).
Proof.
  intros Hbad.
  pose proof (λ o, proj1 (sender_receiver_reject_run data_bits generator_bits
                            true o Hbad)) as Hrun.
  cbv beta zeta in Hrun.
  set (rej := if is_bitstring data_bits then _ else _) in Hrun.
  assert (∃ msg, rej = ValueError msg) as [msg Hmsg].
  { unfold rej, validation_error, generator_error.
    destruct (is_bitstring data_bits); [|by eexists].
    destruct (is_bitstring _); by eexists. }
  exists rej. split; [apply Hrun|].
  unfold demo_interactive. cbv zeta.
  rewrite !run_print_seq, run_input_bind, !run_print_seq, run_input_bind.
  rewrite run_bind.
  erewrite run_try_except_ValueError; [|by rewrite run_bind, Hrun, Hmsg].
  rewrite Hmsg, run_print_seq. cbn [exn_text].
  by rewrite <-!(assoc_L (++)).
Qed.

End DemoTheorems.

(** In a run in which every call of [input] returns a line,
    [demo_interactive] ends normally whatever the lines are and whatever the
    conversions make of them, and the last thing it prints tells how: the
    verdict of the receiver, "No error detected" or "Error detected", when the
    sender accepts the data and the generator typed, and the line
    "Input error: " with the text of the exception when it rejects them. *)
Theorem demo_interactive_outcomes (int : string → outcome Z)
    (strip : string → string) (split : string → list string)
    (typed : nat → string) (out : stdout) :
  let data_bits := strip (typed 0%nat) in
  let generator_bits :=
    if decide (strip (typed 1%nat) = "") then default_generator
    else strip (typed 1%nat) in
  let accepted :=
    is_bitstring data_bits = true ∧ is_bitstring generator_bits = true
    ∧ leading generator_bits = Some "1"%char in
  ∃ (out' : stdout) (chunk : string),
    run (demo_interactive int strip split typed) out = (Ok tt, out' ++ [chunk])
    ∧ ((accepted
        ∧ (chunk = (newline +:+ "FINAL RESULT: No error detected by CRC.")
                     +:+ newline
           ∨ chunk = (newline +:+ "FINAL RESULT: Error detected by CRC.")
                       +:+ newline))
       ∨ (¬ accepted
          ∧ ∃ e, run (compute_crc_sender data_bits generator_bits true) []
                 = (Raise e, [])
                 ∧ chunk = ("Input error: " +:+ exn_text e) +:+ newline)).
Proof.
  intros data_bits generator_bits accepted.
  destruct (decide accepted) as [(Hd & Hg & Hl)|Hbad].
  - destruct (bits_generator _ Hg Hl) as (gt & Hgt & _).
    pose proof (frame_of_valid generator_bits gt Hg Hgt _ Hd) as Hf.
    destruct (demo_channel_finishes int strip split typed generator_bits
                (frame_of data_bits generator_bits) Hg Hl Hf)
      as (received & _ & _ & _ & _ & Hfin).
    apply (demo_interactive_sent int strip split typed _ Hd Hg Hl) in Hfin.
    destruct (Hfin out) as (out' & Hrun). exists out'.
    destruct (all_zero (remainder_of received generator_bits)).
    + eexists. split; [exact Hrun|]. left. split; [done|]. by left.
    + eexists. split; [exact Hrun|]. left. split; [done|]. by right.
  - destruct (demo_interactive_rejected int strip split typed out Hbad)
      as (e & Hraise & Hrun).
    exists (out ++ ["=== CRC-CCITT (16-bit) Demo ===" +:+ newline;
                    "Enter data bits (binary), e.g. 11010011101100" +:+ newline;
                    "Data bits: ";
                    (newline +:+ "Press Enter to use default CRC-CCITT generator:")
                      +:+ newline;
                    ("  default (CRC-CCITT) = " +:+ default_generator) +:+ newline;
                    "Generator bits (binary) [default]: "]),
           (("Input error: " +:+ exn_text e) +:+ newline).
    split; [by rewrite Hrun, <-(assoc_L (++))|].
    right. split; [done|]. by exists e.
Qed.

(** When the data or the generator typed is rejected by the sender, the
    demonstration prints its banner, the prompts and the line
    "Input error: " followed by the text of the exception, then stops: the
    receiver is not run. *)
Theorem demo_interactive_input_error (int : string → outcome Z)
    (strip : string → string) (split : string → list string)
    (typed : nat → string) (out : stdout) :
  let data_bits := strip (typed 0%nat) in
  let generator_bits :=
    if decide (strip (typed 1%nat) = "") then default_generator
    else strip (typed 1%nat) in
  ¬ (is_bitstring data_bits = true ∧ is_bitstring generator_bits = true
     ∧ leading generator_bits = Some "1"%char) →
  ∃ e,
    run (compute_crc_sender data_bits generator_bits true) [] = (Raise e, [])
    ∧ run (demo_interactive int strip split typed) out
      = (Ok tt,
         out ++ ["=== CRC-CCITT (16-bit) Demo ===" +:+ newline;
                 "Enter data bits (binary), e.g. 11010011101100" +:+ newline;
                 "Data bits: ";
                 (newline +:+ "Press Enter to use default CRC-CCITT generator:")
                   +:+ newline;
                 ("  default (CRC-CCITT) = " +:+ default_generator) +:+ newline;
                 "Generator bits (binary) [default]: ";
                 ("Input error: " +:+ exn_text e) +:+ newline]).
Proof. intros data_bits generator_bits. apply demo_interactive_rejected. Qed.

(** When the inputs are accepted and the choice typed is neither "2" nor
    "3", the frame is sent as it is and the last line printed is
    "FINAL RESULT: No error detected by CRC.". *)
Theorem demo_interactive_clean (int : string → outcome Z)
    (strip : string → string) (split : string → list string)
    (typed : nat → string) :
  let data_bits := strip (typed 0%nat) in
  let generator_bits :=
    if decide (strip (typed 1%nat) = "") then default_generator
    else strip (typed 1%nat) in
  let choice :=
    if decide (strip (typed 2%nat) = "") then "1" else strip (typed 2%nat) in
  is_bitstring data_bits = true →
  is_bitstring generator_bits = true →
  leading generator_bits = Some "1"%char →
  choice ≠ "2" → choice ≠ "3" →
  finishes (demo_interactive int strip split typed) tt
           ((newline +:+ "FINAL RESULT: No error detected by CRC.") +:+ newline).
Proof.
  intros data_bits generator_bits choice Hd Hg Hl H2 H3.
  destruct (bits_generator _ Hg Hl) as (gt & Hgt & _).
  pose proof (frame_of_valid generator_bits gt Hg Hgt _ Hd) as Hf.
  destruct (demo_channel_finishes int strip split typed generator_bits
              (frame_of data_bits generator_bits) Hg Hl Hf)
    as (received & _ & _ & _ & Hsame & Hfin).
  rewrite (Hsame H2 H3), all_zero_remainder_of_frame in Hfin by done.
  by apply demo_interactive_sent.
Qed.

Lemma demo_interactive_clean_witness :
  finishes (demo_interactive int_decimal (λ s, s) String.words
              (λ k, nth k ["1101"; "1011"; ""] ""))
           tt
           ((newline +:+ "FINAL RESULT: No error detected by CRC.") +:+ newline).
Proof.
  by apply (demo_interactive_clean int_decimal (λ s, s) String.words
              (λ k, nth k ["1101"; "1011"; ""] "")).
Defined.

(** When the inputs are accepted, the generator has at least two 1s, the
    choice typed is "2" and the position typed is a position of the frame,
    the last line printed is "FINAL RESULT: Error detected by CRC.". *)
Theorem demo_interactive_single_flip (int : string → outcome Z)
    (strip : string → string) (split : string → list string)
    (typed : nat → string) (p : Z) :
  let data_bits := strip (typed 0%nat) in
  let generator_bits :=
    if decide (strip (typed 1%nat) = "") then default_generator
    else strip (typed 1%nat) in
  let choice :=
    if decide (strip (typed 2%nat) = "") then "1" else strip (typed 2%nat) in
  is_bitstring data_bits = true →
  is_bitstring generator_bits = true →
  leading generator_bits = Some "1"%char →
  (2 ≤ ones generator_bits)%nat →
  choice = "2" →
  int (strip (typed 3%nat)) = Ok p →
  0 ≤ p < len data_bits + len generator_bits - 1 →
  finishes (demo_interactive int strip split typed) tt
           ((newline +:+ "FINAL RESULT: Error detected by CRC.") +:+ newline).
Proof.
  intros data_bits generator_bits choice Hd Hg Hl Hones Hc Hp Hr.
  destruct (bits_generator _ Hg Hl) as (gt & Hgt & Hgl).
  pose proof (ones_generator _ _ Hgt Hones) as Hin.
  assert (gt ≠ []) as Hne by (intros ->; by apply elem_of_nil in Hin).
  pose proof (frame_of_valid generator_bits gt Hg Hgt _ Hd) as Hf.
  pose proof (frame_of_length generator_bits gt Hg Hgt _ Hne Hd) as Hfl.
  destruct (demo_channel_finishes int strip split typed generator_bits
              (frame_of data_bits generator_bits) Hg Hl Hf)
    as (received & _ & Hflip & _ & _ & Hfin).
  specialize (Hflip Hc). unfold len in Hr.
  destruct (Z_of_nat_complete p) as [i ->]; [lia|].
  assert (i < String.length (frame_of data_bits generator_bits))%nat as Hi by lia.
  pose proof (flip_one_bit_returns int _ _ i Hp Hi) as Hflip'.
  pose proof (returns_unique _ _ _ Hflip Hflip') as ->.
  destruct (remainder_of_flipped_frame data_bits generator_bits gt i)
    as [_ Hrem]; try done.
  rewrite Hrem in Hfin. by apply demo_interactive_sent.
Qed.

Lemma demo_interactive_single_flip_witness :
  finishes (demo_interactive int_decimal (λ s, s) String.words
              (λ k, nth k ["1101"; ""; "2"; "19"] ""))
           tt
           ((newline +:+ "FINAL RESULT: Error detected by CRC.") +:+ newline).
Proof.
  apply (demo_interactive_single_flip int_decimal (λ s, s) String.words
           (λ k, nth k ["1101"; ""; "2"; "19"] "") 19); try reflexivity; try done.
  unfold ones. simpl. lia.
Defined.

Lemma demo_interactive_input_error_witness :
  ∃ e,
    run (compute_crc_sender "102" default_generator true) [] = (Raise e, [])
    ∧ run (demo_interactive int_decimal (λ s, s) String.words
             (λ k, nth k ["102"] "")) []
      = (Ok tt,
         [] ++ ["=== CRC-CCITT (16-bit) Demo ===" +:+ newline;
                "Enter data bits (binary), e.g. 11010011101100" +:+ newline;
                "Data bits: ";
                (newline +:+ "Press Enter to use default CRC-CCITT generator:")
                  +:+ newline;
                ("  default (CRC-CCITT) = " +:+ default_generator) +:+ newline;
                "Generator bits (binary) [default]: ";
                ("Input error: " +:+ exn_text e) +:+ newline]).
Proof.
  apply (demo_interactive_input_error int_decimal (λ s, s) String.words
           (λ k, nth k ["102"] "") []).
  by intros [? _].
Defined.

(** * Properties of [leakyBucket.py] *)

Section LeakyBucket.
Variables bucket_capacity output_rate : Z.

Lemma arrival_loop incoming time time0 stored0 out :
  run (for_each (enumerate time incoming) (arrival bucket_capacity output_rate)
                (time0, stored0)) out
  = (Ok (match incoming with
         | [] => time0
         | _ => Some (time + Z.of_nat (length incoming) - 1)
         end,
         (arrival_rows bucket_capacity output_rate time stored0 incoming).2),
     out ++ (render_row
               <$> (arrival_rows bucket_capacity output_rate time stored0 incoming).1)).
Proof.
  revert time time0 stored0 out.
  induction incoming as [|packets rest IH]; intros time time0 stored0 out.
  { simpl. by rewrite app_nil_r. }
  cbn [enumerate for_each arrival_rows]. rewrite run_bind.
  unfold arrival at 1. cbn [snd].
  destruct (decide (packets + stored0 > bucket_capacity)) as [Hover|Hover].
  - rewrite run_print_seq. unfold mret, io_ret, run at 1. rewrite IH.
    destruct (arrival_rows _ _ (time + 1) _ rest) as [rows final] eqn:E.
    cbn [fst snd fmap list_fmap].
    replace (match rest with
             | [] => Some time
             | _ => Some (time + 1 + Z.of_nat (length rest) - 1)
             end)
      with (Some (time + Z.of_nat (length (packets :: rest)) - 1))
      by (destruct rest; cbn [length]; f_equal; lia).
    by rewrite <-(assoc_L (++)).
  - rewrite run_print_seq. unfold mret, io_ret, run at 1. rewrite IH.
    destruct (arrival_rows _ _ (time + 1) _ rest) as [rows final] eqn:E.
    cbn [fst snd fmap list_fmap].
    replace (match rest with
             | [] => Some time
             | _ => Some (time + 1 + Z.of_nat (length rest) - 1)
             end)
      with (Some (time + Z.of_nat (length (packets :: rest)) - 1))
      by (destruct rest; cbn [length]; f_equal; lia).
    by rewrite <-(assoc_L (++)).
Qed.

Lemma drain_finishes fuel time stored out :
  1 ≤ output_rate → stored ≤ Z.of_nat fuel →
  run (drain fuel output_rate (Some time) stored) out
  = (Ok Done, out ++ (render_row <$> drain_rows fuel output_rate time stored)).
Proof.
  intros Hrate. revert time stored out.
  induction fuel as [|fuel IH]; intros time stored out Hfuel.
  { cbn [drain drain_rows]. rewrite decide_False by lia.
    simpl. by rewrite app_nil_r. }
  cbn [drain drain_rows].
  destruct (decide (stored > 0)) as [Hpos|Hpos].
  - rewrite run_print_seq, IH by lia.
    cbn [fmap list_fmap]. by rewrite <-(assoc_L (++)).
  - simpl. by rewrite app_nil_r.
Qed.

Lemma drain_empty fuel time stored out :
  stored ≤ 0 → run (drain fuel output_rate time stored) out = (Ok Done, out).
Proof.
  intros H. destruct fuel; cbn [drain]; by rewrite decide_False by lia.
Qed.

Lemma drain_rows_empty fuel time stored :
  stored ≤ 0 → drain_rows fuel output_rate time stored = [].
Proof.
  intros H. destruct fuel; cbn [drain_rows]; [done|].
  by rewrite decide_False by lia.
Qed.

Lemma drain_diverges fuel time stored out :
  output_rate ≤ 0 → 0 < stored →
  (run (drain fuel output_rate (Some time) stored) out).1 = Ok OutOfFuel.
Proof.
  intros Hrate. revert time stored out.
  induction fuel as [|fuel IH]; intros time stored out Hpos.
  { cbn [drain]. by rewrite decide_True by lia. }
  cbn [drain]. rewrite decide_True by lia.
  rewrite run_print_seq. apply IH. lia.
Qed.

Lemma drain_bound fuel time stored out name :
  (run (drain fuel output_rate (Some time) stored) out).1
  ≠ Ok (UnboundLocalError name).
Proof.
  revert time stored out. induction fuel as [|fuel IH]; intros time stored out.
  { cbn [drain]. by case_decide. }
  cbn [drain]. case_decide; [|done]. rewrite run_print_seq. apply IH.
Qed.

Lemma arrival_rows_within incoming time stored :
  0 ≤ bucket_capacity → 1 ≤ output_rate →
  Forall (λ p, 0 ≤ p) incoming → 0 ≤ stored ≤ bucket_capacity →
  Forall (row_within bucket_capacity output_rate)
         (arrival_rows bucket_capacity output_rate time stored incoming).1
  ∧ 0 ≤ (arrival_rows bucket_capacity output_rate time stored incoming).2
      ≤ bucket_capacity.
Proof.
  intros Hcap Hrate Hin. revert time stored.
  induction Hin as [|packets rest Hp Hrest IH]; intros time stored Hs.
  { simpl. split; [constructor|done]. }
  cbn [arrival_rows].
  set (filled := if decide (packets + stored > bucket_capacity)
                 then bucket_capacity else stored + packets).
  assert (0 ≤ filled ≤ bucket_capacity) as Hf
    by (unfold filled; case_decide; lia).
  set (transmitted := Z.min filled output_rate).
  assert (0 ≤ transmitted ≤ filled ∧ transmitted ≤ output_rate) as Ht
    by (unfold transmitted; lia).
  destruct (IH (time + 1) (filled - transmitted)) as [Hrows Hfinal]; [lia|].
  destruct (arrival_rows _ _ (time + 1) _ rest) as [rows final].
  cbn [fst snd] in *. split; [|done]. constructor; [|done].
  unfold row_within. cbn. split; [lia|]. split; [lia|]. split; [done|].
  split; [lia|]. intros d [= <-]. case_decide; lia.
Qed.

Lemma arrival_rows_conservation incoming time stored :
  stored + total incoming
  = total (omap row_dropped
             (arrival_rows bucket_capacity output_rate time stored incoming).1)
    + total (row_transmitted
               <$> (arrival_rows bucket_capacity output_rate time stored incoming).1)
    + (arrival_rows bucket_capacity output_rate time stored incoming).2.
Proof.
  revert time stored. induction incoming as [|packets rest IH]; intros time stored.
  { simpl. lia. }
  cbn [arrival_rows].
  set (filled := if decide (packets + stored > bucket_capacity)
                 then bucket_capacity else stored + packets).
  set (dropped := if decide (packets + stored > bucket_capacity)
                  then packets + stored - bucket_capacity else 0).
  assert (packets + stored = dropped + filled) as Hsplit
    by (unfold dropped, filled; case_decide; lia).
  set (transmitted := Z.min filled output_rate).
  specialize (IH (time + 1) (filled - transmitted)).
  destruct (arrival_rows _ _ (time + 1) _ rest) as [rows final].
  cbn [fst snd omap list_omap fmap list_fmap row_dropped row_transmitted] in *.
  unfold total in *. cbn [foldr]. clearbody filled dropped transmitted. lia.
Qed.

Lemma arrival_rows_columns incoming time stored :
  row_time <$> (arrival_rows bucket_capacity output_rate time stored incoming).1
  = (λ i : nat, time + Z.of_nat i) <$> seq 0 (length incoming)
  ∧ row_packets <$> (arrival_rows bucket_capacity output_rate time stored incoming).1
    = Some <$> incoming.
Proof.
  revert time stored. induction incoming as [|packets rest IH]; intros time stored.
  { done. }
  cbn [arrival_rows].
  specialize (IH (time + 1)
                 ((if decide (packets + stored > bucket_capacity)
                   then bucket_capacity else stored + packets)
                  - Z.min (if decide (packets + stored > bucket_capacity)
                           then bucket_capacity else stored + packets)
                          output_rate)).
  destruct (arrival_rows _ _ (time + 1) _ rest) as [rows final].
  cbn [fst snd fmap list_fmap row_time row_packets length seq] in *.
  destruct IH as [-> ->]. split; [|done].
  f_equal; [lia|]. rewrite <-fmap_S_seq, <-list_fmap_compose.
  apply list_fmap_ext. intros i x _. simpl. lia.
Qed.

Lemma drain_rows_within fuel time stored :
  1 ≤ output_rate → 0 ≤ stored ≤ bucket_capacity →
  Forall (row_within bucket_capacity output_rate)
         (drain_rows fuel output_rate time stored).
Proof.
  intros Hrate. revert time stored.
  induction fuel as [|fuel IH]; intros time stored Hs; [constructor|].
  cbn [drain_rows]. case_decide; [|constructor].
  constructor; [|apply IH; lia].
  unfold row_within. cbn. split; [lia|]. split; [lia|]. split; [done|].
  split; [lia|]. done.
Qed.

Lemma drain_rows_totals fuel time stored :
  1 ≤ output_rate → 0 ≤ stored ≤ Z.of_nat fuel →
  total (row_transmitted <$> drain_rows fuel output_rate time stored) = stored
  ∧ omap row_dropped (drain_rows fuel output_rate time stored) = []
  ∧ (∀ r, last (drain_rows fuel output_rate time stored) = Some r → row_left r = 0).
Proof.
  intros Hrate. revert time stored.
  induction fuel as [|fuel IH]; intros time stored Hs.
  { simpl. split; [lia|done]. }
  cbn [drain_rows]. case_decide as Hpos.
  2:{ simpl. split; [lia|done]. }
  destruct (IH (time + 1) (stored - Z.min stored output_rate))
    as (Ht & Hd & Hl); [lia|].
  cbn [fmap list_fmap omap list_omap row_dropped row_transmitted total foldr].
  fold (total (row_transmitted
                 <$> drain_rows fuel output_rate (time + 1)
                       (stored - Z.min stored output_rate))).
  rewrite Ht, Hd. split; [lia|]. split; [done|].
  intros r. destruct (drain_rows fuel _ _ _) as [|r' rows] eqn:E.
  - intros [= <-]. cbn.
    destruct (decide (stored - Z.min stored output_rate > 0)) as [Hrem|Hrem]; [|lia].
    destruct fuel; [lia|]. cbn [drain_rows] in E.
    by rewrite decide_True in E by done.
  - rewrite last_cons_cons. apply Hl.
Qed.

Lemma drain_rows_columns fuel time stored :
  row_time <$> drain_rows fuel output_rate time stored
  = (λ i : nat, time + 1 + Z.of_nat i)
      <$> seq 0 (length (drain_rows fuel output_rate time stored))
  ∧ row_packets <$> drain_rows fuel output_rate time stored
    = replicate (length (drain_rows fuel output_rate time stored)) None.
Proof.
  revert time stored. induction fuel as [|fuel IH]; intros time stored; [done|].
  cbn [drain_rows]. case_decide; [|done].
  cbn [fmap list_fmap length seq replicate row_time row_packets].
  destruct (IH (time + 1) (stored - Z.min stored output_rate)) as [-> ->].
  split; [|done].
  f_equal; [lia|].
  rewrite <-fmap_S_seq, <-list_fmap_compose.
  apply list_fmap_ext. intros i x _. simpl. lia.
Qed.

End LeakyBucket.

Lemma arrival_rows_last bucket_capacity output_rate incoming time stored r :
  last (arrival_rows bucket_capacity output_rate time stored incoming).1 = Some r →
  row_left r = (arrival_rows bucket_capacity output_rate time stored incoming).2.
Proof.
  revert time stored. induction incoming as [|packets rest IH]; intros time stored.
  { done. }
  cbn [arrival_rows].
  specialize (IH (time + 1)
                 ((if decide (packets + stored > bucket_capacity)
                   then bucket_capacity else stored + packets)
                  - Z.min (if decide (packets + stored > bucket_capacity)
                           then bucket_capacity else stored + packets)
                          output_rate)).
  destruct rest as [|packets' rest'].
  - cbn. by intros [= <-].
  - destruct (arrival_rows _ _ (time + 1) _ (packets' :: rest')) as [rows final] eqn:E.
    cbn [fst snd] in *. destruct rows as [|r' rows'].
    + cbn [arrival_rows] in E. destruct (arrival_rows _ _ _ _ rest'). done.
    + by rewrite last_cons_cons.
Qed.

Lemma arrival_rows_length bucket_capacity output_rate incoming time stored :
  length (arrival_rows bucket_capacity output_rate time stored incoming).1
  = length incoming.
Proof.
  rewrite <-(length_fmap row_time).
  rewrite (proj1 (arrival_rows_columns _ _ _ _ _)).
  by rewrite length_fmap, length_seq.
Qed.

Lemma arrival_rows_stuck bucket_capacity output_rate incoming time stored :
  output_rate ≤ 0 → 1 ≤ bucket_capacity →
  Forall (λ p, 0 ≤ p) incoming → 0 ≤ stored →
  1 ≤ stored ∨ Exists (λ p, 1 ≤ p) incoming →
  1 ≤ (arrival_rows bucket_capacity output_rate time stored incoming).2.
Proof.
  intros Hrate Hcap Hin. revert time stored.
  induction Hin as [|packets rest Hp Hrest IH]; intros time stored Hs Hsome.
  { simpl. destruct Hsome as [?|Hex]; [done|]. by apply Exists_nil in Hex. }
  cbn [arrival_rows].
  set (filled := if decide (packets + stored > bucket_capacity)
                 then bucket_capacity else stored + packets).
  assert (0 ≤ filled) as Hf by (unfold filled; case_decide; lia).
  assert (1 ≤ stored ∨ 1 ≤ packets → 1 ≤ filled) as Hf1
    by (unfold filled; case_decide; lia).
  specialize (IH (time + 1) (filled - Z.min filled output_rate)).
  destruct (arrival_rows _ _ (time + 1) _ rest) as [rows final].
  cbn [snd] in *. apply IH; [lia|].
  destruct Hsome as [?|Hex]; [left; lia|].
  apply Exists_cons in Hex as [?|?]; [left; lia|by right].
Qed.

Lemma leaky_bucket_run fuel bucket_capacity output_rate incoming out :
  1 ≤ output_rate →
  (arrival_rows bucket_capacity output_rate 1 0 incoming).2 ≤ Z.of_nat fuel →
  run (leaky_bucket fuel bucket_capacity output_rate incoming) out
  = (Ok Done,
     out ++ table (table_rows fuel bucket_capacity output_rate incoming)).
Proof.
  intros Hrate Hfuel. unfold leaky_bucket, table, table_rows. cbv zeta.
  rewrite !run_print_seq, run_bind, arrival_loop.
  destruct (arrival_rows bucket_capacity output_rate 1 0 incoming)
    as [rows stored] eqn:E.
  cbn [fst snd] in *. rewrite run_bind. destruct incoming as [|p rest].
  - simpl in E. simplify_eq. rewrite drain_empty, drain_rows_empty by done.
    rewrite run_print_seq. unfold mret, io_ret, run.
    cbn [fmap list_fmap app]. by rewrite <-!(assoc_L (++)).
  - replace (1 + Z.of_nat (length (p :: rest)) - 1)
      with (Z.of_nat (length (p :: rest))) by lia.
    rewrite drain_finishes by done.
    rewrite run_print_seq. unfold mret, io_ret, run.
    rewrite fmap_app. by rewrite <-!(assoc_L (++)).
Qed.

Section LeakyBucketTable.
Variables (fuel : nat) (bucket_capacity output_rate : Z) (incoming : list Z).
Hypothesis capacity_nonneg : 0 ≤ bucket_capacity.
Hypothesis rate_positive : 1 ≤ output_rate.
Hypothesis packets_nonneg : Forall (λ p, 0 ≤ p) incoming.
Hypothesis enough_fuel : bucket_capacity ≤ Z.of_nat fuel.

Local Abbreviation rows := (table_rows fuel bucket_capacity output_rate incoming).

Lemma arrival_final_bounds :
  0 ≤ (arrival_rows bucket_capacity output_rate 1 0 incoming).2 ≤ bucket_capacity.
Proof. by apply arrival_rows_within. Qed.

Lemma leaky_bucket_prints out :
  run (leaky_bucket fuel bucket_capacity output_rate incoming) out
  = (Ok Done, out ++ table rows).
Proof.
  apply leaky_bucket_run; [done|]. pose proof arrival_final_bounds. lia.
Qed.

Lemma table_rows_columns :
  row_time <$> rows = (λ i : nat, 1 + Z.of_nat i) <$> seq 0 (length rows)
  ∧ row_packets <$> rows
    = (Some <$> incoming) ++ replicate (length rows - length incoming) None.
Proof.
  unfold table_rows.
  pose proof (arrival_rows_columns bucket_capacity output_rate incoming 1 0)
    as [Ht Hp].
  pose proof (arrival_rows_length bucket_capacity output_rate incoming 1 0) as Hl.
  destruct (arrival_rows bucket_capacity output_rate 1 0 incoming)
    as [arows stored].
  cbn [fst snd] in *.
  destruct (drain_rows_columns output_rate fuel (Z.of_nat (length incoming)) stored)
    as [Ht' Hp'].
  rewrite !fmap_app, Ht, Hp, Ht', Hp', length_app, Hl. split.
  - rewrite seq_app, fmap_app. f_equal. cbn [Nat.add].
    set (n := length (drain_rows _ _ _ _)).
    replace (seq (length incoming) n)
      with (Nat.add (length incoming) <$> seq 0 n)
      by (rewrite fmap_add_seq; f_equal; lia).
    rewrite <-list_fmap_compose.
    apply list_fmap_ext. intros i x _. simpl. lia.
  - do 2 f_equal. lia.
Qed.

Lemma table_rows_within : Forall (row_within bucket_capacity output_rate) rows.
Proof.
  unfold table_rows.
  pose proof (arrival_rows_within bucket_capacity output_rate incoming 1 0)
    as [Hrows Hfinal]; try done.
  destruct (arrival_rows bucket_capacity output_rate 1 0 incoming)
    as [arows stored].
  cbn [fst snd] in *. apply Forall_app. split; [done|].
  by apply drain_rows_within.
Qed.

Lemma table_rows_conservation :
  total incoming
  = total (omap row_dropped rows) + total (row_transmitted <$> rows)
  ∧ ∀ r, last rows = Some r → row_left r = 0.
Proof.
  unfold table_rows.
  pose proof (arrival_rows_conservation bucket_capacity output_rate incoming 1 0)
    as Hcons.
  pose proof arrival_final_bounds as Hfinal.
  pose proof (arrival_rows_last bucket_capacity output_rate incoming 1 0) as Hlast.
  destruct (arrival_rows bucket_capacity output_rate 1 0 incoming)
    as [arows stored].
  cbn [fst snd] in *.
  destruct (drain_rows_totals output_rate fuel (Z.of_nat (length incoming)) stored)
    as (Ht & Hd & Hl); [done|lia|].
  assert (∀ l1 l2, total (l1 ++ l2) = total l1 + total l2) as Happ.
  { intros l1 l2. induction l1 as [|x l1 IH]; [done|].
    unfold total in *. cbn [app foldr]. lia. }
  split.
  - rewrite omap_app, fmap_app, !Happ, Ht, Hd. unfold total at 3. simpl. lia.
  - intros r. destruct (drain_rows fuel _ _ stored) as [|r' drows] eqn:E.
    + rewrite app_nil_r. intros Hr. rewrite (Hlast r Hr).
      destruct (decide (stored > 0)) as [Hpos|Hpos]; [|lia].
      destruct fuel; [lia|]. cbn [drain_rows] in E.
      by rewrite decide_True in E by done.
    + rewrite last_app_cons. apply Hl.
Qed.

End LeakyBucketTable.

Example leaky_bucket_one_burst :
  run (leaky_bucket 5 4 3 [5]) []
  = (Ok Done,
     ["Time (s)    Incoming Packets  Bucket State (Before Leak)Dropped PacketsTransmitted Packets Packets Left in Bucket" +:+ newline;
      str_mul "=" 90 +:+ newline;
      "1           5                 4                       1              3                   1" +:+ newline;
      "2           --                1                       --             1                   0" +:+ newline;
      (newline +:+ "All packets transmitted successfully.") +:+ newline]).
Proof. reflexivity. Qed.

(** With a capacity that is not negative, a positive output rate and
    packets that are not negative, [leaky_bucket] ends (the drain loop needs
    at most [bucket_capacity] iterations) and prints the header, a rule, the
    rows and the closing line.  The rows are numbered 1, 2, 3, ...; the
    first ones show the incoming packets in order, the others, printed by
    the drain loop, show "--". *)
Theorem leaky_bucket_table (fuel : nat) (bucket_capacity output_rate : Z)
    (incoming_packets : list Z) (out : stdout) :
  0 ≤ bucket_capacity → 1 ≤ output_rate →
  Forall (λ p, 0 ≤ p) incoming_packets →
  bucket_capacity ≤ Z.of_nat fuel →
  ∃ rows : list row,
    run (leaky_bucket fuel bucket_capacity output_rate incoming_packets) out
    = (Ok Done, out ++ table rows)
    ∧ row_time <$> rows = (λ i : nat, 1 + Z.of_nat i) <$> seq 0 (length rows)
    ∧ row_packets <$> rows
      = (Some <$> incoming_packets)
        ++ replicate (length rows - length incoming_packets) None.
Proof.
  intros Hcap Hrate Hin Hfuel.
  exists (table_rows fuel bucket_capacity output_rate incoming_packets).
  split; [by apply leaky_bucket_prints|]. by apply table_rows_columns.
Qed.

Lemma leaky_bucket_table_witness :
  ∃ rows : list row,
    run (leaky_bucket 10 10 3 [4; 8; 0; 12]) [] = (Ok Done, [] ++ table rows)
    ∧ row_time <$> rows = (λ i : nat, 1 + Z.of_nat i) <$> seq 0 (length rows)
    ∧ row_packets <$> rows
      = (Some <$> [4; 8; 0; 12]) ++ replicate (length rows - length [4; 8; 0; 12]) None.
Proof.
  apply (leaky_bucket_table 10 10 3 [4; 8; 0; 12] []); try done.
  repeat constructor; done.
Defined.

(** Under the same conditions, every row of the table keeps the bucket
    within its capacity and the transmission within the rate: the packets
    left are between 0 and the capacity, the packets transmitted between 0
    and the rate, the state before the leak is their sum and does not
    exceed the capacity, and the dropped packets are not negative. *)
Theorem leaky_bucket_rows_within (fuel : nat) (bucket_capacity output_rate : Z)
    (incoming_packets : list Z) (out : stdout) :
  0 ≤ bucket_capacity → 1 ≤ output_rate →
  Forall (λ p, 0 ≤ p) incoming_packets →
  bucket_capacity ≤ Z.of_nat fuel →
  ∃ rows : list row,
    run (leaky_bucket fuel bucket_capacity output_rate incoming_packets) out
    = (Ok Done, out ++ table rows)
    ∧ Forall (λ r, 0 ≤ row_left r ≤ bucket_capacity
                   ∧ 0 ≤ row_transmitted r ≤ output_rate
                   ∧ row_before r = row_left r + row_transmitted r
                   ∧ row_before r ≤ bucket_capacity
                   ∧ (∀ d, row_dropped r = Some d → 0 ≤ d)) rows.
Proof.
  intros Hcap Hrate Hin Hfuel.
  exists (table_rows fuel bucket_capacity output_rate incoming_packets).
  split; [by apply leaky_bucket_prints|]. by apply table_rows_within.
Qed.

Lemma leaky_bucket_rows_within_witness :
  ∃ rows : list row,
    run (leaky_bucket 10 10 3 [4; 8; 0; 12]) [] = (Ok Done, [] ++ table rows)
    ∧ Forall (λ r, 0 ≤ row_left r ≤ 10
                   ∧ 0 ≤ row_transmitted r ≤ 3
                   ∧ row_before r = row_left r + row_transmitted r
                   ∧ row_before r ≤ 10
                   ∧ (∀ d, row_dropped r = Some d → 0 ≤ d)) rows.
Proof.
  apply (leaky_bucket_rows_within 10 10 3 [4; 8; 0; 12] []); try done.
  repeat constructor; done.
Defined.

(** Under the same conditions no packet is lost track of: the incoming
    packets add up to the dropped plus the transmitted packets of the
    table, and the last row leaves the bucket empty. *)
Theorem leaky_bucket_conservation (fuel : nat) (bucket_capacity output_rate : Z)
    (incoming_packets : list Z) (out : stdout) :
  0 ≤ bucket_capacity → 1 ≤ output_rate →
  Forall (λ p, 0 ≤ p) incoming_packets →
  bucket_capacity ≤ Z.of_nat fuel →
  ∃ rows : list row,
    run (leaky_bucket fuel bucket_capacity output_rate incoming_packets) out
    = (Ok Done, out ++ table rows)
    ∧ total incoming_packets
      = total (omap row_dropped rows) + total (row_transmitted <$> rows)
    ∧ ∀ r, last rows = Some r → row_left r = 0.
Proof.
  intros Hcap Hrate Hin Hfuel.
  exists (table_rows fuel bucket_capacity output_rate incoming_packets).
  split; [by apply leaky_bucket_prints|]. by apply table_rows_conservation.
Qed.

Lemma leaky_bucket_conservation_witness :
  ∃ rows : list row,
    run (leaky_bucket 10 10 3 [4; 8; 0; 12]) [] = (Ok Done, [] ++ table rows)
    ∧ total [4; 8; 0; 12]
      = total (omap row_dropped rows) + total (row_transmitted <$> rows)
    ∧ ∀ r, last rows = Some r → row_left r = 0.
Proof.
  apply (leaky_bucket_conservation 10 10 3 [4; 8; 0; 12] []); try done.
  repeat constructor; done.
Defined.

(** With an output rate of 0 or less, a capacity of at least 1 and packets
    that are not negative, one of them positive, the drain loop never ends:
    whatever the bound on its iterations, the call is still running and the
    closing line is not printed. *)
Theorem leaky_bucket_diverges (fuel : nat) (bucket_capacity output_rate : Z)
    (incoming_packets : list Z) (out : stdout) :
  output_rate ≤ 0 → 1 ≤ bucket_capacity →
  Forall (λ p, 0 ≤ p) incoming_packets →
  Exists (λ p, 1 ≤ p) incoming_packets →
  (run (leaky_bucket fuel bucket_capacity output_rate incoming_packets) out).1
  = Ok OutOfFuel.
Proof.
  intros Hrate Hcap Hin Hex. unfold leaky_bucket. cbv zeta.
  rewrite !run_print_seq, run_bind, arrival_loop.
  pose proof (arrival_rows_stuck bucket_capacity output_rate incoming_packets
                1 0 Hrate Hcap Hin) as Hstuck.
  destruct (arrival_rows bucket_capacity output_rate 1 0 incoming_packets)
    as [rows stored].
  cbn [fst snd] in *. rewrite run_bind.
  destruct incoming_packets as [|p rest]; [by apply Exists_nil in Hex|].
  pose proof (drain_diverges output_rate fuel
                (1 + Z.of_nat (length (p :: rest)) - 1) stored
                (((out ++ [table_header +:+ newline])
                  ++ [str_mul "=" 90 +:+ newline]) ++ (render_row <$> rows))
                Hrate) as Hd.
  assert (1 ≤ stored) as Hone by (apply Hstuck; [lia|by right]).
  assert (0 < stored) as Hpos by lia.
  specialize (Hd Hpos).
  destruct (run (drain _ _ _ _) _) as [[e|e] out']; cbn [fst] in Hd; [|done].
  by injection Hd as ->.
Qed.

Lemma leaky_bucket_diverges_witness :
  (run (leaky_bucket 50 10 0 [0; 4]) []).1 = Ok OutOfFuel.
Proof.
  apply (leaky_bucket_diverges 50 10 0 [0; 4] []); try done.
  - repeat constructor; done.
  - apply Exists_cons. right. apply Exists_cons. by left.
Defined.

(** With a positive output rate the call ends on all integer inputs: there
    is a number of iterations of the drain loop beyond which the call is
    over and the closing line printed. *)
Theorem leaky_bucket_terminates (bucket_capacity output_rate : Z)
    (incoming_packets : list Z) :
  1 ≤ output_rate →
  ∃ fuel0 : nat, ∀ (fuel : nat) (out : stdout),
    (fuel0 ≤ fuel)%nat →
    ∃ out',
      run (leaky_bucket fuel bucket_capacity output_rate incoming_packets) out
      = (Ok Done,
         out' ++ [(newline +:+ "All packets transmitted successfully.") +:+ newline]).
Proof.
  intros Hrate.
  exists (Z.to_nat (arrival_rows bucket_capacity output_rate 1 0 incoming_packets).2).
  intros fuel out Hfuel. rewrite leaky_bucket_run by (done || lia).
  unfold table. rewrite !(assoc_L (++)). eauto.
Qed.

Lemma leaky_bucket_terminates_witness :
  ∃ fuel0 : nat, ∀ (fuel : nat) (out : stdout),
    (fuel0 ≤ fuel)%nat →
    ∃ out',
      run (leaky_bucket fuel 10 3 [4; -8; 30]) out
      = (Ok Done,
         out' ++ [(newline +:+ "All packets transmitted successfully.") +:+ newline]).
Proof. by apply (leaky_bucket_terminates 10 3 [4; -8; 30]). Defined.

(** [time] is never read before it is assigned: whatever the arguments
    and the bound on the iterations, the call does not end with
    [UnboundLocalError] (with no incoming packets the bucket is empty and
    the drain loop is not entered). *)
Theorem leaky_bucket_time_bound (fuel : nat) (bucket_capacity output_rate : Z)
    (incoming_packets : list Z) (out : stdout) (name : string) :
  (run (leaky_bucket fuel bucket_capacity output_rate incoming_packets) out).1
  ≠ Ok (UnboundLocalError name).
Proof.
  unfold leaky_bucket. cbv zeta.
  rewrite !run_print_seq, run_bind, arrival_loop.
  destruct (arrival_rows bucket_capacity output_rate 1 0 incoming_packets)
    as [rows stored] eqn:E.
  cbn [fst snd]. rewrite run_bind. destruct incoming_packets as [|p rest].
  - simpl in E. simplify_eq. by rewrite drain_empty.
  - set (time := 1 + Z.of_nat (length (p :: rest)) - 1).
    pose proof (drain_bound output_rate fuel time stored
                  (((out ++ [table_header +:+ newline])
                    ++ [str_mul "=" 90 +:+ newline]) ++ (render_row <$> rows)))
      as Hb.
    destruct (run (drain _ _ _ _) _) as [[[]|e] out']; done.
Qed.
